(** * Media capture, chunked recording and live chunk transport

    A shallow embedding of the three React components of the repository
    that acquire a media stream and record it:

    - [App] (the recorder component: MediaRecorder, chunk buffer, WebSocket
      forwarding, preview artifact),
    - [ImprovedVideoChat] (camera session with mute and error overlay),
    - [VideoChat] (camera session with mute and a message log),

    and of the code editor of the session page, [EnhancedCodeEditor].

    A component is a function that React calls once per render.  The state
    variables ([isRecording], [previewUrl], ...) are constants of one call:
    every handler created by a render reads the values of that render, also
    when it runs much later.  Refs ([streamRef], [websocketRef], ...) and
    browser objects are shared and mutable.  The embedding keeps the two
    apart: a handler takes the values it closed over as an argument
    (its [env]) and the shared store as a [World] that it transforms. *)

From Stdlib Require Import String List Bool Arith Lia.
From Stdlib.Strings Require Import Byte.
From Stdlib Require Import Ascii DecimalString DecimalNat.
From stdpp Require Import base option list.
Import ListNotations.
Open Scope string_scope.

(** ** Browser objects shared by the components *)

Inductive TrackKind := Audio | Video.

(** A MediaStreamTrack: [enabled] is the flag [toggleMute] writes,
    [live] is [readyState === 'live'] ([track.stop()] ends the track). *)
Record Track := mkTrack {
  kind : TrackKind;
  enabled : bool;
  live : bool
}.

Abbreviation MediaStream := (list Track).

Definition track_stop (t : Track) : Track :=
  mkTrack (kind t) (enabled t) false.

Definition track_set_enabled (b : bool) (t : Track) : Track :=
  mkTrack (kind t) b (live t).

Definition is_audio (t : Track) : bool :=
  match kind t with Audio => true | Video => false end.

(** [stream.getTracks().forEach(track => track.stop())] *)
Definition stop_all_tracks (s : MediaStream) : MediaStream :=
  map track_stop s.

(** [stream.getAudioTracks().forEach(track => { track.enabled = b })] *)
Definition set_audio_enabled (b : bool) (s : MediaStream) : MediaStream :=
  map (fun t => if is_audio t then track_set_enabled b t else t) s.

(** The tracks [getUserMedia] / [getDisplayMedia] hand out are live and
    enabled. *)
Definition fresh_track (k : TrackKind) : Track := mkTrack k true true.

Definition fresh_stream (ks : list TrackKind) : MediaStream :=
  map fresh_track ks.

(** A Blob: its bytes and its media type. *)
Record Blob := mkBlob {
  blob_bytes : list byte;
  blob_type : string
}.

Definition size (b : Blob) : nat := length (blob_bytes b).

(** [new Blob(parts, { type })]: the parts' bytes one after the other. *)
Definition new_Blob (parts : list Blob) (type : string) : Blob :=
  mkBlob (concat (map blob_bytes parts)) type.

(** What a rejected [getUserMedia] promise carries: a DOMException, which
    is an [Error] with a [message], or (in principle) any other value. *)
Inductive Rejection :=
| ErrorObject (message : string)
| OtherValue (text : string).

(** ** Numbers as text *)

(** [num.toString()] of a non-negative integer: its decimal digits. *)
Definition toString (num : nat) : string :=
  NilEmpty.string_of_uint (Nat.to_uint num).

Fixpoint fill (n : nat) (c : ascii) (s : string) : string :=
  match n with
  | 0 => s
  | S n' => String c (fill n' c s)
  end.

(** [s.padStart(targetLength, c)] for a filler of one character: the
    filler is repeated in front until the length is reached; a string that
    is long enough is returned as it is. *)
Definition padStart (targetLength : nat) (c : ascii) (s : string) : string :=
  fill (targetLength - String.length s) c s.

(** The number a string of digits stands for. *)
Definition readNat (s : string) : option nat :=
  option_map Nat.of_uint (NilEmpty.uint_of_string s).

(** No [":"] in the string. *)
Fixpoint colon_free (s : string) : bool :=
  match s with
  | EmptyString => true
  | String c rest => negb (Ascii.eqb c ":") && colon_free rest
  end.

Module App.

(** *** React state of one render *)

Inductive Source := Webcam | Screen.

Record State := mkState {
  isRecording : bool;
  recordingType : option Source;
  recordedChunks : list Blob;
  previewUrl : option nat;
  recordingDuration : nat
}.

(** *** Browser objects *)

Inductive ReadyState := CONNECTING | OPEN | CLOSING | CLOSED.

(** A WebSocket.  Its [onclose] handler is a closure of the render whose
    [setupWebSocket] created the socket; the one state variable the handler
    reads is [isRecording], kept here as [ws_isRecording].  [ws_sent] are
    the messages that went out on the wire. *)
Record WebSocket := mkWebSocket {
  ws_url : string;
  readyState : ReadyState;
  ws_isRecording : bool;
  ws_sent : list (list byte)
}.

Inductive RecorderState := inactive | recording.

(** A MediaRecorder together with the array [chunks] that its two handlers
    close over.  [rec_events] holds from [start()] until the recorder's
    [stop] event has been dispatched: the platform still owes events. *)
Record MediaRecorder := mkMediaRecorder {
  rec_stream : nat;
  rec_mimeType : string;
  rec_timeslice : nat;
  rec_state : RecorderState;
  rec_events : bool;
  chunks : list Blob
}.

Record VideoElement := mkVideoElement {
  srcObject : option nat;
  muted : bool;
  src : option nat
}.

(** A pending [setTimeout]: the only callback the component ever schedules
    is the one of [reconnect], a closure of the same render as the socket
    handler that called it. *)
Record Timeout := mkTimeout {
  delay : nat;
  cb_isRecording : bool
}.

(** Observable effects, in the order they happen. *)
Inductive Effect :=
| ConsoleLog (text : string)
| ConsoleError (text : string) (detail : Rejection)
| ChunkPushed (rid : nat) (data : Blob)
| SendCalled (wid : nat) (data : list byte)
| VideoPlay
| AnchorClick (href : nat) (download_millis : nat).

(** The refs of the component and the browser heap.  Objects are named by
    their position in the list they were allocated in. *)
Record World := mkWorld {
  st : State;
  mediaRecorderRef : option nat;
  videoRef : option VideoElement;
  streamRef : option nat;
  timerIntervalRef : option nat;
  websocketRef : option nat;
  streams : list MediaStream;
  recorders : list MediaRecorder;
  sockets : list WebSocket;
  intervals : list bool;
  timeouts : list (option Timeout);
  urls : list (option Blob);
  media_requests : list (option Source);
  buffer_reads : list (option Blob);
  effects : list Effect
}.

Definition with_st (f : State -> State) (w : World) : World :=
  mkWorld (f (st w)) (mediaRecorderRef w) (videoRef w) (streamRef w)
    (timerIntervalRef w) (websocketRef w) (streams w) (recorders w)
    (sockets w) (intervals w) (timeouts w) (urls w) (media_requests w)
    (buffer_reads w) (effects w).

Definition with_mediaRecorderRef (x : option nat) (w : World) : World :=
  mkWorld (st w) x (videoRef w) (streamRef w)
    (timerIntervalRef w) (websocketRef w) (streams w) (recorders w)
    (sockets w) (intervals w) (timeouts w) (urls w) (media_requests w)
    (buffer_reads w) (effects w).

Definition with_videoRef (x : option VideoElement) (w : World) : World :=
  mkWorld (st w) (mediaRecorderRef w) x (streamRef w)
    (timerIntervalRef w) (websocketRef w) (streams w) (recorders w)
    (sockets w) (intervals w) (timeouts w) (urls w) (media_requests w)
    (buffer_reads w) (effects w).

Definition with_streamRef (x : option nat) (w : World) : World :=
  mkWorld (st w) (mediaRecorderRef w) (videoRef w) x
    (timerIntervalRef w) (websocketRef w) (streams w) (recorders w)
    (sockets w) (intervals w) (timeouts w) (urls w) (media_requests w)
    (buffer_reads w) (effects w).

Definition with_timerIntervalRef (x : option nat) (w : World) : World :=
  mkWorld (st w) (mediaRecorderRef w) (videoRef w) (streamRef w)
    x (websocketRef w) (streams w) (recorders w)
    (sockets w) (intervals w) (timeouts w) (urls w) (media_requests w)
    (buffer_reads w) (effects w).

Definition with_websocketRef (x : option nat) (w : World) : World :=
  mkWorld (st w) (mediaRecorderRef w) (videoRef w) (streamRef w)
    (timerIntervalRef w) x (streams w) (recorders w)
    (sockets w) (intervals w) (timeouts w) (urls w) (media_requests w)
    (buffer_reads w) (effects w).

Definition with_streams (x : list MediaStream) (w : World) : World :=
  mkWorld (st w) (mediaRecorderRef w) (videoRef w) (streamRef w)
    (timerIntervalRef w) (websocketRef w) x (recorders w)
    (sockets w) (intervals w) (timeouts w) (urls w) (media_requests w)
    (buffer_reads w) (effects w).

Definition with_recorders (x : list MediaRecorder) (w : World) : World :=
  mkWorld (st w) (mediaRecorderRef w) (videoRef w) (streamRef w)
    (timerIntervalRef w) (websocketRef w) (streams w) x
    (sockets w) (intervals w) (timeouts w) (urls w) (media_requests w)
    (buffer_reads w) (effects w).

Definition with_sockets (x : list WebSocket) (w : World) : World :=
  mkWorld (st w) (mediaRecorderRef w) (videoRef w) (streamRef w)
    (timerIntervalRef w) (websocketRef w) (streams w) (recorders w)
    x (intervals w) (timeouts w) (urls w) (media_requests w)
    (buffer_reads w) (effects w).

Definition with_intervals (x : list bool) (w : World) : World :=
  mkWorld (st w) (mediaRecorderRef w) (videoRef w) (streamRef w)
    (timerIntervalRef w) (websocketRef w) (streams w) (recorders w)
    (sockets w) x (timeouts w) (urls w) (media_requests w)
    (buffer_reads w) (effects w).

Definition with_timeouts (x : list (option Timeout)) (w : World) : World :=
  mkWorld (st w) (mediaRecorderRef w) (videoRef w) (streamRef w)
    (timerIntervalRef w) (websocketRef w) (streams w) (recorders w)
    (sockets w) (intervals w) x (urls w) (media_requests w)
    (buffer_reads w) (effects w).

Definition with_urls (x : list (option Blob)) (w : World) : World :=
  mkWorld (st w) (mediaRecorderRef w) (videoRef w) (streamRef w)
    (timerIntervalRef w) (websocketRef w) (streams w) (recorders w)
    (sockets w) (intervals w) (timeouts w) x (media_requests w)
    (buffer_reads w) (effects w).

Definition with_media_requests (x : list (option Source)) (w : World) : World :=
  mkWorld (st w) (mediaRecorderRef w) (videoRef w) (streamRef w)
    (timerIntervalRef w) (websocketRef w) (streams w) (recorders w)
    (sockets w) (intervals w) (timeouts w) (urls w) x
    (buffer_reads w) (effects w).

Definition with_buffer_reads (x : list (option Blob)) (w : World) : World :=
  mkWorld (st w) (mediaRecorderRef w) (videoRef w) (streamRef w)
    (timerIntervalRef w) (websocketRef w) (streams w) (recorders w)
    (sockets w) (intervals w) (timeouts w) (urls w) (media_requests w)
    x (effects w).

Definition emit (e : Effect) (w : World) : World :=
  mkWorld (st w) (mediaRecorderRef w) (videoRef w) (streamRef w)
    (timerIntervalRef w) (websocketRef w) (streams w) (recorders w)
    (sockets w) (intervals w) (timeouts w) (urls w) (media_requests w)
    (buffer_reads w) (effects w ++ [e]).

(** *** The state setters of [useState] *)

Definition setIsRecording (b : bool) : World -> World :=
  with_st (fun s => mkState b (recordingType s) (recordedChunks s)
                      (previewUrl s) (recordingDuration s)).

Definition setRecordingType (t : option Source) : World -> World :=
  with_st (fun s => mkState (isRecording s) t (recordedChunks s)
                      (previewUrl s) (recordingDuration s)).

Definition setRecordedChunks (c : list Blob) : World -> World :=
  with_st (fun s => mkState (isRecording s) (recordingType s) c
                      (previewUrl s) (recordingDuration s)).

Definition setPreviewUrl (u : option nat) : World -> World :=
  with_st (fun s => mkState (isRecording s) (recordingType s)
                      (recordedChunks s) u (recordingDuration s)).

Definition setRecordingDuration (f : nat -> nat) : World -> World :=
  with_st (fun s => mkState (isRecording s) (recordingType s)
                      (recordedChunks s) (previewUrl s)
                      (f (recordingDuration s))).

(** *** Platform calls *)

Definition createObjectURL (b : Blob) (w : World) : nat * World :=
  (length (urls w), with_urls (urls w ++ [Some b]) w).

Definition revokeObjectURL (u : nat) (w : World) : World :=
  with_urls (<[u := None]> (urls w)) w.

Definition clearInterval (id : nat) (w : World) : World :=
  with_intervals (<[id := false]> (intervals w)) w.

Definition setInterval (w : World) : nat * World :=
  (length (intervals w), with_intervals (intervals w ++ [true]) w).

Definition setTimeout (t : Timeout) (w : World) : World :=
  with_timeouts (timeouts w ++ [Some t]) w.

(** [video.play()] *)
Definition play (w : World) : World := emit VideoPlay w.

(** [ws.close()]: a socket that is connecting or open starts closing, one
    that is closing or closed stays as it is. *)
Definition ws_close (s : WebSocket) : WebSocket :=
  match readyState s with
  | CONNECTING | OPEN =>
      mkWebSocket (ws_url s) CLOSING (ws_isRecording s) (ws_sent s)
  | CLOSING | CLOSED => s
  end.

(** [ws.send(data)]: goes out on an open socket, is discarded without an
    error on a closing or closed one, and throws on a connecting one (the
    exception rejects the promise of the async handler, nothing else). *)
Definition ws_send (data : list byte) (s : WebSocket) : WebSocket :=
  match readyState s with
  | OPEN => mkWebSocket (ws_url s) OPEN (ws_isRecording s) (ws_sent s ++ [data])
  | _ => s
  end.

(** [recorder.stop()]: nothing on an inactive recorder; otherwise the
    recorder becomes inactive and its last events stay owed. *)
Definition rec_stop (r : MediaRecorder) : MediaRecorder :=
  match rec_state r with
  | inactive => r
  | recording =>
      mkMediaRecorder (rec_stream r) (rec_mimeType r) (rec_timeslice r)
        inactive (rec_events r) (chunks r)
  end.

Definition rec_push (b : Blob) (r : MediaRecorder) : MediaRecorder :=
  mkMediaRecorder (rec_stream r) (rec_mimeType r) (rec_timeslice r)
    (rec_state r) (rec_events r) (chunks r ++ [b]).

Definition rec_stopped (r : MediaRecorder) : MediaRecorder :=
  mkMediaRecorder (rec_stream r) (rec_mimeType r) (rec_timeslice r)
    inactive false (chunks r).

Section Platform.

(** [MediaRecorder.isTypeSupported], a fixed capability of the browser. *)
Variable isTypeSupported : string -> bool.

Definition types : list string :=
  [ "video/webm;codecs=vp8,opus";
    "video/webm;codecs=vp9,opus";
    "video/webm;codecs=h264,opus";
    "video/mp4" ].

(** The [for (const type of types)] loop of [getMimeType]. *)
Fixpoint first_supported (ts : list string) (default : string) : string :=
  match ts with
  | [] => default
  | t :: rest => if isTypeSupported t then t else first_supported rest default
  end.

Definition getMimeType : string := first_supported types "video/webm".

(** *** The timer effect, [useEffect(..., [isRecording])]

    React runs the effect after the first render and after every render in
    which [isRecording] differs from the previous render; before a re-run
    it runs the clean-up the previous run returned.  Interval handles are
    positive numbers, so [if (timerIntervalRef.current)] asks whether the
    ref was ever set. *)

Definition timer_cleanup (w : World) : World :=
  match timerIntervalRef w with
  | Some id => clearInterval id w
  | None => w
  end.

Definition timer_effect (w : World) : World :=
  if isRecording (st w) then
    let '(id, w) := setInterval w in
    with_timerIntervalRef (Some id) w
  else
    let w := match timerIntervalRef w with
             | Some id => clearInterval id w
             | None => w
             end in
    setRecordingDuration (fun _ => 0) w.

(** The re-render that follows a handler: [before] is [isRecording] of the
    render the handler started from. *)
Definition commit (before : bool) (w : World) : World :=
  if Bool.eqb before (isRecording (st w)) then w
  else timer_effect (timer_cleanup w).

(** The callback of the interval: [setRecordingDuration(prev => prev + 1)]. *)
Definition timer_tick (w : World) : World :=
  setRecordingDuration (fun prev => prev + 1) w.

(** *** [setupWebSocket] and the socket's handlers

    [isRec] is the [isRecording] of the render that owns this
    [setupWebSocket]; [ws.onclose] and [reconnect] are created inside it
    and see the same constant. *)

Definition setupWebSocket (isRec : bool) (w : World) : World :=
  let wid := length (sockets w) in
  let ws := mkWebSocket "ws://localhost:8000/ws" CONNECTING isRec [] in
  with_websocketRef (Some wid) (with_sockets (sockets w ++ [ws]) w).

Definition reconnect (isRec : bool) (w : World) : World :=
  setTimeout (mkTimeout 3000 isRec) w.

(** The callback [reconnect] hands to [setTimeout]. *)
Definition reconnect_callback (isRec : bool) (w : World) : World :=
  let w := emit (ConsoleLog "Attempting to reconnect WebSocket...") w in
  setupWebSocket isRec w.

Definition ws_onopen (w : World) : World :=
  emit (ConsoleLog "WebSocket connection established") w.

Definition ws_onerror (error : Rejection) (w : World) : World :=
  emit (ConsoleError "WebSocket error:" error) w.

Definition ws_onclose (isRec : bool) (w : World) : World :=
  let w := emit (ConsoleLog
             "WebSocket connection closed, attempting to reconnect...") w in
  if isRec then reconnect isRec w else w.

(** *** [mediaRecorder.ondataavailable]

    The handler is async.  Up to its [await] it runs in one piece:
    [ondataavailable]; what follows the [await] runs once the blob has
    been read: [ondataavailable_resume]. *)

Definition socket_is_open (w : World) : bool :=
  match websocketRef w with
  | Some wid =>
      match sockets w !! wid with
      | Some ws => match readyState ws with OPEN => true | _ => false end
      | None => false
      end
  | None => false
  end.

Definition ondataavailable (rid : nat) (data : Blob) (w : World) : World :=
  if (0 <? size data)%nat then
    let w := with_recorders (alter (rec_push data) rid (recorders w)) w in
    let w := emit (ChunkPushed rid data) w in
    if socket_is_open w then
      with_buffer_reads (buffer_reads w ++ [Some data]) w
    else w
  else w.

(** [websocketRef.current.send(arrayBuffer)], on the socket the ref names
    when the read has finished. *)
Definition ondataavailable_resume (data : Blob) (w : World) : World :=
  match websocketRef w with
  | Some wid =>
      let w := emit (SendCalled wid (blob_bytes data)) w in
      with_sockets (alter (ws_send (blob_bytes data)) wid (sockets w)) w
  | None => w
  end.

(** *** [mediaRecorder.onstop] *)

Definition onstop (rid : nat) (w : World) : World :=
  let chunks := match recorders w !! rid with
                | Some r => chunks r
                | None => []
                end in
  let w := setRecordedChunks chunks w in
  let w := match streamRef w with
           | Some sid => with_streams (alter stop_all_tracks sid (streams w)) w
           | None => w
           end in
  let w := match videoRef w with
           | Some v => with_videoRef (Some (mkVideoElement None false (src v))) w
           | None => w
           end in
  let w := match websocketRef w with
           | Some wid => with_sockets (alter ws_close wid (sockets w)) w
           | None => w
           end in
  let blob := new_Blob chunks getMimeType in
  let '(url, w) := createObjectURL blob w in
  let w := setPreviewUrl (Some url) w in
  match videoRef w with
  | Some v => with_videoRef (Some (mkVideoElement (srcObject v) (muted v) (Some url))) w
  | None => w
  end.

(** *** [startRecording]

    [startRecording_begin] is the part before the [await]; the promise of
    [getUserMedia] / [getDisplayMedia] then resolves with a stream
    ([startRecording_granted]) or is rejected ([startRecording_denied],
    the [catch] block). *)

Definition startRecording_begin (env : State) (type : Source) (w : World)
  : World :=
  let w := match previewUrl env with
           | Some u => setPreviewUrl None (revokeObjectURL u w)
           | None => w
           end in
  let w := setupWebSocket (isRecording env) w in
  with_media_requests (media_requests w ++ [Some type]) w.

Definition startRecording_denied (error : Rejection) (w : World) : World :=
  emit (ConsoleError "Error accessing media devices:" error) w.

(** [new MediaRecorder(stream, { mimeType })] throws a NotSupportedError
    for a type the browser does not support; the [catch] block receives
    it. *)
Definition startRecording_granted (type : Source) (stream : MediaStream)
    (w : World) : World :=
  let sid := length (streams w) in
  let w := with_streams (streams w ++ [stream]) w in
  let w := with_streamRef (Some sid) w in
  let w := match videoRef w with
           | Some v =>
               play (with_videoRef (Some (mkVideoElement (Some sid) true (src v))) w)
           | None => w
           end in
  let mimeType := getMimeType in
  if isTypeSupported mimeType then
    let rid := length (recorders w) in
    let mediaRecorder := mkMediaRecorder sid mimeType 1000 recording true [] in
    let w := with_recorders (recorders w ++ [mediaRecorder]) w in
    let w := with_mediaRecorderRef (Some rid) w in
    let w := setIsRecording true w in
    setRecordingType (Some type) w
  else
    startRecording_denied (ErrorObject "NotSupportedError") w.

(** *** [stopRecording], [downloadRecording], [resetRecording],
    [playPreview] *)

Definition stopRecording (env : State) (w : World) : World :=
  match mediaRecorderRef w with
  | Some rid =>
      if isRecording env then
        let w := with_recorders (alter rec_stop rid (recorders w)) w in
        let w := setIsRecording false w in
        setRecordingType None w
      else w
  | None => w
  end.

Definition downloadRecording (env : State) (now : nat) (w : World) : World :=
  match recordedChunks env with
  | [] => w
  | _ =>
      let blob := new_Blob (recordedChunks env) getMimeType in
      let '(url, w) := createObjectURL blob w in
      let w := emit (AnchorClick url now) w in
      revokeObjectURL url w
  end.

Definition resetRecording (env : State) (w : World) : World :=
  let w := match previewUrl env with
           | Some u => revokeObjectURL u w
           | None => w
           end in
  let w := setPreviewUrl None w in
  let w := setRecordedChunks [] w in
  match videoRef w with
  | Some v => with_videoRef (Some (mkVideoElement (srcObject v) (muted v) None)) w
  | None => w
  end.

Definition playPreview (w : World) : World :=
  match videoRef w with
  | Some _ => play w
  | None => w
  end.

(** *** The component as a transition system

    One [Event] is one task of the browser's event loop: a click on a
    control the current render shows, or a callback the platform owes.
    [step] runs the handler and the re-render that follows it; it is
    [None] when the event cannot happen in that world.  The recorder may
    deliver data and stop on its own (its tracks ended), so both events
    are possible as long as it owes events.  Unmounting ends a run and is
    not an event. *)

Inductive Event :=
| ClickStart (type : Source)
| MediaGranted (i : nat) (tracks : list TrackKind)
| MediaDenied (i : nat) (error : Rejection)
| DataAvailable (rid : nat) (data : Blob)
| BufferRead (i : nat)
| RecorderStopped (rid : nat)
| ClickStop
| ClickDownload (now : nat)
| ClickReset
| ClickPlay
| SocketOpened (wid : nat)
| SocketError (wid : nat) (error : Rejection)
| SocketClosed (wid : nat)
| TimeoutFired (i : nat)
| IntervalFired (id : nat).

Definition is_some {A} (o : option A) : bool :=
  match o with Some _ => true | None => false end.

Definition set_readyState (rs : ReadyState) (s : WebSocket) : WebSocket :=
  mkWebSocket (ws_url s) rs (ws_isRecording s) (ws_sent s).

Definition step (e : Event) (w : World) : option World :=
  let env := st w in
  match e with
  | ClickStart type =>
      (* shown when [!isRecording && !previewUrl] *)
      if negb (isRecording env) && negb (is_some (previewUrl env))
      then Some (startRecording_begin env type w) else None
  | MediaGranted i tracks =>
      match media_requests w !! i with
      | Some (Some type) =>
          let w := with_media_requests (<[i := None]> (media_requests w)) w in
          Some (commit (isRecording env)
                  (startRecording_granted type (fresh_stream tracks) w))
      | _ => None
      end
  | MediaDenied i error =>
      match media_requests w !! i with
      | Some (Some type) =>
          let w := with_media_requests (<[i := None]> (media_requests w)) w in
          Some (startRecording_denied error w)
      | _ => None
      end
  | DataAvailable rid data =>
      match recorders w !! rid with
      | Some r => if rec_events r then Some (ondataavailable rid data w) else None
      | None => None
      end
  | BufferRead i =>
      match buffer_reads w !! i with
      | Some (Some data) =>
          let w := with_buffer_reads (<[i := None]> (buffer_reads w)) w in
          Some (ondataavailable_resume data w)
      | _ => None
      end
  | RecorderStopped rid =>
      match recorders w !! rid with
      | Some r =>
          if rec_events r then
            let w := with_recorders (alter rec_stopped rid (recorders w)) w in
            Some (onstop rid w)
          else None
      | None => None
      end
  | ClickStop =>
      (* shown when [isRecording] *)
      if isRecording env
      then Some (commit (isRecording env) (stopRecording env w)) else None
  | ClickDownload now =>
      (* shown when [previewUrl] *)
      if is_some (previewUrl env) then Some (downloadRecording env now w) else None
  | ClickReset =>
      if is_some (previewUrl env) then Some (resetRecording env w) else None
  | ClickPlay =>
      if is_some (previewUrl env) then Some (playPreview w) else None
  | SocketOpened wid =>
      match sockets w !! wid with
      | Some ws =>
          match readyState ws with
          | CONNECTING =>
              Some (ws_onopen
                      (with_sockets (alter (set_readyState OPEN) wid (sockets w)) w))
          | _ => None
          end
      | None => None
      end
  | SocketError wid error =>
      match sockets w !! wid with
      | Some ws => Some (ws_onerror error w)
      | None => None
      end
  | SocketClosed wid =>
      match sockets w !! wid with
      | Some ws =>
          match readyState ws with
          | CLOSED => None
          | _ =>
              Some (ws_onclose (ws_isRecording ws)
                      (with_sockets (alter (set_readyState CLOSED) wid (sockets w)) w))
          end
      | None => None
      end
  | TimeoutFired i =>
      match timeouts w !! i with
      | Some (Some t) =>
          let w := with_timeouts (<[i := None]> (timeouts w)) w in
          Some (reconnect_callback (cb_isRecording t) w)
      | _ => None
      end
  | IntervalFired id =>
      match intervals w !! id with
      | Some true => Some (timer_tick w)
      | _ => None
      end
  end.

Fixpoint run (es : list Event) (w : World) : option World :=
  match es with
  | [] => Some w
  | e :: rest =>
      match step e w with
      | Some w' => run rest w'
      | None => None
      end
  end.

(** The world after the component has mounted: initial state, the video
    element attached, no browser object yet, the timer effect run once. *)
Definition mounted : World :=
  timer_effect
    (mkWorld (mkState false None [] None 0)
       None (Some (mkVideoElement None false None)) None None None
       [] [] [] [] [] [] [] [] []).

Definition reachable (w : World) : Prop :=
  exists es, run es mounted = Some w.

(** The three groups of controls the component renders: stop while
    [isRecording]; preview, download and reset while there is a
    [previewUrl]; the two start buttons otherwise. *)
Inductive Status := Idle | Recording | Stopped.

Definition status (s : State) : Status :=
  if isRecording s then Recording
  else if is_some (previewUrl s) then Stopped
  else Idle.

End Platform.

(** *** Predicates on worlds used in the statements below *)

(** No socket's close handler and no pending callback sees
    [isRecording = true]. *)
Definition closures_see_not_recording (w : World) : Prop :=
  Forall (fun ws => ws_isRecording ws = false) (sockets w) /\
  timeouts w = [].

(** The chunk state is empty without a preview, and the duration counter
    is zero and no interval runs unless recording; the one interval that
    may run is the one [timerIntervalRef] names. *)
Definition timer_and_buffer_reset (w : World) : Prop :=
  (previewUrl (st w) = None -> recordedChunks (st w) = []) /\
  (isRecording (st w) = false -> recordingDuration (st w) = 0) /\
  (isRecording (st w) = false ->
     forall id, intervals w !! id = Some true -> False) /\
  (forall id, intervals w !! id = Some true -> timerIntervalRef w = Some id).

(** What [timer_and_buffer_reset] looks at. *)
Definition timer_view (w : World) : State * list bool * option nat :=
  (st w, intervals w, timerIntervalRef w).

(** What [chunks_nonempty] looks at. *)
Definition chunks_view (w : World) : list MediaRecorder * list Blob :=
  (recorders w, recordedChunks (st w)).

(** Every buffered chunk has content. *)
Definition chunks_nonempty (w : World) : Prop :=
  Forall (fun r => Forall (fun c => 0 < size c) (chunks r)) (recorders w) /\
  Forall (fun c => 0 < size c) (recordedChunks (st w)).

(** The array [chunks] of recorder [rid]. *)
Definition buffered (rid : nat) (w : World) : list Blob :=
  match recorders w !! rid with
  | Some r => chunks r
  | None => []
  end.

(** Every recorder carries the type [getMimeType] negotiates. *)
Definition recorders_negotiated (isTypeSupported : string -> bool)
    (w : World) : Prop :=
  Forall (fun r => rec_mimeType r = getMimeType isTypeSupported)
    (recorders w).

(** At most one stream with a live track. *)
Definition has_live_track (s : MediaStream) : bool := existsb live s.

Definition at_most_one_session (w : World) : Prop :=
  forall i j si sj,
    streams w !! i = Some si -> streams w !! j = Some sj ->
    has_live_track si = true -> has_live_track sj = true -> i = j.

(** *** Browsers and inputs for the examples *)

Definition supports_all (t : string) : bool := true.

Definition supports_vp9_and_mp4 (t : string) : bool :=
  String.eqb t "video/webm;codecs=vp9,opus" || String.eqb t "video/mp4".

Definition chunk (bytes : list byte) : Blob := mkBlob bytes "video/webm".

Definition camera : list TrackKind := [Audio; Video].

(** A recording in progress in a browser that supports every type, with
    the socket connected. *)
Definition recording_world : World :=
  match run supports_all
          [ClickStart Webcam; MediaGranted 0 camera; SocketOpened 0] mounted with
  | Some w => w
  | None => mounted
  end.

(** The recorder of [recording_world], as [startRecording] created it. *)
Definition recorder0 : MediaRecorder :=
  mkMediaRecorder 0 "video/webm;codecs=vp8,opus" 1000 recording true [].

Definition c1 : Blob := chunk [Byte.x01; Byte.x02].
Definition c2 : Blob := chunk [Byte.x03].
Definition c3 : Blob := chunk [Byte.x04; Byte.x05; Byte.x06].

Definition start_camera : list Event :=
  [ClickStart Webcam; MediaGranted 0 camera; SocketOpened 0].

(** Start, three ticks with data, stop. *)
Definition three_ticks : list Event :=
  (start_camera ++
   [DataAvailable 0 c1; BufferRead 0;
    DataAvailable 0 c2; BufferRead 1;
    DataAvailable 0 c3; BufferRead 2;
    ClickStop; RecorderStopped 0])%list.

(** Start and stop before the first tick; the recorder delivers an empty
    blob before its stop event. *)
Definition stop_at_once : list Event :=
  (start_camera ++
   [ClickStop; DataAvailable 0 (chunk []); RecorderStopped 0])%list.

(** The start button clicked twice before the permission prompt is
    answered; both requests are then granted. *)
Definition double_start : list Event :=
  [ClickStart Webcam; ClickStart Webcam;
   MediaGranted 0 camera; MediaGranted 1 camera].

Definition permission_denied : Rejection := ErrorObject "Permission denied".

(** *** Unmounting

    React runs the clean-up of every effect: the one of the timer effect,
    and the one that closes the socket. *)
Definition unmount (w : World) : World :=
  let w := timer_cleanup w in
  match websocketRef w with
  | Some wid => with_sockets (alter ws_close wid (sockets w)) w
  | None => w
  end.

(** *** Further predicates on worlds *)

(** While recording, the interval that [timerIntervalRef] names runs. *)
Definition timer_runs_while_recording (w : World) : Prop :=
  isRecording (st w) = true ->
  exists id, timerIntervalRef w = Some id /\ intervals w !! id = Some true.

(** While recording there are a recorder and a source; otherwise there is
    no source. *)
Definition recording_has_recorder (w : World) : Prop :=
  (isRecording (st w) = true ->
   (exists rid, mediaRecorderRef w = Some rid /\ rid < length (recorders w)) /\
   recordingType (st w) <> None) /\
  (isRecording (st w) = false -> recordingType (st w) = None).

(** The preview URL names a blob that has not been revoked: the blob made
    of the chunks in the state. *)
Definition preview_is_artifact (isTypeSupported : string -> bool)
    (w : World) : Prop :=
  forall u,
    previewUrl (st w) = Some u ->
    urls w !! u =
    Some (Some (new_Blob (recordedChunks (st w)) (getMimeType isTypeSupported))).

(** The chunk is in the buffer of some recorder. *)
Definition is_buffered (c : Blob) (w : World) : Prop :=
  exists rid r, recorders w !! rid = Some r /\ c ∈ chunks r.

(** Whatever waits to be sent, and whatever went out on a socket, is a
    buffered chunk. *)
Definition sent_was_buffered (w : World) : Prop :=
  (forall i data, buffer_reads w !! i = Some (Some data) -> is_buffered data w) /\
  (forall wid ws msg,
     sockets w !! wid = Some ws -> msg ∈ ws_sent ws ->
     exists c, is_buffered c w /\ msg = blob_bytes c).

(** The URLs that have not been revoked. *)
Definition live_urls (w : World) : list Blob := omap id (urls w).

(** *** [formatTime] *)

Definition pad (num : nat) : string := padStart 2 "0" (toString num).

Definition formatTime (seconds : nat) : string :=
  let hours := seconds / 3600 in
  let minutes := (seconds mod 3600) / 60 in
  let remainingSeconds := seconds mod 60 in
  if (0 <? hours)%nat then
    pad hours ++ ":" ++ pad minutes ++ ":" ++ pad remainingSeconds
  else
    pad minutes ++ ":" ++ pad remainingSeconds.

(** A finished recording of three chunks, with its preview shown. *)
Definition preview_world : World :=
  match run supports_all three_ticks mounted with
  | Some w => w
  | None => mounted
  end.

(** A recording in progress with two chunks buffered and sent and two
    seconds on the clock. *)
Definition two_seconds : list Event :=
  (start_camera ++
   [DataAvailable 0 c1; BufferRead 0; IntervalFired 0;
    DataAvailable 0 c2; BufferRead 1; IntervalFired 0])%list.

Definition ticking_world : World :=
  match run supports_all two_seconds mounted with
  | Some w => w
  | None => mounted
  end.

(** Stop clicked after one chunk; the recorder's stop event has not fired
    yet. *)
Definition stop_clicked : list Event :=
  (start_camera ++ [DataAvailable 0 c1; ClickStop])%list.

(** Start clicked again after stop, before the recorder's stop event; the
    second request is granted. *)
Definition restart_before_stop_event : list Event :=
  (start_camera ++ [ClickStop; ClickStart Webcam; MediaGranted 1 camera])%list.

End App.

Module ImprovedVideoChat.

(** The state variables of the component that the capture code touches
    (the editor's [code], [language], [output], [error] and [isExecuting]
    are not read or written by it). *)
Record State := mkState {
  isRecording : bool;
  recordingTime : nat;
  isMuted : bool;
  streamError : option string
}.

Record VideoElement := mkVideoElement {
  srcObject : option nat;
  muted : bool
}.

Record World := mkWorld {
  st : State;
  videoRef : option VideoElement;
  timerRef : option nat;
  streamRef : option nat;
  streams : list MediaStream;
  intervals : list bool;
  media_requests : list bool;
  console : list (string * Rejection)
}.

Definition with_st (f : State -> State) (w : World) : World :=
  mkWorld (f (st w)) (videoRef w) (timerRef w) (streamRef w) (streams w)
    (intervals w) (media_requests w) (console w).

Definition with_videoRef (x : option VideoElement) (w : World) : World :=
  mkWorld (st w) x (timerRef w) (streamRef w) (streams w)
    (intervals w) (media_requests w) (console w).

Definition with_timerRef (x : option nat) (w : World) : World :=
  mkWorld (st w) (videoRef w) x (streamRef w) (streams w)
    (intervals w) (media_requests w) (console w).

Definition with_streamRef (x : option nat) (w : World) : World :=
  mkWorld (st w) (videoRef w) (timerRef w) x (streams w)
    (intervals w) (media_requests w) (console w).

Definition with_streams (x : list MediaStream) (w : World) : World :=
  mkWorld (st w) (videoRef w) (timerRef w) (streamRef w) x
    (intervals w) (media_requests w) (console w).

Definition with_intervals (x : list bool) (w : World) : World :=
  mkWorld (st w) (videoRef w) (timerRef w) (streamRef w) (streams w)
    x (media_requests w) (console w).

Definition with_media_requests (x : list bool) (w : World) : World :=
  mkWorld (st w) (videoRef w) (timerRef w) (streamRef w) (streams w)
    (intervals w) x (console w).

Definition console_error (text : string) (err : Rejection) (w : World)
  : World :=
  mkWorld (st w) (videoRef w) (timerRef w) (streamRef w) (streams w)
    (intervals w) (media_requests w) (console w ++ [(text, err)]).

Definition setIsRecording (b : bool) : World -> World :=
  with_st (fun s => mkState b (recordingTime s) (isMuted s) (streamError s)).

Definition setRecordingTime (f : nat -> nat) : World -> World :=
  with_st (fun s => mkState (isRecording s) (f (recordingTime s)) (isMuted s)
                      (streamError s)).

Definition setIsMuted (b : bool) : World -> World :=
  with_st (fun s => mkState (isRecording s) (recordingTime s) b (streamError s)).

Definition setStreamError (e : option string) : World -> World :=
  with_st (fun s => mkState (isRecording s) (recordingTime s) (isMuted s) e).

(** [stopMediaTracks] *)
Definition stopMediaTracks (w : World) : World :=
  match streamRef w with
  | Some sid =>
      let w := with_streams (alter stop_all_tracks sid (streams w)) w in
      with_streamRef None w
  | None => w
  end.

(** [toggleMute]: [isMuted] is the value of the render the click came
    from. *)
Definition toggleMute (env : State) (w : World) : World :=
  let w := match streamRef w with
           | Some sid =>
               with_streams
                 (alter (set_audio_enabled (isMuted env)) sid (streams w)) w
           | None => w
           end in
  setIsMuted (negb (isMuted env)) w.

(** [startRecording] up to its [await], then the two ways the promise of
    [getUserMedia] settles. *)
Definition startRecording_begin (w : World) : World :=
  let w := setStreamError None w in
  with_media_requests (media_requests w ++ [true]) w.

Definition startRecording_granted (stream : MediaStream) (w : World)
  : World :=
  let sid := length (streams w) in
  let w := with_streams (streams w ++ [stream]) w in
  let w := with_streamRef (Some sid) w in
  let w := match videoRef w with
           | Some v => with_videoRef (Some (mkVideoElement (Some sid) true)) w
           | None => w
           end in
  setIsRecording true w.

Definition startRecording_denied (err : Rejection) (w : World) : World :=
  let w := console_error "Error accessing camera:" err w in
  setStreamError
    (Some match err with
          | ErrorObject message => message
          | OtherValue _ => "Failed to access camera"
          end) w.

(** [stopRecording] *)
Definition stopRecording (w : World) : World :=
  let w := stopMediaTracks w in
  let w := match videoRef w with
           | Some v => with_videoRef (Some (mkVideoElement None (muted v))) w
           | None => w
           end in
  let w := setIsRecording false w in
  let w := setRecordingTime (fun _ => 0) w in
  setIsMuted false w.

(** The timer effect, [useEffect(..., [isRecording])], its clean-up, and
    the re-render after a handler that started from [before]. *)
Definition timer_cleanup (w : World) : World :=
  match timerRef w with
  | Some id => with_intervals (<[id := false]> (intervals w)) w
  | None => w
  end.

Definition timer_effect (w : World) : World :=
  if isRecording (st w) then
    let id := length (intervals w) in
    with_timerRef (Some id) (with_intervals (intervals w ++ [true]) w)
  else timer_cleanup w.

Definition commit (before : bool) (w : World) : World :=
  if Bool.eqb before (isRecording (st w)) then w
  else timer_effect (timer_cleanup w).

(** The clean-up of the mount effect, run when the component unmounts. *)
Definition unmount (w : World) : World :=
  timer_cleanup (stopMediaTracks w).

(** What the overlay of the video shows: the error's text, while not
    recording and an error is set. *)
Definition shown_error (s : State) : option string :=
  if isRecording s then None else streamError s.

(** A track or an interval the component still holds. *)
Definition holds_track (w : World) : bool :=
  match streamRef w with
  | Some sid =>
      match streams w !! sid with
      | Some s => existsb live s
      | None => false
      end
  | None => false
  end.

Definition holds_timer (w : World) : bool := existsb id (intervals w).

(** [formatTime] *)
Definition formatTime (seconds : nat) : string :=
  let mins := padStart 2 "0" (toString (seconds / 60)) in
  let secs := padStart 2 "0" (toString (seconds mod 60)) in
  mins ++ ":" ++ secs.

(** The component after mounting, and with a camera session running. *)
Definition mounted : World :=
  mkWorld (mkState false 0 false None) (Some (mkVideoElement None false))
    None None [] [] [] [].

Definition session_world : World :=
  startRecording_granted (fresh_stream [Audio; Video])
    (startRecording_begin mounted).

End ImprovedVideoChat.

Module VideoChat.

Inductive Sender := user | assistant | system.

Record Message := mkMessage {
  sender : Sender;
  text : string;
  timestamp : option nat
}.

Record State := mkState {
  isRecording : bool;
  recordingTime : nat;
  isMuted : bool;
  isLoading : bool;
  messages : list Message
}.

Record World := mkWorld {
  st : State;
  streamRef : option nat;
  streams : list MediaStream
}.

Definition setIsMuted (b : bool) (w : World) : World :=
  mkWorld
    (mkState (isRecording (st w)) (recordingTime (st w)) b (isLoading (st w))
       (messages (st w)))
    (streamRef w) (streams w).

(** [toggleMute]: here the state is flipped only when there is a stream. *)
Definition toggleMute (env : State) (w : World) : World :=
  match streamRef w with
  | Some sid =>
      let w := mkWorld (st w) (streamRef w)
                 (alter (set_audio_enabled (isMuted env)) sid (streams w)) in
      setIsMuted (negb (isMuted env)) w
  | None => w
  end.

(** [formatTime] *)
Definition formatTime (seconds : nat) : string :=
  let mins := padStart 2 "0" (toString (seconds / 60)) in
  let secs := padStart 2 "0" (toString (seconds mod 60)) in
  mins ++ ":" ++ secs.

(** A camera session in progress. *)
Definition session_world : World :=
  mkWorld (mkState true 0 false false []) (Some 0)
    [fresh_stream [Audio; Video]].

End VideoChat.

(** * The camera session of ImprovedVideoChat as a transition system *)

Module ImprovedVideoChatSession.
Import ImprovedVideoChat.

(** The callback of the interval: [setRecordingTime(prev => prev + 1)]. *)
Definition timer_tick (w : World) : World :=
  setRecordingTime (fun prev => prev + 1) w.

(** The video element is rendered with the prop [muted={isMuted}]: the
    re-render after a handler writes the prop to the element when its
    value is not the one of the render before ([before]); a prop that has
    not changed is not written, so what [startRecording] assigned to
    [muted] stays until [isMuted] changes. *)
Definition write_muted (before : bool) (w : World) : World :=
  if Bool.eqb before (isMuted (st w)) then w
  else match videoRef w with
       | Some v =>
           with_videoRef
             (Some (mkVideoElement (srcObject v) (isMuted (st w)))) w
       | None => w
       end.

(** The one button is start or stop ([isRecording ? stopRecording :
    startRecording]); the mute button exists while recording.  The
    handlers that can change [isRecording] are followed by [commit], the
    ones that can change [isMuted] by [write_muted]. *)
Inductive Event :=
| ClickStartStop
| MediaGranted (i : nat) (tracks : list TrackKind)
| MediaDenied (i : nat) (err : Rejection)
| ClickMute
| IntervalFired (id : nat).

Definition step (e : Event) (w : World) : option World :=
  let env := st w in
  match e with
  | ClickStartStop =>
      if isRecording env
      then Some (write_muted (isMuted env)
                   (commit (isRecording env) (stopRecording w)))
      else Some (startRecording_begin w)
  | MediaGranted i tracks =>
      match media_requests w !! i with
      | Some true =>
          let w := with_media_requests (<[i := false]> (media_requests w)) w in
          Some (commit (isRecording env)
                  (startRecording_granted (fresh_stream tracks) w))
      | _ => None
      end
  | MediaDenied i err =>
      match media_requests w !! i with
      | Some true =>
          let w := with_media_requests (<[i := false]> (media_requests w)) w in
          Some (startRecording_denied err w)
      | _ => None
      end
  | ClickMute =>
      if isRecording env
      then Some (write_muted (isMuted env) (toggleMute env w))
      else None
  | IntervalFired id =>
      match intervals w !! id with
      | Some true => Some (timer_tick w)
      | _ => None
      end
  end.

Fixpoint run (es : list Event) (w : World) : option World :=
  match es with
  | [] => Some w
  | e :: rest =>
      match step e w with
      | Some w' => run rest w'
      | None => None
      end
  end.

Definition reachable (w : World) : Prop :=
  exists es, run es mounted = Some w.

(** Not recording means: not muted, clock at zero, no stream referenced,
    no interval running; and an interval that runs is the one [timerRef]
    names. *)
Definition idle_is_clean (w : World) : Prop :=
  (isRecording (st w) = false ->
   isMuted (st w) = false /\ recordingTime (st w) = 0 /\
   streamRef w = None /\
   forall id, intervals w !! id = Some true -> False) /\
  (forall id, intervals w !! id = Some true -> timerRef w = Some id).

(** Start, permission granted, two ticks of the clock. *)
Definition camera_session : list Event :=
  [ClickStartStop; MediaGranted 0 [Audio; Video];
   IntervalFired 0; IntervalFired 0].

Definition recording_world : World :=
  match run camera_session mounted with
  | Some w => w
  | None => mounted
  end.

(** Start clicked twice before the prompt is answered; the first request
    is granted, the microphone muted, then the second request is
    granted. *)
Definition double_start_muted : list Event :=
  [ClickStartStop; ClickStartStop; MediaGranted 0 [Audio; Video];
   ClickMute; MediaGranted 1 [Audio; Video]].

End ImprovedVideoChatSession.

(** * The camera session of VideoChat *)

Module VideoChatSession.

(** Of the video element only [srcObject] is kept: no handler of this page
    assigns or reads its [muted] flag, which the re-render writes from
    the prop [muted={isMuted}]. *)
Record VideoElement := mkVideoElement {
  srcObject : option nat
}.

(** [vc] is the part [toggleMute] works on: state, stream ref, streams. *)
Record World := mkWorld {
  vc : VideoChat.World;
  videoRef : option VideoElement;
  timerRef : option nat;
  intervals : list bool;
  media_requests : list bool;
  console : list (string * Rejection)
}.

Definition st (w : World) : VideoChat.State := VideoChat.st (vc w).
Definition streamRef (w : World) : option nat := VideoChat.streamRef (vc w).
Definition streams (w : World) : list MediaStream := VideoChat.streams (vc w).

Definition with_vc (x : VideoChat.World) (w : World) : World :=
  mkWorld x (videoRef w) (timerRef w) (intervals w) (media_requests w)
    (console w).

Definition with_st (f : VideoChat.State -> VideoChat.State) (w : World)
  : World :=
  with_vc (VideoChat.mkWorld (f (st w)) (streamRef w) (streams w)) w.

Definition with_streamRef (x : option nat) (w : World) : World :=
  with_vc (VideoChat.mkWorld (st w) x (streams w)) w.

Definition with_streams (x : list MediaStream) (w : World) : World :=
  with_vc (VideoChat.mkWorld (st w) (streamRef w) x) w.

Definition with_videoRef (x : option VideoElement) (w : World) : World :=
  mkWorld (vc w) x (timerRef w) (intervals w) (media_requests w) (console w).

Definition with_timerRef (x : option nat) (w : World) : World :=
  mkWorld (vc w) (videoRef w) x (intervals w) (media_requests w) (console w).

Definition with_intervals (x : list bool) (w : World) : World :=
  mkWorld (vc w) (videoRef w) (timerRef w) x (media_requests w) (console w).

Definition with_media_requests (x : list bool) (w : World) : World :=
  mkWorld (vc w) (videoRef w) (timerRef w) (intervals w) x (console w).

Definition console_error (text : string) (err : Rejection) (w : World)
  : World :=
  mkWorld (vc w) (videoRef w) (timerRef w) (intervals w) (media_requests w)
    (console w ++ [(text, err)]).

Definition setIsRecording (b : bool) : World -> World :=
  with_st (fun s => VideoChat.mkState b (VideoChat.recordingTime s)
                      (VideoChat.isMuted s) (VideoChat.isLoading s)
                      (VideoChat.messages s)).

Definition setRecordingTime (f : nat -> nat) : World -> World :=
  with_st (fun s => VideoChat.mkState (VideoChat.isRecording s)
                      (f (VideoChat.recordingTime s))
                      (VideoChat.isMuted s) (VideoChat.isLoading s)
                      (VideoChat.messages s)).

Definition setIsMuted (b : bool) : World -> World :=
  with_st (fun s => VideoChat.mkState (VideoChat.isRecording s)
                      (VideoChat.recordingTime s) b (VideoChat.isLoading s)
                      (VideoChat.messages s)).

Definition setIsLoading (b : bool) : World -> World :=
  with_st (fun s => VideoChat.mkState (VideoChat.isRecording s)
                      (VideoChat.recordingTime s) (VideoChat.isMuted s) b
                      (VideoChat.messages s)).

(** [setMessages(prev => [...prev, m])] *)
Definition addMessage (m : VideoChat.Message) : World -> World :=
  with_st (fun s => VideoChat.mkState (VideoChat.isRecording s)
                      (VideoChat.recordingTime s) (VideoChat.isMuted s)
                      (VideoChat.isLoading s)
                      (VideoChat.messages s ++ [m])).

Definition system_message (text : string) (now : nat) : VideoChat.Message :=
  VideoChat.mkMessage VideoChat.system text (Some now).

(** [err instanceof Error ? err.message : String(err)] *)
Definition error_text (err : Rejection) : string :=
  match err with
  | ErrorObject message => message
  | OtherValue text => text
  end.

(** [toggleMute], on the part of the world it works on. *)
Definition toggleMute (env : VideoChat.State) (w : World) : World :=
  with_vc (VideoChat.toggleMute env (vc w)) w.

(** [startWebcam] up to its [await], and the two ways the promise of
    [getUserMedia] settles; [now] is [new Date()]. *)
Definition startWebcam_begin (w : World) : World :=
  let w := setIsLoading true w in
  with_media_requests (media_requests w ++ [true]) w.

Definition startWebcam_granted (stream : MediaStream) (now : nat) (w : World)
  : World :=
  let sid := length (streams w) in
  let w := with_streams (streams w ++ [stream]) w in
  let w := with_streamRef (Some sid) w in
  let w := match videoRef w with
           | Some v => with_videoRef (Some (mkVideoElement (Some sid))) w
           | None => w
           end in
  let w := setIsRecording true w in
  let w := setIsLoading false w in
  addMessage (system_message "Recording started." now) w.

Definition startWebcam_denied (err : Rejection) (now : nat) (w : World)
  : World :=
  let w := console_error "Error accessing webcam:" err w in
  let w := setIsLoading false w in
  addMessage
    (system_message ("Error accessing webcam: " ++ error_text err) now) w.

(** [stopWebcam] *)
Definition stopWebcam (now : nat) (w : World) : World :=
  let w := match streamRef w with
           | Some sid =>
               let w := with_streams (alter stop_all_tracks sid (streams w)) w in
               with_streamRef None w
           | None => w
           end in
  let w := match videoRef w with
           | Some v => with_videoRef (Some (mkVideoElement None)) w
           | None => w
           end in
  let w := setIsRecording false w in
  let w := setRecordingTime (fun _ => 0) w in
  let w := setIsMuted false w in
  addMessage (system_message "Recording stopped." now) w.

(** The timer effect, its clean-up and the re-render after a handler. *)
Definition timer_cleanup (w : World) : World :=
  match timerRef w with
  | Some id => with_intervals (<[id := false]> (intervals w)) w
  | None => w
  end.

Definition timer_effect (w : World) : World :=
  if VideoChat.isRecording (st w) then
    let id := length (intervals w) in
    with_timerRef (Some id) (with_intervals (intervals w ++ [true]) w)
  else timer_cleanup w.

Definition commit (before : bool) (w : World) : World :=
  if Bool.eqb before (VideoChat.isRecording (st w)) then w
  else timer_effect (timer_cleanup w).

Definition timer_tick (w : World) : World :=
  setRecordingTime (fun prev => prev + 1) w.

(** The clean-up of the mount effect stops the tracks of the stream the
    ref names (and leaves the ref); the clean-up of the timer effect
    clears the interval. *)
Definition unmount (w : World) : World :=
  let w := match streamRef w with
           | Some sid => with_streams (alter stop_all_tracks sid (streams w)) w
           | None => w
           end in
  timer_cleanup w.

(** The three messages the log starts with. *)
Definition initial_messages (now : nat) : list VideoChat.Message :=
  [ VideoChat.mkMessage VideoChat.system "Welcome to the coding session!"
      (Some now);
    VideoChat.mkMessage VideoChat.user "I need help with my React component."
      (Some now);
    VideoChat.mkMessage VideoChat.assistant
      "I'd be happy to help with your React component. What specific issue are you having?"
      (Some now) ].

Definition mounted (now : nat) : World :=
  mkWorld
    (VideoChat.mkWorld
       (VideoChat.mkState false 0 false false (initial_messages now))
       None [])
    (Some (mkVideoElement None)) None [] [] [].

(** The one button is start or stop and is disabled while loading; the
    mute button exists while recording. *)
Inductive Event :=
| ClickStartStop (now : nat)
| MediaGranted (i : nat) (tracks : list TrackKind) (now : nat)
| MediaDenied (i : nat) (err : Rejection) (now : nat)
| ClickMute
| IntervalFired (id : nat).

Definition step (e : Event) (w : World) : option World :=
  let env := st w in
  match e with
  | ClickStartStop now =>
      if VideoChat.isLoading env then None
      else if VideoChat.isRecording env
      then Some (commit (VideoChat.isRecording env) (stopWebcam now w))
      else Some (startWebcam_begin w)
  | MediaGranted i tracks now =>
      match media_requests w !! i with
      | Some true =>
          let w := with_media_requests (<[i := false]> (media_requests w)) w in
          Some (commit (VideoChat.isRecording env)
                  (startWebcam_granted (fresh_stream tracks) now w))
      | _ => None
      end
  | MediaDenied i err now =>
      match media_requests w !! i with
      | Some true =>
          let w := with_media_requests (<[i := false]> (media_requests w)) w in
          Some (startWebcam_denied err now w)
      | _ => None
      end
  | ClickMute =>
      if VideoChat.isRecording env then Some (toggleMute env w) else None
  | IntervalFired id =>
      match intervals w !! id with
      | Some true => Some (timer_tick w)
      | _ => None
      end
  end.

Fixpoint run (es : list Event) (w : World) : option World :=
  match es with
  | [] => Some w
  | e :: rest =>
      match step e w with
      | Some w' => run rest w'
      | None => None
      end
  end.

Definition reachable (w : World) : Prop :=
  exists now es, run es (mounted now) = Some w.

(** The messages with a given text. *)
Definition count_text (t : string) (ms : list VideoChat.Message) : nat :=
  length (List.filter (fun m => String.eqb (VideoChat.text m) t) ms).

(** One request at most, and only while loading; loading and recording
    exclude each other; a stream with a live track is the one the ref
    names, and there is none unless recording. *)
Definition one_session (w : World) : Prop :=
  (VideoChat.isLoading (st w) = true -> VideoChat.isRecording (st w) = false) /\
  (forall i, media_requests w !! i = Some true ->
     VideoChat.isLoading (st w) = true /\
     forall j, media_requests w !! j = Some true -> i = j) /\
  (VideoChat.isRecording (st w) = false -> streamRef w = None) /\
  (forall i s, streams w !! i = Some s -> existsb live s = true ->
     streamRef w = Some i /\ VideoChat.isRecording (st w) = true).

(** The log has one "started" more than "stopped" exactly while
    recording. *)
Definition log_balanced (w : World) : Prop :=
  count_text "Recording started." (VideoChat.messages (st w)) =
  count_text "Recording stopped." (VideoChat.messages (st w)) +
  (if VideoChat.isRecording (st w) then 1 else 0).

(** Not recording means: not muted, clock at zero, no interval running;
    and an interval that runs is the one [timerRef] names. *)
Definition idle_is_clean (w : World) : Prop :=
  (VideoChat.isRecording (st w) = false ->
   VideoChat.isMuted (st w) = false /\ VideoChat.recordingTime (st w) = 0 /\
   forall id, intervals w !! id = Some true -> False) /\
  (forall id, intervals w !! id = Some true -> timerRef w = Some id).

(** The audio tracks of the referenced stream are enabled exactly when
    the page is not muted. *)
Definition audio_in_step (w : World) : Prop :=
  forall sid s t,
    streamRef w = Some sid -> streams w !! sid = Some s -> t ∈ s ->
    kind t = Audio -> enabled t = negb (VideoChat.isMuted (st w)).

(** Start at time 0, permission granted at time 1, two ticks of the
    clock; and the same session stopped at time 3. *)
Definition camera_session : list Event :=
  [ClickStartStop 0; MediaGranted 0 [Audio; Video] 1;
   IntervalFired 0; IntervalFired 0].

Definition recording_world : World :=
  match run camera_session (mounted 0) with
  | Some w => w
  | None => mounted 0
  end.

Definition stopped_world : World :=
  match run (camera_session ++ [ClickStartStop 3])%list (mounted 0) with
  | Some w => w
  | None => mounted 0
  end.

End VideoChatSession.


(** * The code editor of the session page

    [EnhancedCodeEditor] with the states of [ImprovedVideoChat] its
    callbacks set ([onChange={setCode}], [onLanguageChange={setLanguage}],
    [onExecuteComplete={handleExecutionComplete}]).  [languageOptions]
    and [executeCode] come from [../utils/language]: the options are the
    section's variables (a first one and the rest, since the page reads
    [languageOptions[0]]), and [executeCode] is the promise that the
    events settle.  A string is its sequence of code units. *)
Module EnhancedCodeEditor.

Record LanguageOption := mkLanguageOption {
  value : string;
  label : string;
  default : string
}.

(** [s.substring(a, b)] and [s.substring(a)] for indices that are
    naturals: both are clamped to the length and swapped if needed. *)
Definition substring (a b : nat) (s : string) : string :=
  let a := Nat.min a (String.length s) in
  let b := Nat.min b (String.length s) in
  String.substring (Nat.min a b) (Nat.max a b - Nat.min a b) s.

Definition substring_from (a : nat) (s : string) : string :=
  substring a (String.length s) s.

(** A string as a condition: [''] is false. *)
Definition truthy (s : string) : bool :=
  match s with
  | EmptyString => false
  | String _ _ => true
  end.

Definition truthy_opt (o : option string) : bool :=
  match o with
  | Some s => truthy s
  | None => false
  end.

(** The state of the editor ([highlighted] is what Prism returns for
    [code] and [language] and is left out). *)
Record State := mkState {
  language : string;
  code : string;
  isExecuting : bool
}.

(** The states of the page the editor's callbacks set. *)
Record Parent := mkParent {
  p_code : string;
  p_language : string;
  output : option string;
  error : option string;
  p_isExecuting : bool
}.

(** A call of [executeCode(language, code)] and whether it is pending. *)
Record Execution := mkExecution {
  ex_language : string;
  ex_code : string;
  pending : bool
}.

(** [timeouts] holds the cursor positions the callbacks of
    [setTimeout(..., 0)] will set. *)
Record World := mkWorld {
  st : State;
  parent : Parent;
  executions : list Execution;
  timeouts : list nat;
  console : list (string * Rejection)
}.

Definition with_st (f : State -> State) (w : World) : World :=
  mkWorld (f (st w)) (parent w) (executions w) (timeouts w) (console w).

Definition with_parent (f : Parent -> Parent) (w : World) : World :=
  mkWorld (st w) (f (parent w)) (executions w) (timeouts w) (console w).

Definition with_executions (x : list Execution) (w : World) : World :=
  mkWorld (st w) (parent w) x (timeouts w) (console w).

Definition setTimeout (position : nat) (w : World) : World :=
  mkWorld (st w) (parent w) (executions w) (timeouts w ++ [position])
    (console w).

Definition console_error (text : string) (err : Rejection) (w : World)
  : World :=
  mkWorld (st w) (parent w) (executions w) (timeouts w)
    (console w ++ [(text, err)]).

Definition setLanguage (x : string) : World -> World :=
  with_st (fun s => mkState x (code s) (isExecuting s)).

Definition setCode (x : string) : World -> World :=
  with_st (fun s => mkState (language s) x (isExecuting s)).

Definition setIsExecuting (b : bool) : World -> World :=
  with_st (fun s => mkState (language s) (code s) b).

(** The props: [onChange={setCode}], [onLanguageChange={setLanguage}]. *)
Definition onChange (x : string) : World -> World :=
  with_parent (fun p => mkParent x (p_language p) (output p) (error p)
                          (p_isExecuting p)).

Definition onLanguageChange (x : string) : World -> World :=
  with_parent (fun p => mkParent (p_code p) x (output p) (error p)
                          (p_isExecuting p)).

(** [handleExecutionComplete] of the page *)
Definition handleExecutionComplete (result errorMsg : option string)
  : World -> World :=
  with_parent (fun p => mkParent (p_code p) (p_language p) result errorMsg
                          false).

(** The four lines of the output panel and the two of the log. *)
Definition shows_running (p : Parent) : bool := p_isExecuting p.

Definition shows_error (p : Parent) : bool := truthy_opt (error p).

Definition shows_output (p : Parent) : bool :=
  negb (p_isExecuting p) && negb (truthy_opt (error p)) &&
  truthy_opt (output p).

Definition shows_hint (p : Parent) : bool :=
  negb (p_isExecuting p) && negb (truthy_opt (error p)) &&
  negb (truthy_opt (output p)).

(** The text [handleTab] builds: two spaces in place of the selection. *)
Definition tab_text (start end_ : nat) (code : string) : string :=
  substring 0 start code ++ "  " ++ substring_from end_ code.

Section Options.

Variable first : LanguageOption.
Variable rest : list LanguageOption.

Definition languageOptions : list LanguageOption := first :: rest.

(** [languageOptions.find(lang => lang.value === v)] *)
Definition find_language (v : string) : option LanguageOption :=
  List.find (fun lang => String.eqb (value lang) v) languageOptions.

(** [languageOptions.find(...) || languageOptions[0]], computed by every
    render from the prop [initialLanguage]. *)
Definition defaultLanguageOption (initialLanguage : string)
  : LanguageOption :=
  match find_language initialLanguage with
  | Some lang => lang
  | None => first
  end.

(** The handlers; [env] and [props] are the editor's state and the page's
    state of the render the handler belongs to. *)
Definition handleLanguageChange (env : State) (props : Parent)
    (newLanguage : string) (w : World) : World :=
  let languageOption := find_language newLanguage in
  let w := setLanguage newLanguage w in
  let w :=
    if negb (truthy (code env)) ||
       String.eqb (code env)
         (default (defaultLanguageOption (p_language props)))
    then
      let newDefaultCode :=
        match languageOption with
        | Some lang => if truthy (default lang) then default lang else ""
        | None => ""
        end in
      onChange newDefaultCode (setCode newDefaultCode w)
    else w in
  onLanguageChange newLanguage w.

Definition handleChange (newCode : string) (w : World) : World :=
  onChange newCode (setCode newCode w).

Definition handleTab (env : State) (key : string) (start end_ : nat)
    (w : World) : World :=
  if String.eqb key "Tab" then
    let newCode := tab_text start end_ (code env) in
    let w := setCode newCode w in
    let w := setTimeout (start + 2) w in
    onChange newCode w
  else w.

(** [runCode] up to its [await], and the two ways the promise of
    [executeCode] settles; [finally] runs after both. *)
Definition runCode_begin (env : State) (w : World) : World :=
  let w := setIsExecuting true w in
  with_executions
    (executions w ++ [mkExecution (language env) (code env) true]) w.

Definition runCode_resolved (result : option string) (w : World) : World :=
  let w := handleExecutionComplete result None w in
  setIsExecuting false w.

Definition runCode_rejected (err : Rejection) (w : World) : World :=
  let w := console_error "Execution error:" err w in
  let w := handleExecutionComplete None
             (Some (VideoChatSession.error_text err)) w in
  setIsExecuting false w.

(** The page mounts with the first option; the editor with the page's
    code and language as [initialCode] and [initialLanguage]. *)
Definition mounted : World :=
  let p := mkParent (default first) (value first) None None false in
  let option := defaultLanguageOption (p_language p) in
  mkWorld
    (mkState (value option)
       (if truthy (p_code p) then p_code p else default option)
       false)
    p [] [] [].

(** The select offers the options ([Select i] picks the one at index [i];
    picking the one that is shown is included, although the browser
    reports no change then), the textarea takes input and key presses,
    the run button is disabled while [isExecuting]. *)
Inductive Event :=
| Select (i : nat)
| Input (newCode : string)
| KeyDown (key : string) (start end_ : nat)
| ClickRun
| ExecutionResolved (i : nat) (result : option string)
| ExecutionRejected (i : nat) (err : Rejection).

Definition settle (i : nat) (w : World) : World :=
  with_executions
    (alter (fun x => mkExecution (ex_language x) (ex_code x) false) i
       (executions w)) w.

Definition step (e : Event) (w : World) : option World :=
  let env := st w in
  let props := parent w in
  match e with
  | Select i =>
      match languageOptions !! i with
      | Some lang => Some (handleLanguageChange env props (value lang) w)
      | None => None
      end
  | Input newCode => Some (handleChange newCode w)
  | KeyDown key start end_ => Some (handleTab env key start end_ w)
  | ClickRun =>
      if isExecuting env then None else Some (runCode_begin env w)
  | ExecutionResolved i result =>
      match pending <$> executions w !! i with
      | Some true => Some (runCode_resolved result (settle i w))
      | _ => None
      end
  | ExecutionRejected i err =>
      match pending <$> executions w !! i with
      | Some true => Some (runCode_rejected err (settle i w))
      | _ => None
      end
  end.

Fixpoint run (es : list Event) (w : World) : option World :=
  match es with
  | [] => Some w
  | e :: rest =>
      match step e w with
      | Some w' => run rest w'
      | None => None
      end
  end.

Definition reachable (w : World) : Prop :=
  exists es, run es mounted = Some w.

(** The editor and the page hold the same code and language, and the
    language is one of the options. *)
Definition in_step (w : World) : Prop :=
  code (st w) = p_code (parent w) /\
  language (st w) = p_language (parent w) /\
  value (defaultLanguageOption (language (st w))) = language (st w).

(** The code is the one the language came with. *)
Definition untouched (w : World) : Prop :=
  code (st w) = default (defaultLanguageOption (language (st w))).

(** One execution at most, and exactly while [isExecuting]. *)
Definition one_execution (w : World) : Prop :=
  (forall i x, executions w !! i = Some x -> pending x = true ->
     isExecuting (st w) = true /\
     forall j y, executions w !! j = Some y -> pending y = true -> i = j) /\
  (isExecuting (st w) = true ->
   exists i x, executions w !! i = Some x /\ pending x = true).

End Options.

(** Two options and a page to run the statements on: some text typed, a
    Tab at the start, Python selected, the code run. *)
Definition javascript : LanguageOption :=
  mkLanguageOption "javascript" "JavaScript" "console.log(1);".

Definition python : LanguageOption :=
  mkLanguageOption "python" "Python" "print(1)".

Definition editing : list Event :=
  [Input "x = 1"; KeyDown "Tab" 0 0; Select 1; ClickRun].

Definition edited_world : World :=
  match run javascript [python] editing (mounted javascript [python]) with
  | Some w => w
  | None => mounted javascript [python]
  end.

(** The same page after the execution has failed. *)
Definition finished_world : World :=
  match run javascript [python]
          (editing ++ [ExecutionRejected 0 (ErrorObject "boom")])%list
          (mounted javascript [python]) with
  | Some w => w
  | None => mounted javascript [python]
  end.

(** The page as mounted with Python selected and nothing typed. *)
Definition python_world : World :=
  match run javascript [python] [Select 1] (mounted javascript [python]) with
  | Some w => w
  | None => mounted javascript [python]
  end.

End EnhancedCodeEditor.

(** * Properties of the recorder component *)

Module AppSpec.
Import App.

Section Negotiation.

Variable isTypeSupported : string -> bool.

(** The loop returns the first entry the platform supports, and the
    default when it supports none. *)
Lemma first_supported_spec (ts : list string) (default : string) :
  (exists i,
      ts !! i = Some (first_supported isTypeSupported ts default) /\
      isTypeSupported (first_supported isTypeSupported ts default) = true /\
      forall j t, j < i -> ts !! j = Some t -> isTypeSupported t = false)
  \/ (first_supported isTypeSupported ts default = default /\
      forall t, t ∈ ts -> isTypeSupported t = false).
Proof.
  induction ts as [|t rest IH]; simpl.
  - right. split; [reflexivity|]. intros t Ht. inversion Ht.
  - destruct (isTypeSupported t) eqn:Ht.
    + left. exists 0. repeat split; auto. intros j t' Hj. lia.
    + destruct IH as [(i & Hi & Hs & Hbefore) | [Hd Hnone]].
      * left. exists (S i). repeat split; auto.
        intros [|j] t' Hj Hl; simpl in Hl.
        -- congruence.
        -- apply (Hbefore j); [lia | exact Hl].
      * right. split; [exact Hd|].
        intros t' Hin. apply elem_of_cons in Hin as [-> | Hin]; auto.
Qed.

(** C5.  [getMimeType] returns the first profile of the preference list
    [types] that [MediaRecorder.isTypeSupported] accepts (every profile
    before it in the list is refused), and returns the generic default
    ["video/webm"] when no listed profile is accepted. *)
Theorem getMimeType_first_supported_or_default :
  (exists i,
      types !! i = Some (getMimeType isTypeSupported) /\
      isTypeSupported (getMimeType isTypeSupported) = true /\
      forall j t, j < i -> types !! j = Some t -> isTypeSupported t = false)
  \/ (getMimeType isTypeSupported = "video/webm" /\
      forall t, t ∈ types -> isTypeSupported t = false).
Proof. apply first_supported_spec. Qed.

End Negotiation.

(** A browser that records VP9 and MP4 but not VP8: the second entry wins
    over the fourth. *)
Example getMimeType_vp9 :
  getMimeType supports_vp9_and_mp4 = "video/webm;codecs=vp9,opus".
Proof. reflexivity. Qed.

Example getMimeType_none :
  getMimeType (fun _ => false) = "video/webm".
Proof. reflexivity. Qed.

(** ** Reachable worlds *)

#[local] Arguments getMimeType : simpl never.

Section Reachability.

Variable isTypeSupported : string -> bool.

Local Abbreviation step := (App.step isTypeSupported).
Local Abbreviation run := (App.run isTypeSupported).
Local Abbreviation reachable := (App.reachable isTypeSupported).

Lemma run_app (es1 es2 : list Event) (w : World) :
  run (es1 ++ es2) w =
  match run es1 w with
  | Some w' => run es2 w'
  | None => None
  end.
Proof.
  revert w. induction es1 as [|e es1 IH]; intros w; simpl; [reflexivity|].
  destruct (step e w); [apply IH | reflexivity].
Qed.

Lemma run_preserves (P : World -> Prop) :
  (forall e w w', P w -> step e w = Some w' -> P w') ->
  forall es w w', P w -> run es w = Some w' -> P w'.
Proof.
  intros Hstep es.
  induction es as [|e es IH]; intros w w' Hw Hrun; simpl in Hrun.
  - congruence.
  - destruct (step e w) as [w1|] eqn:He; [|discriminate].
    eapply IH; [|exact Hrun]. eapply Hstep; eauto.
Qed.

Lemma reachable_invariant (P : World -> Prop) :
  P mounted ->
  (forall e w w', P w -> step e w = Some w' -> P w') ->
  forall w, reachable w -> P w.
Proof.
  intros H0 Hstep w [es Hes]. eapply run_preserves; eauto.
Qed.

Lemma reachable_step e w w' :
  reachable w -> step e w = Some w' -> reachable w'.
Proof.
  intros [es Hes] He. exists (es ++ [e])%list.
  rewrite run_app, Hes. simpl. rewrite He. reflexivity.
Qed.

(** Case analysis on an enabled step, and on the branches of the handler
    it ran. *)
Ltac step_cases H :=
  unfold App.step in H;
  repeat match type of H with
         | context [match ?x with _ => _ end] => destruct x eqn:?
         end;
  try discriminate H;
  injection H as <-.

Ltac unfold_handlers :=
  unfold startRecording_begin, commit, startRecording_granted,
    startRecording_denied, ondataavailable, ondataavailable_resume, onstop,
    stopRecording, downloadRecording, resetRecording, playPreview, ws_onopen,
    ws_onerror, ws_onclose, reconnect_callback, reconnect, timer_tick,
    timer_effect, timer_cleanup, setupWebSocket, play, setInterval,
    clearInterval, createObjectURL, revokeObjectURL, setTimeout.

Ltac case_handlers :=
  unfold_handlers; cbn;
  repeat (match goal with
          | |- context [match ?x with _ => _ end] => destruct x eqn:?
          end; cbn).

Ltac gate H :=
  apply andb_true_iff in H as [? ?];
  repeat match goal with
         | G : negb ?b = true |- _ => apply negb_true_iff in G
         end.

(** *** Stale closures: what the socket handlers see *)

Lemma ws_isRecording_send d ws :
  ws_isRecording (ws_send d ws) = ws_isRecording ws.
Proof. unfold ws_send. destruct (readyState ws); reflexivity. Qed.

Lemma ws_isRecording_close ws :
  ws_isRecording (ws_close ws) = ws_isRecording ws.
Proof. unfold ws_close. destruct (readyState ws); reflexivity. Qed.

Lemma step_closures e w w' :
  closures_see_not_recording w -> step e w = Some w' ->
  closures_see_not_recording w'.
Proof.
  intros [Hs Ht] H. destruct e; step_cases H.
  all: unfold closures_see_not_recording; case_handlers.
  all: try (split; assumption).
  all: try (rewrite Ht in *; rewrite lookup_nil in *; discriminate).
  all: try match goal with
           | G : _ && _ = true |- _ => gate G
           end.
  all: try match goal with
           | L : sockets _ !! _ = Some ?ws, T : ws_isRecording ?ws = true |- _ =>
               apply (Forall_lookup_1 _ _ _ _ Hs) in L; congruence
           end.
  all: split; try assumption.
  all: try (apply Forall_app; split; [assumption|]).
  all: try (apply Forall_alter; [assumption|]; intros ws0 _ Hws0; cbn;
            rewrite ?ws_isRecording_send, ?ws_isRecording_close; exact Hws0).
  all: repeat constructor; cbn; assumption.
Qed.

(** Every socket is created by a [setupWebSocket] of a render in which
    [isRecording] was false: the start buttons exist only in such renders.
    So no close handler ever calls [reconnect], and no timeout is ever
    pending. *)
Lemma reachable_closures w :
  reachable w -> closures_see_not_recording w.
Proof.
  apply reachable_invariant.
  - split; [constructor | reflexivity].
  - apply step_closures.
Qed.

(** What the close handler does with the value it closed over. *)
Lemma ws_onclose_reconnects isRec w :
  timeouts (ws_onclose isRec w) =
  if isRec then (timeouts w ++ [Some (mkTimeout 3000 true)])%list
  else timeouts w.
Proof. destruct isRec; reflexivity. Qed.

Lemma reconnect_callback_opens isRec w :
  websocketRef (reconnect_callback isRec w) = Some (length (sockets w)) /\
  sockets (reconnect_callback isRec w) =
  (sockets w ++ [mkWebSocket "ws://localhost:8000/ws" CONNECTING isRec []])%list.
Proof. split; reflexivity. Qed.

(** *** The timer and the chunk state *)

Lemma timer_view_inv w w' :
  timer_view w' = timer_view w ->
  timer_and_buffer_reset w -> timer_and_buffer_reset w'.
Proof.
  unfold timer_view, timer_and_buffer_reset.
  intros [= -> -> ->]. auto.
Qed.

Lemma lookup_insert_false_true (l : list bool) (i id : nat) :
  <[i := false]> l !! id = Some true -> l !! id = Some true /\ id <> i.
Proof.
  intros H. destruct (decide (i = id)) as [->|Hne].
  - destruct (decide (id < length l)) as [Hlt|Hge].
    + rewrite list_lookup_insert_eq in H by exact Hlt. discriminate.
    + rewrite list_insert_ge in H by lia.
      apply lookup_lt_Some in H. lia.
  - rewrite list_lookup_insert_ne in H by exact Hne. split; [exact H|congruence].
Qed.

(** The re-render after a handler that left the intervals alone. *)
Lemma commit_timer before w :
  (before = false -> forall id, intervals w !! id = Some true -> False) ->
  (forall id, intervals w !! id = Some true -> timerIntervalRef w = Some id) ->
  (isRecording (st w) = before -> before = false ->
   recordingDuration (st w) = 0) ->
  let w' := commit before w in
  isRecording (st w') = isRecording (st w) /\
  previewUrl (st w') = previewUrl (st w) /\
  recordedChunks (st w') = recordedChunks (st w) /\
  (isRecording (st w') = false -> recordingDuration (st w') = 0) /\
  (isRecording (st w') = false ->
     forall id, intervals w' !! id = Some true -> False) /\
  (forall id, intervals w' !! id = Some true -> timerIntervalRef w' = Some id).
Proof.
  intros Hoff Href Hdur. unfold commit.
  destruct (Bool.eqb before (isRecording (st w))) eqn:Heq.
  - apply eqb_prop in Heq. subst before. cbn. repeat split; auto.
  - apply eqb_false_iff in Heq.
    unfold timer_effect, timer_cleanup, setInterval, clearInterval.
    destruct (isRecording (st w)) eqn:Hrec; destruct before; try congruence.
    + (* false -> true *)
      destruct (timerIntervalRef w) as [old|] eqn:Hold; cbn;
        rewrite Hrec; cbn;
        repeat split; try (intros; congruence); intros id Hid.
      * apply lookup_app_Some in Hid as [Hid | [Hlen Hid]].
        -- apply lookup_insert_false_true in Hid as [Hid _].
           exfalso. eapply Hoff; eauto.
        -- destruct (id - length (<[old:=false]> (intervals w))) eqn:Hd;
             [f_equal; lia | discriminate].
      * apply lookup_app_Some in Hid as [Hid | [Hlen Hid]].
        -- exfalso. eapply Hoff; eauto.
        -- destruct (id - length (intervals w)) eqn:Hd;
             [f_equal; lia | discriminate].
    + (* true -> false *)
      destruct (timerIntervalRef w) as [old|] eqn:Hold; cbn;
        rewrite Hrec; cbn; rewrite ?Hold; cbn;
        repeat split; try (intros; congruence); intros.
      all: repeat match goal with
                  | G : <[_ := false]> _ !! _ = Some true |- _ =>
                      apply lookup_insert_false_true in G as [G ?]
                  end.
      all: match goal with
           | G : intervals _ !! _ = Some true |- _ => apply Href in G
           end; try exfalso; congruence.
Qed.

Lemma startRecording_granted_view type stream w :
  let w' := startRecording_granted isTypeSupported type stream w in
  intervals w' = intervals w /\
  timerIntervalRef w' = timerIntervalRef w /\
  previewUrl (st w') = previewUrl (st w) /\
  recordedChunks (st w') = recordedChunks (st w) /\
  recordingDuration (st w') = recordingDuration (st w) /\
  (isRecording (st w') = true \/ isRecording (st w') = isRecording (st w)).
Proof. case_handlers; repeat split; auto. Qed.

Lemma stopRecording_view env w :
  let w' := stopRecording env w in
  intervals w' = intervals w /\
  timerIntervalRef w' = timerIntervalRef w /\
  previewUrl (st w') = previewUrl (st w) /\
  recordedChunks (st w') = recordedChunks (st w) /\
  recordingDuration (st w') = recordingDuration (st w) /\
  (isRecording (st w') = false \/ isRecording (st w') = isRecording (st w)).
Proof. case_handlers; repeat split; auto. Qed.

Lemma step_timer_and_buffer e w w' :
  timer_and_buffer_reset w -> step e w = Some w' ->
  timer_and_buffer_reset w'.
Proof.
  intros Hinv H. destruct e; step_cases H.
  all: try (apply (timer_view_inv w); [case_handlers; reflexivity | exact Hinv]).
  - (* ClickStart: the start buttons are shown without a preview only *)
    gate Heqb. destruct (previewUrl (st w)) eqn:E; [discriminate|].
    apply (timer_view_inv w); [|exact Hinv].
    unfold startRecording_begin. rewrite E. reflexivity.
  - (* MediaGranted *)
    destruct Hinv as (Hc & Hd & Hi & Hr).
    match goal with
    | |- timer_and_buffer_reset (commit _ ?w1) =>
        destruct (startRecording_granted_view s (fresh_stream tracks)
                    (with_media_requests (<[i:=None]> (media_requests w)) w))
          as (Ei & Et & Ep & Ec & Ed & Er);
        destruct (commit_timer (isRecording (st w)) w1)
          as (Fr & Fp & Fc & Fd & Fi & Ft)
    end.
    + rewrite Ei. exact Hi.
    + rewrite Ei, Et. exact Hr.
    + intros _ Hb. rewrite Ed. cbn. auto.
    + repeat split; auto. rewrite Fp, Fc, Ep, Ec. exact Hc.
  - (* RecorderStopped *)
    destruct Hinv as (Hc & Hd & Hi & Hr).
    unfold timer_and_buffer_reset; case_handlers;
      repeat split; auto; discriminate.
  - (* ClickStop *)
    destruct Hinv as (Hc & Hd & Hi & Hr).
    destruct (stopRecording_view (st w) w) as (Ei & Et & Ep & Ec & Ed & Er).
    destruct (commit_timer true (stopRecording (st w) w))
      as (Fr & Fp & Fc & Fd & Fi & Ft).
    + discriminate.
    + rewrite Ei, Et. exact Hr.
    + discriminate.
    + repeat split; auto. rewrite Fp, Fc, Ep, Ec. exact Hc.
  - (* ClickReset *)
    destruct Hinv as (Hc & Hd & Hi & Hr).
    unfold timer_and_buffer_reset; case_handlers; repeat split; auto.
  - (* IntervalFired: an interval runs while recording only *)
    destruct Hinv as (Hc & Hd & Hi & Hr).
    unfold timer_and_buffer_reset, timer_tick; cbn.
    repeat split; auto; intros Hrec; exfalso; eapply Hi; eauto.
Qed.

Lemma reachable_timer_and_buffer w :
  reachable w -> timer_and_buffer_reset w.
Proof.
  apply reachable_invariant.
  - repeat split; cbn; auto; intros; discriminate.
  - apply step_timer_and_buffer.
Qed.

(** *** The chunk buffers *)

Lemma chunks_view_inv w w' :
  chunks_view w' = chunks_view w ->
  chunks_nonempty w -> chunks_nonempty w'.
Proof.
  unfold chunks_view, chunks_nonempty. intros [= -> ->]. auto.
Qed.

Lemma commit_chunks_view before w :
  chunks_view (commit before w) = chunks_view w.
Proof. case_handlers; reflexivity. Qed.

Lemma Forall_chunks_alter (f : MediaRecorder -> MediaRecorder) rid rs :
  (forall r, chunks (f r) = chunks r) ->
  Forall (fun r => Forall (fun c => 0 < size c) (chunks r)) rs ->
  Forall (fun r => Forall (fun c => 0 < size c) (chunks r)) (alter f rid rs).
Proof.
  intros Hf Hrs. apply Forall_alter; [exact Hrs|].
  intros r _ Hr. rewrite Hf. exact Hr.
Qed.

Lemma chunks_rec_stop r : chunks (rec_stop r) = chunks r.
Proof. unfold rec_stop. destruct (rec_state r); reflexivity. Qed.

Lemma step_chunks_nonempty e w w' :
  chunks_nonempty w -> step e w = Some w' -> chunks_nonempty w'.
Proof.
  intros Hinv H. destruct e; step_cases H.
  all: try (apply (chunks_view_inv w); [case_handlers; reflexivity | exact Hinv]).
  - (* MediaGranted: the new recorder starts with an empty array *)
    apply (chunks_view_inv
             (startRecording_granted isTypeSupported s (fresh_stream tracks)
                (with_media_requests (<[i:=None]> (media_requests w)) w)));
      [apply commit_chunks_view|].
    destruct Hinv as [Hr Hc].
    unfold chunks_nonempty; case_handlers; split; auto.
    all: apply Forall_app; split; [exact Hr|]; repeat constructor.
  - (* DataAvailable: only a chunk with content is pushed *)
    destruct Hinv as [Hr Hc].
    unfold chunks_nonempty; case_handlers; split; auto.
    all: apply Forall_alter; [exact Hr|].
    all: intros r0 _ Hr0; cbn; apply Forall_app; split; [exact Hr0|].
    all: repeat constructor.
    all: destruct (size data); [discriminate | lia].
  - (* RecorderStopped: the state receives the recorder's array *)
    destruct Hinv as [Hr Hc].
    assert (Hr' : Forall (fun r => Forall (fun c => 0 < size c) (chunks r))
                    (alter rec_stopped rid (recorders w)))
      by (apply Forall_chunks_alter; [reflexivity | exact Hr]).
    unfold chunks_nonempty; case_handlers; split; auto.
    all: match goal with
         | G : alter rec_stopped _ _ !! _ = Some _ |- _ =>
             apply (Forall_lookup_1 _ _ _ _ Hr') in G; exact G
         end.
  - (* ClickStop *)
    apply (chunks_view_inv (stopRecording (st w) w));
      [apply commit_chunks_view|].
    destruct Hinv as [Hr Hc].
    unfold chunks_nonempty; case_handlers; split; auto.
    apply Forall_chunks_alter; [apply chunks_rec_stop | exact Hr].
  - (* ClickReset *)
    destruct Hinv as [Hr Hc].
    unfold chunks_nonempty; case_handlers; split; auto.
Qed.

Lemma reachable_chunks_nonempty w :
  reachable w -> chunks_nonempty w.
Proof.
  apply reachable_invariant.
  - split; constructor.
  - apply step_chunks_nonempty.
Qed.

(** *** The negotiated type of every recorder *)

Lemma step_recorders_negotiated e w w' :
  recorders_negotiated isTypeSupported w -> step e w = Some w' ->
  recorders_negotiated isTypeSupported w'.
Proof.
  unfold recorders_negotiated.
  intros Hinv H. destruct e; step_cases H.
  all: case_handlers; try exact Hinv.
  all: try (apply Forall_alter; [exact Hinv|]; intros r0 _ Hr0;
            unfold rec_stop; try destruct (rec_state r0); exact Hr0).
  all: try (apply Forall_app; split; [exact Hinv|]; repeat constructor).
Qed.

Lemma reachable_recorders_negotiated w :
  reachable w -> recorders_negotiated isTypeSupported w.
Proof.
  apply reachable_invariant.
  - constructor.
  - apply step_recorders_negotiated.
Qed.

(** *** Chunks: buffering and forwarding *)

Lemma socket_is_open_pushed rid data w :
  socket_is_open
    (emit (ChunkPushed rid data)
       (with_recorders (alter (rec_push data) rid (recorders w)) w))
  = socket_is_open w.
Proof. reflexivity. Qed.

Lemma ondataavailable_pushes rid data w r :
  recorders w !! rid = Some r ->
  0 < size data ->
  recorders (ondataavailable rid data w) !! rid = Some (rec_push data r).
Proof.
  intros Hr Hsize.
  assert (Hpos : (0 <? size data)%nat = true) by (apply Nat.ltb_lt; exact Hsize).
  unfold ondataavailable. rewrite Hpos, socket_is_open_pushed.
  destruct (socket_is_open w); cbn; rewrite list_lookup_alter_eq, Hr; reflexivity.
Qed.

(** C3 (as amended).  A chunk with content is appended to the end of the
    recorder's buffer first, whatever the transport does; that is the only
    effect of the handler up to its [await].  A forward is started exactly
    when the socket the ref names is open at that moment: the chunk then
    waits for its bytes to be read; otherwise nothing is kept for a later
    attempt and no error is reported.  When the bytes are there, [send] is
    called on the current socket, which transmits them if it is still open
    and discards them otherwise; the buffer is not touched by it. *)
Theorem ondataavailable_buffers_then_forwards rid data w r :
  recorders w !! rid = Some r ->
  0 < size data ->
  let w1 := ondataavailable rid data w in
  (chunks <$> recorders w1 !! rid) = Some (chunks r ++ [data])%list /\
  (forall rid', rid' <> rid -> recorders w1 !! rid' = recorders w !! rid') /\
  effects w1 = (effects w ++ [ChunkPushed rid data])%list /\
  sockets w1 = sockets w /\
  buffer_reads w1 =
    (buffer_reads w ++ if socket_is_open w then [Some data] else [])%list /\
  (rec_events r = true -> step (DataAvailable rid data) w = Some w1) /\
  forall w2,
    let w3 := ondataavailable_resume data w2 in
    recorders w3 = recorders w2 /\
    forall wid ws,
      websocketRef w2 = Some wid -> sockets w2 !! wid = Some ws ->
      effects w3 = (effects w2 ++ [SendCalled wid (blob_bytes data)])%list /\
      (ws_sent <$> sockets w3 !! wid) =
        Some match readyState ws with
             | OPEN => (ws_sent ws ++ [blob_bytes data])%list
             | _ => ws_sent ws
             end.
Proof.
  intros Hr Hsize.
  assert (Hpos : (0 <? size data)%nat = true) by (apply Nat.ltb_lt; exact Hsize).
  assert (Hlt : rid < length (recorders w)) by (eapply lookup_lt_Some; eauto).
  cbn zeta. unfold ondataavailable. rewrite Hpos, socket_is_open_pushed.
  repeat split.
  - destruct (socket_is_open w); cbn;
      rewrite list_lookup_alter_eq, Hr; reflexivity.
  - intros rid' Hne.
    destruct (socket_is_open w); cbn;
      rewrite list_lookup_alter_ne by congruence; reflexivity.
  - destruct (socket_is_open w); reflexivity.
  - destruct (socket_is_open w); reflexivity.
  - destruct (socket_is_open w); cbn; [reflexivity|].
    rewrite app_nil_r. reflexivity.
  - intros Hev. cbn. rewrite Hr, Hev. unfold ondataavailable.
    rewrite Hpos, socket_is_open_pushed. reflexivity.
  - unfold ondataavailable_resume. destruct (websocketRef w2); reflexivity.
  - unfold ondataavailable_resume. rewrite H. reflexivity.
  - unfold ondataavailable_resume. rewrite H. cbn.
    rewrite list_lookup_alter_eq, H0. cbn. unfold ws_send.
    destruct (readyState ws); reflexivity.
Qed.

(** *** The artifact *)

Lemma onstop_view rid w :
  let w' := onstop isTypeSupported rid w in
  previewUrl (st w') = Some (length (urls w)) /\
  urls w' =
    (urls w ++ [Some (new_Blob (buffered rid w) (getMimeType isTypeSupported))])%list /\
  recordedChunks (st w') = buffered rid w /\
  isRecording (st w') = isRecording (st w) /\
  recordingDuration (st w') = recordingDuration (st w) /\
  effects w' = effects w.
Proof. unfold buffered. case_handlers; repeat split; reflexivity. Qed.

(** Data events reach the buffer in the order they are delivered, the
    empty ones left out. *)
Lemma data_events_buffer_in_order rid (datas : list Blob) w r :
  recorders w !! rid = Some r ->
  rec_events r = true ->
  exists w' r',
    run (map (DataAvailable rid) datas) w = Some w' /\
    recorders w' !! rid = Some r' /\
    rec_events r' = true /\
    chunks r' =
      (chunks r ++ filter (fun d => 0 < size d) datas)%list.
Proof.
  revert w r. induction datas as [|d datas IH]; intros w r Hr Hev.
  - exists w, r. rewrite app_nil_r. auto.
  - assert (Hlt : rid < length (recorders w)) by (eapply lookup_lt_Some; eauto).
    assert (Hstep : step (DataAvailable rid d) w = Some (ondataavailable rid d w))
      by (unfold App.step; rewrite Hr, Hev; reflexivity).
    destruct (decide (0 < size d)) as [Hpos|Hzero].
    + pose proof (ondataavailable_pushes rid d w r Hr Hpos) as Hl.
      destruct (IH (ondataavailable rid d w) (rec_push d r) Hl Hev)
        as (w' & r' & Hrun & Hr' & Hev' & Hch).
      exists w', r'. cbn [map App.run]. rewrite Hstep.
      repeat split; auto.
      rewrite Hch. cbn [chunks rec_push].
      rewrite filter_cons_True by exact Hpos.
      rewrite <- app_assoc. reflexivity.
    + assert (Hsame : ondataavailable rid d w = w).
      { unfold ondataavailable.
        destruct (0 <? size d)%nat eqn:E; [|reflexivity].
        apply Nat.ltb_lt in E. contradiction. }
      destruct (IH w r Hr Hev) as (w' & r' & Hrun & Hr' & Hev' & Hch).
      exists w', r'. cbn [map App.run]. rewrite Hstep, Hsame.
      repeat split; auto.
      rewrite Hch, filter_cons_False by exact Hzero. reflexivity.
Qed.

(** C4.  When the recorder's stop event is dispatched in a reachable
    world, the handler creates the artifact: a blob whose bytes are the
    bytes of the buffered chunks, in buffer order, and whose type is the
    type negotiated when the recorder was created.  The preview URL names
    it; no error is reported.  With an empty buffer the artifact exists
    and has size zero. *)
Theorem onstop_builds_artifact w rid r :
  reachable w ->
  recorders w !! rid = Some r ->
  rec_events r = true ->
  exists w' url artifact,
    step (RecorderStopped rid) w = Some w' /\
    previewUrl (st w') = Some url /\
    urls w' !! url = Some (Some artifact) /\
    blob_bytes artifact = concat (map blob_bytes (chunks r)) /\
    blob_type artifact = rec_mimeType r /\
    blob_type artifact = getMimeType isTypeSupported /\
    recordedChunks (st w') = chunks r /\
    effects w' = effects w /\
    (chunks r = [] -> size artifact = 0).
Proof.
  intros Hreach Hr Hev.
  pose proof (reachable_recorders_negotiated w Hreach) as Hneg.
  apply (Forall_lookup_1 _ _ _ _ Hneg) in Hr as Hmime.
  assert (Hlt : rid < length (recorders w)) by (eapply lookup_lt_Some; eauto).
  set (w0 := with_recorders (alter rec_stopped rid (recorders w)) w).
  destruct (onstop_view rid w0) as (Hp & Hu & Hc & _ & _ & He).
  assert (Hb : buffered rid w0 = chunks r).
  { unfold buffered, w0. cbn. rewrite list_lookup_alter_eq, Hr. reflexivity. }
  rewrite Hb in Hu, Hc.
  change (urls w0) with (urls w) in Hp, Hu.
  change (effects w0) with (effects w) in He.
  exists (onstop isTypeSupported rid w0), (length (urls w)),
    (new_Blob (chunks r) (getMimeType isTypeSupported)).
  split; [cbn; rewrite Hr, Hev; reflexivity|].
  repeat split.
  - exact Hp.
  - rewrite Hu. apply list_lookup_middle. reflexivity.
  - symmetry. exact Hmime.
  - exact Hc.
  - exact He.
  - intros ->. reflexivity.
Qed.

(** *** Idle worlds *)

Lemma status_Idle s :
  status s = Idle <-> isRecording s = false /\ previewUrl s = None.
Proof.
  unfold status. destruct (isRecording s), (previewUrl s); cbn;
    split; intros; try discriminate; try tauto; destruct H; discriminate.
Qed.

Lemma commit_stop w rid :
  isRecording (st w) = true ->
  mediaRecorderRef w = Some rid ->
  let w1 := commit true (stopRecording (st w) w) in
  isRecording (st w1) = false /\
  recordingDuration (st w1) = 0 /\
  previewUrl (st w1) = previewUrl (st w) /\
  recorders w1 = alter rec_stop rid (recorders w) /\
  urls w1 = urls w.
Proof.
  intros Hrec Href. unfold stopRecording. rewrite Href, Hrec.
  unfold commit. cbn. unfold timer_effect, timer_cleanup. cbn.
  destruct (timerIntervalRef w) eqn:E; cbn; rewrite ?E; cbn;
    repeat split; reflexivity.
Qed.

Lemma resetRecording_view env w :
  let w' := resetRecording env w in
  previewUrl (st w') = None /\
  recordedChunks (st w') = [] /\
  isRecording (st w') = isRecording (st w) /\
  recordingDuration (st w') = recordingDuration (st w).
Proof. case_handlers; repeat split; reflexivity. Qed.

(** In every reachable world whose status is idle (not recording, no
    preview) the chunk state is empty and the duration counter is 0.  And
    from any world that is recording, whatever the recorder has buffered:
    stop, the recorder's stop event and reset run through and end in an
    idle world with an empty chunk state and the counter at 0. *)
Lemma idle_state_is_reset :
  (forall w,
     reachable w -> status (st w) = Idle ->
     recordedChunks (st w) = [] /\ recordingDuration (st w) = 0) /\
  (forall w rid r,
     status (st w) = Recording ->
     mediaRecorderRef w = Some rid ->
     recorders w !! rid = Some r ->
     rec_events r = true ->
     exists w',
       run [ClickStop; RecorderStopped rid; ClickReset] w = Some w' /\
       status (st w') = Idle /\
       recordedChunks (st w') = [] /\
       recordingDuration (st w') = 0).
Proof.
  split.
  - intros w Hreach Hidle.
    apply status_Idle in Hidle as [Hrec Hprev].
    destruct (reachable_timer_and_buffer w Hreach) as (Hc & Hd & _ & _).
    auto.
  - intros w rid r Hstatus Href Hr Hev.
    assert (Hrec : isRecording (st w) = true).
    { unfold status in Hstatus. destruct (isRecording (st w)); [reflexivity|].
      destruct (is_some (previewUrl (st w))); discriminate. }
    destruct (commit_stop w rid Hrec Href) as (H1r & H1d & H1p & H1rs & H1u).
    set (w1 := commit true (stopRecording (st w) w)) in *.
    set (w1' := with_recorders (alter rec_stopped rid (recorders w1)) w1).
    destruct (onstop_view rid w1') as (H2p & _ & _ & H2r & H2d & _).
    set (w2 := onstop isTypeSupported rid w1') in *.
    exists (resetRecording (st w2) w2).
    assert (Hlt : rid < length (recorders w)) by (eapply lookup_lt_Some; eauto).
    split.
    + assert (S1 : step ClickStop w = Some w1)
        by (unfold App.step; cbn zeta; rewrite Hrec; reflexivity).
      assert (He : rec_events (rec_stop r) = true)
        by (unfold rec_stop; destruct (rec_state r); exact Hev).
      assert (S2 : step (RecorderStopped rid) w1 = Some w2).
      { unfold App.step. rewrite H1rs, list_lookup_alter_eq, Hr.
        cbn [fmap option_fmap option_map]. rewrite He, <- H1rs. reflexivity. }
      assert (S3 : step ClickReset w2 = Some (resetRecording (st w2) w2))
        by (unfold App.step; cbn zeta; rewrite H2p; reflexivity).
      cbn [App.run]. rewrite S1, S2, S3. reflexivity.
    + destruct (resetRecording_view (st w2) w2) as (H3p & H3c & H3r & H3d).
      change (isRecording (st w1')) with (isRecording (st w1)) in H2r.
      change (recordingDuration (st w1')) with (recordingDuration (st w1)) in H2d.
      repeat split.
      * apply status_Idle. split; congruence.
      * exact H3c.
      * congruence.
Qed.

(** *** Empty chunks *)

(** C10.  A chunk of size zero leaves the world as it is: it is not
    appended, no forward is started, nothing is logged.  So in every
    reachable world every chunk in a recorder's buffer, and every chunk
    handed to the state (the segments of the artifact), has a size
    greater than 0. *)
Theorem empty_chunks_are_discarded :
  (forall rid data w, size data = 0 -> ondataavailable rid data w = w) /\
  (forall w,
     reachable w ->
     (forall r c, r ∈ recorders w -> c ∈ chunks r -> 0 < size c) /\
     (forall c, c ∈ recordedChunks (st w) -> 0 < size c)).
Proof.
  split.
  - intros rid data w Hz. unfold ondataavailable. rewrite Hz. reflexivity.
  - intros w Hreach.
    destruct (reachable_chunks_nonempty w Hreach) as [Hr Hc]. split.
    + intros r c Hin Hc'.
      rewrite Forall_forall in Hr. specialize (Hr r Hin).
      rewrite Forall_forall in Hr. apply Hr. exact Hc'.
    + rewrite Forall_forall in Hc. exact Hc.
Qed.

(** *** Starting and stopping *)

Lemma startRecording_begin_view env type w :
  let w' := startRecording_begin env type w in
  streams w' = streams w /\ streamRef w' = streamRef w.
Proof. case_handlers; split; reflexivity. Qed.

Lemma startRecording_granted_streams type stream w :
  let w' := startRecording_granted isTypeSupported type stream w in
  streams w' = (streams w ++ [stream])%list /\
  streamRef w' = Some (length (streams w)).
Proof. case_handlers; split; reflexivity. Qed.

Lemma onstop_streams rid w :
  streams (onstop isTypeSupported rid w) =
  match streamRef w with
  | Some sid => alter stop_all_tracks sid (streams w)
  | None => streams w
  end.
Proof. case_handlers; reflexivity. Qed.

Lemma stop_all_tracks_not_live s :
  has_live_track (stop_all_tracks s) = false.
Proof. induction s as [|t s IH]; [reflexivity | exact IH]. Qed.

(** [startRecording] tears nothing down: every stream
    that exists when it is called has the same tracks after the new stream
    has been acquired, and the ref then names the new stream.  A session
    ends in the recorder's stop handler, which stops every track of the
    stream the ref names; and the start buttons are offered in idle
    renders only. *)
Lemma startRecording_keeps_streams env type stream w sid s :
  streams w !! sid = Some s ->
  let w1 := startRecording_begin env type w in
  let w2 := startRecording_granted isTypeSupported type stream w1 in
  streams w1 = streams w /\
  streamRef w1 = streamRef w /\
  streams w2 !! sid = Some s /\
  streams w2 !! length (streams w) = Some stream /\
  streamRef w2 = Some (length (streams w)) /\
  (forall rid,
     streamRef w = Some sid ->
     streams (onstop isTypeSupported rid w) !! sid = Some (stop_all_tracks s) /\
     has_live_track (stop_all_tracks s) = false) /\
  (forall w0 w0',
     step (ClickStart type) w0 = Some w0' -> status (st w0) = Idle).
Proof.
  intros Hs w1 w2.
  destruct (startRecording_begin_view env type w) as [B1 B2].
  destruct (startRecording_granted_streams type stream w1) as [G1 G2].
  fold w1 in B1, B2. fold w2 in G1, G2.
  rewrite B1 in G1, G2.
  repeat split; auto.
  - rewrite G1. apply lookup_app_l_Some. exact Hs.
  - rewrite G1. apply list_lookup_middle. reflexivity.
  - rewrite onstop_streams, H, list_lookup_alter_eq, Hs. reflexivity.
  - apply stop_all_tracks_not_live.
  - intros w0 w0' H. unfold App.step in H. cbn zeta in H.
    destruct (negb (isRecording (st w0)) &&
              negb (is_some (previewUrl (st w0)))) eqn:Hg; [|discriminate].
    gate Hg. apply status_Idle. split; [assumption|].
    destruct (previewUrl (st w0)); [discriminate | reflexivity].
Qed.

Lemma startRecording_denied_view error w :
  let w' := startRecording_denied error w in
  st w' = st w /\
  videoRef w' = videoRef w /\
  streamRef w' = streamRef w /\
  streams w' = streams w /\
  intervals w' = intervals w /\
  sockets w' = sockets w /\
  effects w' =
    (effects w ++ [ConsoleError "Error accessing media devices:" error])%list.
Proof. repeat split; reflexivity. Qed.

Lemma stopRecording_without_recorder env w :
  mediaRecorderRef w = None -> stopRecording env w = w.
Proof. intros H. unfold stopRecording. rewrite H. reflexivity. Qed.

Lemma commit_same w : commit (isRecording (st w)) w = w.
Proof. unfold commit. rewrite eqb_reflx. reflexivity. Qed.

Lemma rec_stop_again r : rec_stop (rec_stop r) = rec_stop r.
Proof. unfold rec_stop. destruct (rec_state r) eqn:E; cbn; rewrite ?E; reflexivity. Qed.

(** The same handler called a second time (the closure of one render). *)
Lemma stopRecording_same_closure env w :
  stopRecording env (stopRecording env w) = stopRecording env w.
Proof.
  unfold stopRecording.
  destruct (mediaRecorderRef w) as [rid|] eqn:Href; [|rewrite Href; reflexivity].
  destruct (isRecording env) eqn:Hrec; [|rewrite Href; reflexivity].
  cbn. rewrite Href. cbn. rewrite list_alter_alter_eq.
  rewrite (list_alter_ext (rec_stop ∘ rec_stop) rec_stop _ (recorders w) rid);
    [reflexivity | intros r _; apply rec_stop_again | reflexivity].
Qed.

(** A second stop right after the first, from the render that followed
    the first. *)
Lemma recorder_stopRecording_again w :
  let w1 := commit (isRecording (st w)) (stopRecording (st w) w) in
  commit (isRecording (st w1)) (stopRecording (st w1) w1) = w1.
Proof.
  intros w1.
  assert (Hnoop : stopRecording (st w1) w1 = w1 -> 
                  commit (isRecording (st w1)) (stopRecording (st w1) w1) = w1).
  { intros ->. apply commit_same. }
  apply Hnoop.
  destruct (mediaRecorderRef w) as [rid|] eqn:Href.
  - destruct (isRecording (st w)) eqn:Hrec.
    + destruct (commit_stop w rid Hrec Href) as (H1 & _).
      fold w1 in H1. unfold stopRecording. rewrite H1.
      destruct (mediaRecorderRef w1); reflexivity.
    + assert (E : w1 = w).
      { unfold w1, stopRecording. rewrite Href, Hrec.
        rewrite <- Hrec. apply commit_same. }
      rewrite E. unfold stopRecording. rewrite Href, Hrec. reflexivity.
  - assert (E : w1 = w).
    { unfold w1. rewrite stopRecording_without_recorder by exact Href.
      apply commit_same. }
    rewrite E. apply stopRecording_without_recorder. exact Href.
Qed.

End Reachability.

(** C1.  The recording has started ([isRecording] is true in the current
    render) and the socket is open; then the socket closes.  The close
    handler belongs to the render in which the start button was clicked:
    it reads [isRecording = false], does not call [reconnect], and no
    timeout is pending afterwards. *)
Theorem close_while_recording_schedules_no_reconnect :
  exists w w',
    run supports_all
      [ClickStart Webcam; MediaGranted 0 camera; SocketOpened 0] mounted
    = Some w /\
    status (st w) = Recording /\
    (readyState <$> sockets w !! 0) = Some OPEN /\
    step supports_all (SocketClosed 0) w = Some w' /\
    status (st w') = Recording /\
    (readyState <$> sockets w' !! 0) = Some CLOSED /\
    length (sockets w') = 1 /\
    timeouts w' = [].
Proof.
  eexists. eexists.
  split; [vm_compute; reflexivity|].
  repeat match goal with |- _ /\ _ => split end; vm_compute; reflexivity.
Qed.

(** ** The properties at concrete inputs *)

Ltac conjs := repeat match goal with |- _ /\ _ => split end.

Lemma recording_world_reachable : reachable supports_all recording_world.
Proof. exists start_camera. vm_compute; reflexivity. Qed.

(** Three ticks: the artifact is the three chunks in the order they were
    produced, and the three chunks went out on the socket in that order
    too. *)
Example three_ticks_artifact :
  exists w,
    run supports_all three_ticks mounted = Some w /\
    status (st w) = Stopped /\
    recordedChunks (st w) = [c1; c2; c3] /\
    urls w = [Some (mkBlob [Byte.x01; Byte.x02; Byte.x03; Byte.x04; Byte.x05;
                            Byte.x06] "video/webm;codecs=vp8,opus")] /\
    (ws_sent <$> sockets w !! 0) =
      Some [blob_bytes c1; blob_bytes c2; blob_bytes c3].
Proof.
  eexists. split; [vm_compute; reflexivity|].
  conjs; vm_compute; reflexivity.
Qed.

(** Stop before the first tick: an artifact of size zero. *)
Example stop_at_once_artifact :
  exists w,
    run supports_all stop_at_once mounted = Some w /\
    status (st w) = Stopped /\
    recordedChunks (st w) = [] /\
    urls w = [Some (mkBlob [] "video/webm;codecs=vp8,opus")] /\
    effects w = [VideoPlay; ConsoleLog "WebSocket connection established"].
Proof.
  eexists. split; [vm_compute; reflexivity|].
  conjs; vm_compute; reflexivity.
Qed.

(** The last chunk of a recording: the recorder delivers it and its stop
    event in one task.  The socket is open when the chunk arrives, so the
    read of its bytes starts; the stop handler closes the socket; when the
    bytes are there, [send] is called on a closing socket and nothing goes
    out.  The chunk is in the artifact all the same. *)
Example last_chunk_is_buffered_but_not_sent :
  exists w,
    run supports_all
      (start_camera ++
       [ClickStop; DataAvailable 0 c1; RecorderStopped 0; BufferRead 0])%list
      mounted = Some w /\
    recordedChunks (st w) = [c1] /\
    effects w =
      [VideoPlay; ConsoleLog "WebSocket connection established";
       ChunkPushed 0 c1; SendCalled 0 (blob_bytes c1)] /\
    sockets w = [mkWebSocket "ws://localhost:8000/ws" CLOSING false []].
Proof.
  eexists. split; [vm_compute; reflexivity|].
  conjs; vm_compute; reflexivity.
Qed.

(** C2.  The permission prompt is denied.  The [catch] block writes the
    error to the console and nothing else: the state the render is drawn
    from is the state before the click, so nothing the user sees carries
    the message.  The state stays idle and no stream or interval is held;
    the socket that [setupWebSocket] opened before the prompt stays. *)
Theorem startRecording_denied_only_logs :
  exists w,
    run supports_all [ClickStart Webcam; MediaDenied 0 permission_denied]
      mounted = Some w /\
    st w = st mounted /\
    videoRef w = videoRef mounted /\
    status (st w) = Idle /\
    streamRef w = None /\ streams w = [] /\ intervals w = [] /\
    effects w =
      [ConsoleError "Error accessing media devices:" permission_denied] /\
    (readyState <$> sockets w !! 0) = Some CONNECTING.
Proof.
  eexists. split; [vm_compute; reflexivity|].
  conjs; vm_compute; reflexivity.
Qed.

(** C3, as stated, fails for a chunk without content: with the socket
    open, the buffer afterwards is not the buffer before with the chunk
    appended, and no forward is started. *)
Lemma empty_chunk_is_not_buffered :
  socket_is_open recording_world = true /\
  step supports_all (DataAvailable 0 (chunk [])) recording_world
    = Some (ondataavailable 0 (chunk []) recording_world) /\
  (chunks <$> recorders (ondataavailable 0 (chunk []) recording_world) !! 0)
    <> ((fun r => chunks r ++ [chunk []])%list <$> recorders recording_world !! 0) /\
  buffer_reads (ondataavailable 0 (chunk []) recording_world) = [] /\
  sockets (ondataavailable 0 (chunk []) recording_world)
    = sockets recording_world.
Proof.
  conjs; try (vm_compute; reflexivity).
  vm_compute. discriminate.
Qed.

Lemma ondataavailable_buffers_then_forwards_witness :
  (chunks <$> recorders (ondataavailable 0 c1 recording_world) !! 0)
    = Some [c1] /\
  buffer_reads (ondataavailable 0 c1 recording_world) = [Some c1].
Proof.
  destruct (ondataavailable_buffers_then_forwards supports_all
              0 c1 recording_world recorder0)
    as (H1 & _ & _ & _ & H5 & _).
  - vm_compute; reflexivity.
  - vm_compute; lia.
  - split; [exact H1 | exact H5].
Defined.

Lemma onstop_builds_artifact_witness :
  exists w' url artifact,
    step supports_all (RecorderStopped 0) recording_world = Some w' /\
    previewUrl (st w') = Some url /\
    urls w' !! url = Some (Some artifact) /\
    blob_bytes artifact = [] /\
    blob_type artifact = "video/webm;codecs=vp8,opus" /\
    size artifact = 0.
Proof.
  destruct (onstop_builds_artifact supports_all recording_world 0 recorder0)
    as (w' & url & artifact & H1 & H2 & H3 & H4 & H5 & _ & _ & _ & H9).
  - exists start_camera. vm_compute; reflexivity.
  - vm_compute; reflexivity.
  - vm_compute; reflexivity.
  - exists w', url, artifact. conjs; auto.
Defined.

Lemma empty_chunks_are_discarded_witness :
  ondataavailable 0 (chunk []) recording_world = recording_world /\
  (forall c, c ∈ recordedChunks (st recording_world) -> 0 < size c).
Proof.
  destruct (empty_chunks_are_discarded supports_all) as [Hdrop Hinv].
  split.
  - apply Hdrop. vm_compute; reflexivity.
  - apply (Hinv recording_world). exists start_camera. vm_compute; reflexivity.
Defined.

(** After a double click on start both streams are live, the first one
    out of the component's reach. *)
Lemma double_start_leaves_two_sessions :
  exists w,
    run supports_all double_start mounted = Some w /\
    streamRef w = Some 1 /\
    streams w !! 0 = Some (fresh_stream camera) /\
    streams w !! 1 = Some (fresh_stream camera) /\
    has_live_track (fresh_stream camera) = true /\
    ~ at_most_one_session w.
Proof.
  eexists. split; [vm_compute; reflexivity|].
  conjs; try (vm_compute; reflexivity).
  intros H. specialize (H 0 1 _ _ eq_refl eq_refl eq_refl eq_refl).
  discriminate.
Qed.

End AppSpec.

(** * Properties of the camera session components *)

Module SessionSpec.

Lemma set_audio_enabled_length b s :
  length (set_audio_enabled b s) = length s.
Proof. unfold set_audio_enabled. apply length_map. Qed.

Lemma set_audio_enabled_lookup b (s : MediaStream) i t :
  s !! i = Some t ->
  set_audio_enabled b s !! i =
  Some (if is_audio t then track_set_enabled b t else t).
Proof.
  revert i. induction s as [|t0 s IH]; intros [|i] H; simpl in *;
    try discriminate.
  - injection H as ->. reflexivity.
  - apply IH. exact H.
Qed.

(** What [getAudioTracks().forEach(track => track.enabled = b)] does to
    track [i] of a stream. *)
Lemma set_audio_enabled_track b (s : MediaStream) i t :
  s !! i = Some t ->
  exists t',
    set_audio_enabled b s !! i = Some t' /\
    kind t' = kind t /\ live t' = live t /\
    (kind t = Audio ->
       enabled t' = b /\ (enabled t = negb b -> enabled t' = negb (enabled t))) /\
    (kind t = Video -> t' = t).
Proof.
  intros H. apply (set_audio_enabled_lookup b) in H.
  eexists. split; [exact H|].
  unfold is_audio. destruct t as [[] e l]; cbn; repeat split; auto;
    try discriminate.
  intros ->. symmetry. apply negb_involutive.
Qed.

(** ** ImprovedVideoChat *)

Lemma stopMediaTracks_again (w : ImprovedVideoChat.World) :
  ImprovedVideoChat.stopMediaTracks (ImprovedVideoChat.stopMediaTracks w)
  = ImprovedVideoChat.stopMediaTracks w.
Proof.
  destruct w as [s v t [sid|] ss iv mr c]; reflexivity.
Qed.

Lemma stopMediaTracks_without_stream (w : ImprovedVideoChat.World) :
  ImprovedVideoChat.streamRef w = None ->
  ImprovedVideoChat.stopMediaTracks w = w.
Proof.
  intros H. unfold ImprovedVideoChat.stopMediaTracks. rewrite H. reflexivity.
Qed.

Lemma session_stopRecording_again (w : ImprovedVideoChat.World) :
  ImprovedVideoChat.stopRecording (ImprovedVideoChat.stopRecording w)
  = ImprovedVideoChat.stopRecording w.
Proof.
  destruct w as [s [v|] t [sid|] ss iv mr c]; reflexivity.
Qed.

(** The sibling of the recorder's [catch] block: here the message of the
    error becomes state, and the overlay shows it while not recording;
    nothing else changes. *)
Lemma startRecording_denied_surfaces message (w : ImprovedVideoChat.World) :
  let w' := ImprovedVideoChat.startRecording_denied (ErrorObject message) w in
  ImprovedVideoChat.streamError (ImprovedVideoChat.st w') = Some message /\
  ImprovedVideoChat.isRecording (ImprovedVideoChat.st w')
    = ImprovedVideoChat.isRecording (ImprovedVideoChat.st w) /\
  ImprovedVideoChat.holds_track w' = ImprovedVideoChat.holds_track w /\
  ImprovedVideoChat.holds_timer w' = ImprovedVideoChat.holds_timer w /\
  ImprovedVideoChat.commit
    (ImprovedVideoChat.isRecording (ImprovedVideoChat.st w)) w' = w' /\
  (ImprovedVideoChat.isRecording (ImprovedVideoChat.st w) = false ->
   ImprovedVideoChat.shown_error (ImprovedVideoChat.st w') = Some message).
Proof.
  cbn. repeat split.
  - unfold ImprovedVideoChat.commit. cbn. rewrite eqb_reflx. reflexivity.
  - intros H. unfold ImprovedVideoChat.shown_error. cbn. rewrite H. reflexivity.
Qed.

(** C7.  A second stop right after the first changes nothing, and a stop
    without a session changes nothing.  For the camera session:
    [stopMediaTracks] and [stopRecording] applied twice give the world
    they give applied once, and [stopMediaTracks] without a stream is the
    identity.  For the recorder: [stopRecording] called again from the
    render that followed the first call, with the re-render it causes,
    is the identity; the same handler called twice gives the world it
    gives called once; and [stopRecording] without a recorder is the
    identity. *)
Theorem stop_twice_is_noop :
  (forall w : ImprovedVideoChat.World,
     ImprovedVideoChat.stopMediaTracks (ImprovedVideoChat.stopMediaTracks w)
     = ImprovedVideoChat.stopMediaTracks w) /\
  (forall w : ImprovedVideoChat.World,
     ImprovedVideoChat.streamRef w = None ->
     ImprovedVideoChat.stopMediaTracks w = w) /\
  (forall w : ImprovedVideoChat.World,
     ImprovedVideoChat.stopRecording (ImprovedVideoChat.stopRecording w)
     = ImprovedVideoChat.stopRecording w) /\
  (forall w : App.World,
     let w1 := App.commit (App.isRecording (App.st w))
                 (App.stopRecording (App.st w) w) in
     App.commit (App.isRecording (App.st w1))
       (App.stopRecording (App.st w1) w1) = w1) /\
  (forall (env : App.State) (w : App.World),
     App.stopRecording env (App.stopRecording env w)
     = App.stopRecording env w) /\
  (forall (env : App.State) (w : App.World),
     App.mediaRecorderRef w = None -> App.stopRecording env w = w).
Proof.
  repeat split.
  - apply stopMediaTracks_again.
  - apply stopMediaTracks_without_stream.
  - apply session_stopRecording_again.
  - apply AppSpec.recorder_stopRecording_again.
  - apply AppSpec.stopRecording_same_closure.
  - intros env w. apply AppSpec.stopRecording_without_recorder.
Qed.

(** [toggleMute] with a stream: every audio track of the stream gets
    [enabled] set to the [isMuted] of the render (so a track that was
    enabled exactly when not muted is flipped), [isMuted] is negated, and
    nothing else changes: the ref still names the stream, no track is
    added, removed or ended, video tracks and the other streams are as
    before, the component is still recording.  The same in both
    components. *)
Lemma toggleMute_sets_audio :
  (forall (w : ImprovedVideoChat.World) sid s,
     ImprovedVideoChat.streamRef w = Some sid ->
     ImprovedVideoChat.streams w !! sid = Some s ->
     let w' := ImprovedVideoChat.toggleMute (ImprovedVideoChat.st w) w in
     let b := ImprovedVideoChat.isMuted (ImprovedVideoChat.st w) in
     ImprovedVideoChat.streamRef w' = Some sid /\
     ImprovedVideoChat.videoRef w' = ImprovedVideoChat.videoRef w /\
     ImprovedVideoChat.isRecording (ImprovedVideoChat.st w')
       = ImprovedVideoChat.isRecording (ImprovedVideoChat.st w) /\
     ImprovedVideoChat.isMuted (ImprovedVideoChat.st w') = negb b /\
     length (ImprovedVideoChat.streams w')
       = length (ImprovedVideoChat.streams w) /\
     (forall sid', sid' <> sid ->
        ImprovedVideoChat.streams w' !! sid'
        = ImprovedVideoChat.streams w !! sid') /\
     exists s',
       ImprovedVideoChat.streams w' !! sid = Some s' /\
       length s' = length s /\
       forall i t, s !! i = Some t ->
         exists t',
           s' !! i = Some t' /\ kind t' = kind t /\ live t' = live t /\
           (kind t = Audio ->
              enabled t' = b /\
              (enabled t = negb b -> enabled t' = negb (enabled t))) /\
           (kind t = Video -> t' = t)) /\
  (forall (w : VideoChat.World) sid s,
     VideoChat.streamRef w = Some sid ->
     VideoChat.streams w !! sid = Some s ->
     let w' := VideoChat.toggleMute (VideoChat.st w) w in
     let b := VideoChat.isMuted (VideoChat.st w) in
     VideoChat.streamRef w' = Some sid /\
     VideoChat.isRecording (VideoChat.st w')
       = VideoChat.isRecording (VideoChat.st w) /\
     VideoChat.isMuted (VideoChat.st w') = negb b /\
     length (VideoChat.streams w') = length (VideoChat.streams w) /\
     (forall sid', sid' <> sid ->
        VideoChat.streams w' !! sid' = VideoChat.streams w !! sid') /\
     exists s',
       VideoChat.streams w' !! sid = Some s' /\
       length s' = length s /\
       forall i t, s !! i = Some t ->
         exists t',
           s' !! i = Some t' /\ kind t' = kind t /\ live t' = live t /\
           (kind t = Audio ->
              enabled t' = b /\
              (enabled t = negb b -> enabled t' = negb (enabled t))) /\
           (kind t = Video -> t' = t)).
Proof.
  split; intros w sid s Href Hs; cbn zeta.
  - assert (E : ImprovedVideoChat.streams
                  (ImprovedVideoChat.toggleMute (ImprovedVideoChat.st w) w)
                = alter (set_audio_enabled
                           (ImprovedVideoChat.isMuted (ImprovedVideoChat.st w)))
                    sid (ImprovedVideoChat.streams w))
      by (unfold ImprovedVideoChat.toggleMute; rewrite Href; reflexivity).
    rewrite E.
    split; [unfold ImprovedVideoChat.toggleMute; rewrite Href; exact Href|].
    split; [unfold ImprovedVideoChat.toggleMute; rewrite Href; reflexivity|].
    split; [unfold ImprovedVideoChat.toggleMute; rewrite Href; reflexivity|].
    split; [unfold ImprovedVideoChat.toggleMute; rewrite Href; reflexivity|].
    split; [apply length_alter|].
    split; [intros sid' Hne; apply list_lookup_alter_ne; congruence|].
    eexists. split; [rewrite list_lookup_alter_eq, Hs; reflexivity|].
    split; [apply set_audio_enabled_length|].
    intros i t. apply set_audio_enabled_track.
  - assert (E : VideoChat.streams (VideoChat.toggleMute (VideoChat.st w) w)
                = alter (set_audio_enabled (VideoChat.isMuted (VideoChat.st w)))
                    sid (VideoChat.streams w))
      by (unfold VideoChat.toggleMute; rewrite Href; reflexivity).
    rewrite E.
    split; [unfold VideoChat.toggleMute; rewrite Href; reflexivity|].
    split; [unfold VideoChat.toggleMute; rewrite Href; reflexivity|].
    split; [unfold VideoChat.toggleMute; rewrite Href; reflexivity|].
    split; [apply length_alter|].
    split; [intros sid' Hne; apply list_lookup_alter_ne; congruence|].
    eexists. split; [rewrite list_lookup_alter_eq, Hs; reflexivity|].
    split; [apply set_audio_enabled_length|].
    intros i t. apply set_audio_enabled_track.
Qed.

Lemma stop_twice_is_noop_witness :
  ImprovedVideoChat.stopMediaTracks ImprovedVideoChat.mounted
    = ImprovedVideoChat.mounted /\
  ImprovedVideoChat.stopRecording
    (ImprovedVideoChat.stopRecording ImprovedVideoChat.session_world)
    = ImprovedVideoChat.stopRecording ImprovedVideoChat.session_world /\
  App.stopRecording (App.st App.mounted) App.mounted = App.mounted.
Proof.
  destruct stop_twice_is_noop as (_ & H2 & H3 & _ & _ & H5).
  split; [apply H2; reflexivity|].
  split; [apply H3 | apply H5; reflexivity].
Defined.

End SessionSpec.
(** * The clocks

    [formatTime] of the recorder (hours shown from one hour on) and of the
    two session components (minutes and seconds only). *)

Module ClockSpec.

Lemma colon_free_digits d : colon_free (NilEmpty.string_of_uint d) = true.
Proof. induction d; simpl; auto. Qed.

Lemma colon_free_fill n s :
  colon_free s = true -> colon_free (fill n "0" s) = true.
Proof. intros H. induction n; simpl; auto. Qed.

Lemma colon_free_padded n : colon_free (padStart 2 "0" (toString n)) = true.
Proof. apply colon_free_fill, colon_free_digits. Qed.

Lemma colon_free_with_colon a b : colon_free (a ++ ":" ++ b) = false.
Proof.
  induction a as [|c a IH]; simpl in *; [reflexivity|].
  rewrite IH. apply andb_false_r.
Qed.

(** Two texts with a colon after a colon-free start agree part by part. *)
Lemma split_at_colon a b c d :
  colon_free a = true -> colon_free c = true ->
  a ++ ":" ++ b = c ++ ":" ++ d -> a = c /\ b = d.
Proof.
  revert c. induction a as [|x a IH]; intros [|y c] Ha Hc H; simpl in *.
  - injection H as ->. auto.
  - injection H as <- _. discriminate.
  - injection H as -> _. discriminate.
  - injection H as -> H.
    apply andb_true_iff in Ha as [_ Ha]. apply andb_true_iff in Hc as [_ Hc].
    destruct (IH c Ha Hc H) as [-> ->]. auto.
Qed.

(** Padding does not change the number that is read back. *)
Lemma readNat_fill n s : readNat (fill n "0" s) = readNat s.
Proof.
  induction n as [|n IH]; simpl; [reflexivity|].
  rewrite <- IH. unfold readNat. simpl.
  destruct (NilEmpty.uint_of_string (fill n "0" s)); reflexivity.
Qed.

Lemma readNat_toString n : readNat (toString n) = Some n.
Proof.
  unfold readNat, toString. rewrite NilEmpty.usu. simpl.
  f_equal. apply Unsigned.of_to.
Qed.

Lemma padded_inj a b :
  padStart 2 "0" (toString a) = padStart 2 "0" (toString b) -> a = b.
Proof.
  intros H. apply (f_equal readNat) in H. unfold padStart in H.
  rewrite !readNat_fill, !readNat_toString in H. congruence.
Qed.

Lemma length_padded n :
  n < 100 -> String.length (padStart 2 "0" (toString n)) = 2.
Proof.
  intros Hn.
  assert (H : forallb
                (fun n => Nat.eqb
                            (String.length (padStart 2 "0" (toString n))) 2)
                (seq 0 100) = true) by (vm_compute; reflexivity).
  rewrite forallb_forall in H. apply Nat.eqb_eq, H, in_seq. lia.
Qed.

Lemma string_length_app (a b : string) :
  String.length (a ++ b) = String.length a + String.length b.
Proof.
  induction a as [|c a IH]; simpl; [reflexivity | rewrite IH; reflexivity].
Qed.

Lemma mod_3600_60 n : (n mod 3600) mod 60 = n mod 60.
Proof.
  pose proof (Nat.div_mod_eq n 3600) as H1.
  pose proof (Nat.div_mod_eq (n mod 3600) 60) as H2.
  pose proof (Nat.mod_upper_bound (n mod 3600) 60) as H3.
  apply (Nat.mod_unique n 60 (60 * (n / 3600) + (n mod 3600) / 60)); lia.
Qed.

Lemma hours_arith n :
  n = 3600 * (n / 3600) + 60 * ((n mod 3600) / 60) + n mod 60.
Proof.
  pose proof (Nat.div_mod_eq n 3600) as H1.
  pose proof (Nat.div_mod_eq (n mod 3600) 60) as H2.
  pose proof (mod_3600_60 n) as H3.
  lia.
Qed.

Lemma session_formatTime_inj a b :
  ImprovedVideoChat.formatTime a = ImprovedVideoChat.formatTime b -> a = b.
Proof.
  unfold ImprovedVideoChat.formatTime. cbn zeta. intros H.
  apply split_at_colon in H as [Hm Hs]; try apply colon_free_padded.
  apply padded_inj in Hm. apply padded_inj in Hs.
  rewrite (Nat.div_mod_eq a 60), (Nat.div_mod_eq b 60). congruence.
Qed.

Lemma recorder_formatTime_inj a b :
  App.formatTime a = App.formatTime b -> a = b.
Proof.
  unfold App.formatTime, App.pad. cbn zeta. intros H.
  destruct (0 <? a / 3600)%nat eqn:Ha, (0 <? b / 3600)%nat eqn:Hb.
  - apply split_at_colon in H as [Hh H]; try apply colon_free_padded.
    apply split_at_colon in H as [Hm Hs]; try apply colon_free_padded.
    apply padded_inj in Hh, Hm, Hs.
    rewrite (hours_arith a), (hours_arith b). congruence.
  - apply split_at_colon in H as [_ H]; try apply colon_free_padded.
    apply (f_equal colon_free) in H.
    rewrite colon_free_with_colon, colon_free_padded in H. discriminate.
  - apply split_at_colon in H as [_ H]; try apply colon_free_padded.
    apply (f_equal colon_free) in H.
    rewrite colon_free_with_colon, colon_free_padded in H. discriminate.
  - apply split_at_colon in H as [Hm Hs]; try apply colon_free_padded.
    apply padded_inj in Hm, Hs.
    apply Nat.ltb_ge in Ha, Hb.
    rewrite (hours_arith a), (hours_arith b).
    assert (a / 3600 = 0) by lia. assert (b / 3600 = 0) by lia. congruence.
Qed.

(** X1 - No clock shows the same text for two different times: the
    recorder's [formatTime] and the [formatTime] of the two session
    components are injective, for every number of seconds (also past 99
    minutes or 99 hours, where the fields grow beyond two digits). *)
Theorem clocks_show_different_times_differently (a b : nat) :
  a <> b ->
  App.formatTime a <> App.formatTime b /\
  ImprovedVideoChat.formatTime a <> ImprovedVideoChat.formatTime b /\
  VideoChat.formatTime a <> VideoChat.formatTime b.
Proof.
  intros Hab. split; [|split]; intros H; apply Hab.
  - apply recorder_formatTime_inj, H.
  - apply session_formatTime_inj, H.
  - apply session_formatTime_inj, H.
Qed.

Lemma clocks_show_different_times_differently_witness :
  App.formatTime 59 <> App.formatTime 3540 /\
  ImprovedVideoChat.formatTime 59 <> ImprovedVideoChat.formatTime 3540 /\
  VideoChat.formatTime 59 <> VideoChat.formatTime 3540.
Proof. apply clocks_show_different_times_differently. lia. Defined.

(** X2 - Below one hour the recorder's clock shows what the session clock
    shows, five characters [mm:ss]; from one hour on it shows the hours,
    then what the session clock shows for the rest of the division by
    3600, eight characters [hh:mm:ss] below a hundred hours. *)
Theorem recorder_clock_adds_the_hours (seconds : nat) :
  seconds < 100 * 3600 ->
  App.formatTime seconds =
    (if (seconds <? 3600)%nat
     then ImprovedVideoChat.formatTime seconds
     else App.pad (seconds / 3600) ++ ":" ++
          ImprovedVideoChat.formatTime (seconds mod 3600)) /\
  String.length (App.formatTime seconds) =
    (if (seconds <? 3600)%nat then 5 else 8).
Proof.
  intros Hlt.
  unfold App.formatTime, ImprovedVideoChat.formatTime, App.pad. cbn zeta.
  destruct (seconds <? 3600)%nat eqn:Hh.
  - apply Nat.ltb_lt in Hh.
    rewrite Nat.div_small, Nat.mod_small by exact Hh. cbn [Nat.ltb Nat.leb].
    split; [reflexivity|].
    rewrite !string_length_app, !length_padded; [reflexivity| |].
    + pose proof (Nat.mod_upper_bound seconds 60). lia.
    + assert (seconds / 60 < 60)
        by (apply Nat.Div0.div_lt_upper_bound; lia). lia.
  - apply Nat.ltb_ge in Hh.
    assert (Hpos : (0 <? seconds / 3600)%nat = true).
    { apply Nat.ltb_lt. apply Nat.div_str_pos. lia. }
    rewrite Hpos, mod_3600_60. split; [reflexivity|].
    rewrite !string_length_app, !length_padded; [reflexivity| | |].
    + pose proof (Nat.mod_upper_bound seconds 60). lia.
    + pose proof (Nat.mod_upper_bound seconds 3600).
      assert (seconds mod 3600 / 60 < 60)
        by (apply Nat.Div0.div_lt_upper_bound; lia). lia.
    + assert (seconds / 3600 < 100)
        by (apply Nat.Div0.div_lt_upper_bound; lia). lia.
Qed.

Lemma recorder_clock_adds_the_hours_witness :
  App.formatTime 3725 = "01:02:05" /\
  String.length (App.formatTime 3725) = 8.
Proof.
  destruct (recorder_clock_adds_the_hours 3725) as [H1 H2].
  - apply Nat.ltb_lt. vm_compute. reflexivity.
  - split; [rewrite H1; vm_compute; reflexivity | exact H2].
Defined.

End ClockSpec.

(** * Further properties of the recorder component *)

Module RecorderSpec.
Import App.
Local Open Scope list_scope.

#[local] Arguments getMimeType : simpl never.

Section Recorder.
Variable isTypeSupported : string -> bool.

Local Abbreviation step := (App.step isTypeSupported).
Local Abbreviation run := (App.run isTypeSupported).
Local Abbreviation reachable := (App.reachable isTypeSupported).

Ltac event_cases H :=
  unfold App.step in H;
  repeat match type of H with
         | context [match ?x with _ => _ end] => destruct x eqn:?
         end;
  try discriminate H;
  injection H as <-.

Ltac open_handlers :=
  unfold startRecording_begin, commit, startRecording_granted,
    startRecording_denied, ondataavailable, ondataavailable_resume, onstop,
    stopRecording, downloadRecording, resetRecording, playPreview, ws_onopen,
    ws_onerror, ws_onclose, reconnect_callback, reconnect, timer_tick,
    timer_effect, timer_cleanup, setupWebSocket, play, setInterval,
    clearInterval, createObjectURL, revokeObjectURL, setTimeout.

Ltac branch_handlers :=
  open_handlers; cbn;
  repeat (match goal with
          | |- context [match ?x with _ => _ end] => destruct x eqn:?
          end; cbn).

Lemma commit_duration before w :
  let w' := commit before w in
  isRecording (st w') = isRecording (st w) /\
  recordingType (st w') = recordingType (st w) /\
  previewUrl (st w') = previewUrl (st w) /\
  recordedChunks (st w') = recordedChunks (st w) /\
  (recordingDuration (st w') = recordingDuration (st w) \/
   (before = true /\ isRecording (st w) = false /\
    recordingDuration (st w') = 0)).
Proof.
  unfold commit, timer_effect, timer_cleanup, setInterval, clearInterval.
  destruct before, (isRecording (st w)) eqn:Hrec,
    (timerIntervalRef w) eqn:Href; cbn; rewrite ?Hrec, ?Href; cbn;
    repeat split; auto.
Qed.

Lemma commit_heap before w :
  let w' := commit before w in
  mediaRecorderRef w' = mediaRecorderRef w /\
  streamRef w' = streamRef w /\
  websocketRef w' = websocketRef w /\
  videoRef w' = videoRef w /\
  streams w' = streams w /\
  recorders w' = recorders w /\
  sockets w' = sockets w /\
  urls w' = urls w /\
  buffer_reads w' = buffer_reads w /\
  media_requests w' = media_requests w /\
  timeouts w' = timeouts w /\
  effects w' = effects w.
Proof.
  unfold commit, timer_effect, timer_cleanup, setInterval, clearInterval.
  destruct (Bool.eqb before (isRecording (st w))),
    (isRecording (st w)) eqn:Hrec, (timerIntervalRef w) eqn:Href;
    cbn; rewrite ?Hrec, ?Href; cbn; repeat split; reflexivity.
Qed.

Lemma commit_duration_exact before w :
  recordingDuration (st (commit before w)) =
  (if before && negb (isRecording (st w)) then 0
   else recordingDuration (st w)) /\
  isRecording (st (commit before w)) = isRecording (st w).
Proof.
  unfold commit, timer_effect, timer_cleanup, setInterval, clearInterval.
  destruct before, (isRecording (st w)) eqn:Hrec,
    (timerIntervalRef w) eqn:Href; cbn; rewrite ?Hrec, ?Href; cbn;
    rewrite ?Hrec; split; reflexivity.
Qed.

(** X3 - What an event of the recorder does to the duration shown: the
    callback of the interval adds exactly one second; any other event
    sets it to zero if the component was recording before it and is not
    after it, and leaves it as it is otherwise (start, the answers to the
    permission prompt, data, socket and recorder events, download, reset
    and play included). *)
Theorem recordingDuration_changes e w w' :
  step e w = Some w' ->
  recordingDuration (st w') =
  match e with
  | IntervalFired _ => recordingDuration (st w) + 1
  | _ => if isRecording (st w) && negb (isRecording (st w'))
         then 0
         else recordingDuration (st w)
  end.
Proof.
  intros H. destruct e; event_cases H.
  all: try match goal with
           | |- context [commit ?b ?w1] =>
               destruct (commit_duration_exact b w1) as [-> ->]
           end.
  all: try match goal with
           | |- context [startRecording_granted _ ?t ?s ?w0] =>
               destruct (AppSpec.startRecording_granted_view
                           isTypeSupported t s w0)
                 as (_ & _ & _ & _ & -> & _);
               reflexivity
           end.
  all: try match goal with
           | |- context [stopRecording ?env ?w0] =>
               destruct (AppSpec.stopRecording_view env w0)
                 as (_ & _ & _ & _ & -> & _);
               reflexivity
           end.
  all: branch_handlers;
    first [ reflexivity
          | match goal with
            | Hx : (?b && negb ?b)%bool = true |- _ =>
                destruct b; discriminate Hx
            end ].
Qed.

(** The timer. *)
Lemma commit_runs before w :
  (isRecording (st w) = true -> before = true ->
   exists id, timerIntervalRef w = Some id /\ intervals w !! id = Some true) ->
  timer_runs_while_recording (commit before w).
Proof.
  intros Hkeep. unfold timer_runs_while_recording, commit.
  destruct (Bool.eqb before (isRecording (st w))) eqn:Heq.
  - apply eqb_prop in Heq. subst before. intros Hrec. auto.
  - apply eqb_false_iff in Heq.
    unfold timer_effect, timer_cleanup, setInterval, clearInterval.
    destruct (isRecording (st w)) eqn:Hrec, (timerIntervalRef w) eqn:Href;
      cbn; rewrite ?Hrec, ?Href; cbn; rewrite ?Hrec; try discriminate;
      intros _; eexists; (split; [reflexivity|]);
      apply list_lookup_middle; reflexivity.
Qed.

Lemma timer_runs_view w w' :
  timer_view w' = timer_view w ->
  timer_runs_while_recording w -> timer_runs_while_recording w'.
Proof.
  unfold timer_view, timer_runs_while_recording. intros [= -> -> ->]. auto.
Qed.

Lemma step_timer_runs e w w' :
  timer_runs_while_recording w -> step e w = Some w' ->
  timer_runs_while_recording w'.
Proof.
  intros Hinv H. destruct e; event_cases H.
  all: try (apply (timer_runs_view w); [branch_handlers; reflexivity | exact Hinv]).
  - (* ClickStart *)
    apply andb_true_iff in Heqb as [_ Hp]. apply negb_true_iff in Hp.
    destruct (previewUrl (st w)) eqn:E; [discriminate|].
    apply (timer_runs_view w); [|exact Hinv].
    unfold startRecording_begin. rewrite E. reflexivity.
  - (* MediaGranted *)
    apply commit_runs. intros _ Hb.
    match goal with
    | |- context [startRecording_granted _ ?t ?s ?w0] =>
        destruct (AppSpec.startRecording_granted_view isTypeSupported t s w0)
          as (Ei & Et & _)
    end.
    rewrite Ei, Et. apply Hinv. exact Hb.
  - (* RecorderStopped *)
    unfold timer_runs_while_recording in *. branch_handlers; exact Hinv.
  - (* ClickStop *)
    apply commit_runs. intros Hr _.
    destruct (AppSpec.stopRecording_view (st w) w) as (Ei & Et & _ & _ & _ & _).
    rewrite Ei, Et. apply Hinv. assumption.
  - (* ClickReset *)
    unfold timer_runs_while_recording in *. branch_handlers; exact Hinv.
  - (* IntervalFired *)
    unfold timer_runs_while_recording in *. exact Hinv.
Qed.

Lemma reachable_timer_runs w : reachable w -> timer_runs_while_recording w.
Proof.
  apply AppSpec.reachable_invariant.
  - intros H. discriminate.
  - apply step_timer_runs.
Qed.

(** X4 - In every reachable world of the recorder: while the component
    is recording, an interval is running, it is the one
    [timerIntervalRef] names and it is the only one; while it is not
    recording, no interval is running.  So an interval runs if and only
    if the component is recording and the interval is the one the ref
    names. *)
Theorem timer_runs_exactly_while_recording w :
  reachable w ->
  (isRecording (st w) = true ->
   exists id,
     timerIntervalRef w = Some id /\
     intervals w !! id = Some true /\
     forall id', intervals w !! id' = Some true -> id' = id) /\
  (isRecording (st w) = false ->
   forall id, intervals w !! id <> Some true) /\
  (forall id,
     intervals w !! id = Some true <->
     isRecording (st w) = true /\ timerIntervalRef w = Some id).
Proof.
  intros Hreach.
  destruct (AppSpec.reachable_timer_and_buffer isTypeSupported w Hreach)
    as (_ & _ & Hoff & Href).
  pose proof (reachable_timer_runs w Hreach) as Hrun.
  split; [|split].
  - intros Hrec. destruct (Hrun Hrec) as (id & Hid & Hon).
    exists id. split; [exact Hid|]. split; [exact Hon|].
    intros id' Hid'. apply Href in Hid'. congruence.
  - intros Hrec id Hid. eapply Hoff; eauto.
  - intros id. split.
    + intros Hid. split; [|auto].
      destruct (isRecording (st w)) eqn:E; [reflexivity|].
      exfalso. eapply Hoff; eauto.
    + intros [Hrec Hid]. destruct (Hrun Hrec) as (id' & Hid' & Hon).
      congruence.
Qed.

(** The recorder behind the stop button. *)
Lemma step_recording_has_recorder e w w' :
  recording_has_recorder w -> step e w = Some w' ->
  recording_has_recorder w'.
Proof.
  intros Hinv H. destruct e; event_cases H.
  all: try (lazymatch goal with |- context [commit] => fail | _ => idtac end;
            unfold recording_has_recorder in *; branch_handlers;
            rewrite ?length_alter; exact Hinv).
  - (* MediaGranted *)
    match goal with
    | |- recording_has_recorder (commit ?b ?w1) =>
        destruct (commit_duration b w1) as (Hr & Ht & _);
        destruct (commit_heap b w1) as (Hm & _ & _ & _ & _ & Hrs & _);
        unfold recording_has_recorder; rewrite Hr, Ht, Hm, Hrs
    end.
    unfold recording_has_recorder in Hinv.
    branch_handlers; rewrite ?length_app; cbn; try exact Hinv.
    all: try (split; [intros _; split; [eexists; split; [reflexivity|lia] | discriminate]
                | discriminate]).
  - (* ClickStop *)
    destruct (commit_duration true (stopRecording (st w) w)) as (Hr & Ht & _).
    destruct (commit_heap true (stopRecording (st w) w))
      as (Hm & _ & _ & _ & _ & Hrs & _).
    unfold recording_has_recorder; rewrite Hr, Ht, Hm, Hrs.
    unfold recording_has_recorder in Hinv. unfold stopRecording.
    destruct (mediaRecorderRef w) as [rid|] eqn:Eref;
      [|rewrite Eref; exact Hinv].
    match goal with Hb : isRecording (st w) = true |- _ => rewrite Hb end.
    cbn. split; [discriminate | reflexivity].
Qed.

Lemma reachable_recording_has_recorder w :
  reachable w -> recording_has_recorder w.
Proof.
  apply AppSpec.reachable_invariant.
  - split; [discriminate | reflexivity].
  - apply step_recording_has_recorder.
Qed.

(** X5 - Whenever the recorder is recording, the recorder object and the
    source that [stopRecording] needs exist, so a click on stop is never
    ignored: after it the component is not recording, has no source, the
    duration is zero, the recorder is inactive and no interval runs. *)
Theorem stop_button_always_stops w :
  reachable w ->
  isRecording (st w) = true ->
  exists rid r w',
    mediaRecorderRef w = Some rid /\
    recorders w !! rid = Some r /\
    recordingType (st w) <> None /\
    step ClickStop w = Some w' /\
    isRecording (st w') = false /\
    recordingType (st w') = None /\
    recordingDuration (st w') = 0 /\
    (rec_state <$> recorders w' !! rid) = Some inactive /\
    (forall id, intervals w' !! id <> Some true).
Proof.
  intros Hreach Hrec.
  destruct (reachable_recording_has_recorder w Hreach) as [Hon _].
  destruct (Hon Hrec) as ((rid & Href & Hlt) & Htype).
  destruct (lookup_lt_is_Some_2 _ _ Hlt) as [r Hr].
  assert (Hstep : step ClickStop w = Some (commit true (stopRecording (st w) w)))
    by (unfold App.step; cbn zeta; rewrite Hrec; reflexivity).
  exists rid, r, (commit true (stopRecording (st w) w)).
  destruct (AppSpec.commit_stop w rid Hrec Href) as (H1 & H2 & _ & H4 & _).
  destruct (commit_duration true (stopRecording (st w) w)) as (_ & Ht & _).
  repeat split; auto.
  - rewrite Ht. unfold stopRecording. rewrite Href, Hrec. reflexivity.
  - rewrite H4, list_lookup_alter_eq, Hr. cbn. unfold rec_stop.
    destruct (rec_state r) eqn:E; cbn; rewrite ?E; reflexivity.
  - intros id Hid.
    pose proof (AppSpec.reachable_step isTypeSupported _ _ _ Hreach Hstep) as Hreach'.
    destruct (AppSpec.reachable_timer_and_buffer isTypeSupported _ Hreach')
      as (_ & _ & Hoff & _).
    eapply Hoff; eauto.
Qed.

(** The preview. *)
Lemma preview_view w w' :
  previewUrl (st w') = previewUrl (st w) ->
  recordedChunks (st w') = recordedChunks (st w) ->
  urls w' = urls w ->
  preview_is_artifact isTypeSupported w ->
  preview_is_artifact isTypeSupported w'.
Proof. unfold preview_is_artifact. intros -> -> ->. auto. Qed.

Lemma startRecording_granted_urls type stream w :
  urls (startRecording_granted isTypeSupported type stream w) = urls w.
Proof. branch_handlers; reflexivity. Qed.

Lemma stopRecording_urls env w : urls (stopRecording env w) = urls w.
Proof. branch_handlers; reflexivity. Qed.

Lemma insert_last_None {A} (l : list (option A)) (x : option A) :
  <[length l := None]> (l ++ [x]) = l ++ [None].
Proof.
  induction l as [|a l IH]; [reflexivity|].
  cbn [length app]. change (<[S (length l) := None]> (a :: (l ++ [x])))
    with (a :: <[length l := None]> (l ++ [x])).
  rewrite IH. reflexivity.
Qed.

Lemma downloadRecording_view env now w :
  let w' := downloadRecording isTypeSupported env now w in
  st w' = st w /\
  (recordedChunks env = [] -> w' = w) /\
  (recordedChunks env <> [] ->
   urls w' = urls w ++ [None] /\
   effects w' = effects w ++ [AnchorClick (length (urls w)) now]).
Proof.
  unfold downloadRecording, createObjectURL, revokeObjectURL.
  destruct (recordedChunks env) eqn:E; cbn.
  - split; [reflexivity|]. split; [reflexivity|]. intros H. contradiction.
  - split; [reflexivity|]. split; [discriminate|]. intros _.
    split; [apply insert_last_None | reflexivity].
Qed.

Lemma step_preview_is_artifact e w w' :
  preview_is_artifact isTypeSupported w -> step e w = Some w' ->
  preview_is_artifact isTypeSupported w'.
Proof.
  intros Hinv H. destruct e; event_cases H.
  all: try (lazymatch goal with
            | |- context [commit] => fail
            | |- context [onstop] => fail
            | |- context [downloadRecording] => fail
            | |- context [resetRecording] => fail
            | |- context [startRecording_begin] => fail
            | _ => idtac
            end;
            apply (preview_view w); [branch_handlers; reflexivity ..| exact Hinv]).
  - (* ClickStart *)
    apply andb_true_iff in Heqb as [_ Hp]. apply negb_true_iff in Hp.
    destruct (previewUrl (st w)) eqn:E; [discriminate|].
    apply (preview_view w); try exact Hinv;
      unfold startRecording_begin; rewrite E; cbn; rewrite ?E; reflexivity.
  - (* MediaGranted *)
    match goal with
    | |- context [commit ?b (startRecording_granted _ ?t ?s ?w0)] =>
        destruct (commit_duration b (startRecording_granted isTypeSupported t s w0))
          as (_ & _ & Hp & Hc & _);
        destruct (commit_heap b (startRecording_granted isTypeSupported t s w0))
          as (_ & _ & _ & _ & _ & _ & _ & Hu & _);
        destruct (AppSpec.startRecording_granted_view isTypeSupported t s w0)
          as (_ & _ & Gp & Gc & _);
        pose proof (startRecording_granted_urls t s w0) as Gu
    end.
    apply (preview_view w); try exact Hinv.
    + rewrite Hp, Gp. reflexivity.
    + rewrite Hc, Gc. reflexivity.
    + rewrite Hu, Gu. reflexivity.
  - (* RecorderStopped *)
    match goal with
    | |- context [onstop _ ?r ?w0] =>
        destruct (AppSpec.onstop_view isTypeSupported r w0)
          as (Hp & Hu & Hc & _)
    end.
    intros u Hu'. rewrite Hp in Hu'. injection Hu' as <-.
    rewrite Hu, Hc. apply list_lookup_middle. reflexivity.
  - (* ClickStop *)
    destruct (commit_duration true (stopRecording (st w) w))
      as (_ & _ & Hp & Hc & _).
    destruct (commit_heap true (stopRecording (st w) w))
      as (_ & _ & _ & _ & _ & _ & _ & Hu & _).
    destruct (AppSpec.stopRecording_view (st w) w) as (_ & _ & Gp & Gc & _).
    apply (preview_view w); try exact Hinv.
    + rewrite Hp, Gp. reflexivity.
    + rewrite Hc, Gc. reflexivity.
    + rewrite Hu. apply stopRecording_urls.
  - (* ClickDownload *)
    destruct (downloadRecording_view (st w) now w) as (Hs & Hsame & Hnew).
    destruct (recordedChunks (st w)) eqn:E.
    + rewrite Hsame by reflexivity. exact Hinv.
    + destruct Hnew as [Hu _]; [discriminate|].
      intros u Hp. rewrite Hs in Hp |- *. rewrite Hu.
      pose proof (Hinv u Hp) as Hl. rewrite E in Hl.
      rewrite lookup_app_l by (eapply lookup_lt_Some; eauto).
      rewrite E. exact Hl.
  - (* ClickReset *)
    destruct (AppSpec.resetRecording_view (st w) w) as (Hp & _).
    intros u Hu. rewrite Hp in Hu. discriminate.
Qed.

Lemma reachable_preview_is_artifact w :
  reachable w -> preview_is_artifact isTypeSupported w.
Proof.
  apply AppSpec.reachable_invariant.
  - intros u H. discriminate.
  - apply step_preview_is_artifact.
Qed.

(** X6 - Whenever a preview is shown, its URL is live and stands for the
    blob of the recorded chunks with the negotiated type; a download
    builds that same blob again, leaves the state and the preview alone,
    leaves no URL of its own behind, and clicks its anchor once (not at
    all when there are no chunks). *)
Theorem preview_and_download_show_the_recording w u :
  reachable w ->
  previewUrl (st w) = Some u ->
  let artifact :=
    new_Blob (recordedChunks (st w)) (getMimeType isTypeSupported) in
  urls w !! u = Some (Some artifact) /\
  forall now,
    exists w',
      step (ClickDownload now) w = Some w' /\
      st w' = st w /\
      urls w' !! u = Some (Some artifact) /\
      live_urls w' = live_urls w /\
      effects w' =
        effects w ++
        match recordedChunks (st w) with
        | [] => []
        | _ => [AnchorClick (length (urls w)) now]
        end.
Proof.
  intros Hreach Hu artifact.
  pose proof (reachable_preview_is_artifact w Hreach u Hu) as Hl.
  split; [exact Hl|]. intros now.
  exists (downloadRecording isTypeSupported (st w) now w).
  destruct (downloadRecording_view (st w) now w) as (Hs & Hsame & Hnew).
  split; [unfold App.step; cbn zeta; rewrite Hu; reflexivity|].
  split; [exact Hs|].
  destruct (recordedChunks (st w)) eqn:E.
  - rewrite Hsame by reflexivity. rewrite app_nil_r. auto.
  - destruct Hnew as [Hurls Heff]; [discriminate|].
    rewrite Hurls, Heff. repeat split.
    + rewrite lookup_app_l by (eapply lookup_lt_Some; eauto). exact Hl.
    + unfold live_urls. rewrite Hurls, omap_app. cbn. apply app_nil_r.
Qed.

(** X7 - A reset while a preview is shown revokes exactly the preview's
    URL, empties the chunks and the video source, and returns to the
    state in which download and play are not offered. *)
Theorem reset_releases_the_preview w u :
  reachable w ->
  previewUrl (st w) = Some u ->
  exists w',
    step ClickReset w = Some w' /\
    urls w' !! u = Some None /\
    (forall i, i <> u -> urls w' !! i = urls w !! i) /\
    previewUrl (st w') = None /\
    recordedChunks (st w') = [] /\
    (src <$> videoRef w') = ((fun _ => None) <$> videoRef w) /\
    (forall now, step (ClickDownload now) w' = None) /\
    step ClickPlay w' = None.
Proof.
  intros Hreach Hu.
  pose proof (reachable_preview_is_artifact w Hreach u Hu) as Hl.
  exists (resetRecording (st w) w).
  destruct (AppSpec.resetRecording_view (st w) w) as (Hp & Hc & _).
  split; [unfold App.step; cbn zeta; rewrite Hu; reflexivity|].
  assert (Hurls : urls (resetRecording (st w) w) = <[u := None]> (urls w)).
  { unfold resetRecording, revokeObjectURL. rewrite Hu.
    destruct (videoRef w) eqn:Ev; cbn; rewrite ?Ev; reflexivity. }
  rewrite Hurls. repeat split; auto.
  - apply list_lookup_insert_eq. eapply lookup_lt_Some; eauto.
  - intros i Hi. apply list_lookup_insert_ne. congruence.
  - assert (Hv : videoRef (resetRecording (st w) w) =
                 match videoRef w with
                 | Some v => Some (mkVideoElement (srcObject v) (muted v) None)
                 | None => None
                 end).
    { unfold resetRecording, revokeObjectURL. rewrite Hu.
      destruct (videoRef w) eqn:Ev; cbn; rewrite ?Ev; cbn; rewrite ?Ev;
        reflexivity. }
    rewrite Hv. destruct (videoRef w); reflexivity.
  - intros now. unfold App.step. cbn zeta. rewrite Hp. reflexivity.
  - unfold App.step. cbn zeta. rewrite Hp. reflexivity.
Qed.

(** What goes out was buffered. *)
Lemma grow_alter (f : MediaRecorder -> MediaRecorder) k (l : list MediaRecorder) rid r :
  (forall r0 c, c ∈ chunks r0 -> c ∈ chunks (f r0)) ->
  l !! rid = Some r ->
  exists r', alter f k l !! rid = Some r' /\
             forall c, c ∈ chunks r -> c ∈ chunks r'.
Proof.
  intros Hf Hl. destruct (decide (k = rid)) as [->|Hne].
  - exists (f r). rewrite list_lookup_alter_eq, Hl. split; [reflexivity|]. apply Hf.
  - exists r. rewrite list_lookup_alter_ne by exact Hne. auto.
Qed.

Lemma grow_app (l : list MediaRecorder) x rid r :
  l !! rid = Some r ->
  exists r', (l ++ [x]) !! rid = Some r' /\
             forall c, c ∈ chunks r -> c ∈ chunks r'.
Proof. intros Hl. exists r. split; [apply lookup_app_l_Some; exact Hl | auto]. Qed.

Lemma step_recorders_grow e w w' rid r :
  step e w = Some w' ->
  recorders w !! rid = Some r ->
  exists r', recorders w' !! rid = Some r' /\
             forall c, c ∈ chunks r -> c ∈ chunks r'.
Proof.
  intros H Hr. destruct e; event_cases H.
  all: try match goal with
           | |- context [commit ?b ?w1] =>
               destruct (commit_heap b w1) as (_ & _ & _ & _ & _ & -> & _)
           end.
  all: branch_handlers.
  all: first
         [ solve [eauto]
         | apply grow_app; exact Hr
         | apply grow_alter; [|exact Hr]; intros r0 c Hc; cbn;
           first [ exact Hc
                 | apply elem_of_app; left; exact Hc
                 | rewrite AppSpec.chunks_rec_stop; exact Hc ] ].
Qed.

Lemma is_buffered_step e w w' c :
  step e w = Some w' -> is_buffered c w -> is_buffered c w'.
Proof.
  intros H (rid & r & Hr & Hc).
  destruct (step_recorders_grow e w w' rid r H Hr) as (r' & Hr' & Hsub).
  exists rid, r'. auto.
Qed.

Lemma reads_clear (l : list (option Blob)) i j d :
  <[i := None]> l !! j = Some (Some d) -> l !! j = Some (Some d).
Proof.
  intros H. destruct (decide (i = j)) as [->|Hne].
  - destruct (decide (j < length l)).
    + rewrite list_lookup_insert_eq in H by assumption. discriminate.
    + rewrite list_insert_ge in H by lia. exact H.
  - rewrite list_lookup_insert_ne in H by exact Hne. exact H.
Qed.

Lemma sent_alter_same (f : WebSocket -> WebSocket) k (l : list WebSocket) wid ws' msg :
  (forall ws, ws_sent (f ws) = ws_sent ws) ->
  alter f k l !! wid = Some ws' -> msg ∈ ws_sent ws' ->
  exists ws, l !! wid = Some ws /\ msg ∈ ws_sent ws.
Proof.
  intros Hf Hl Hin. destruct (decide (k = wid)) as [->|Hne].
  - rewrite list_lookup_alter_eq in Hl.
    destruct (l !! wid) as [ws|] eqn:E; [|discriminate].
    injection Hl as <-. rewrite Hf in Hin. eauto.
  - rewrite list_lookup_alter_ne in Hl by exact Hne. eauto.
Qed.

Lemma sent_app_new (l : list WebSocket) ws0 wid ws' msg :
  ws_sent ws0 = [] ->
  (l ++ [ws0]) !! wid = Some ws' -> msg ∈ ws_sent ws' ->
  exists ws, l !! wid = Some ws /\ msg ∈ ws_sent ws.
Proof.
  intros H0 Hl Hin. apply lookup_app_Some in Hl as [Hl | [_ Hl]]; [eauto|].
  destruct (wid - length l); cbn in Hl; [|discriminate].
  injection Hl as <-. rewrite H0 in Hin. inversion Hin.
Qed.

Lemma sent_alter_send b k (l : list WebSocket) wid ws' msg :
  alter (ws_send b) k l !! wid = Some ws' -> msg ∈ ws_sent ws' ->
  (exists ws, l !! wid = Some ws /\ msg ∈ ws_sent ws) \/ msg = b.
Proof.
  intros Hl Hin. destruct (decide (k = wid)) as [->|Hne].
  - rewrite list_lookup_alter_eq in Hl.
    destruct (l !! wid) as [ws|] eqn:E; [|discriminate].
    injection Hl as <-. unfold ws_send in Hin.
    destruct (readyState ws); cbn in Hin; eauto.
    apply elem_of_app in Hin as [Hin | Hin]; [eauto|].
    right. apply list_elem_of_singleton in Hin. exact Hin.
  - rewrite list_lookup_alter_ne in Hl by exact Hne. eauto.
Qed.

Lemma ondataavailable_reads rid data w :
  buffer_reads (ondataavailable rid data w) =
  buffer_reads w ++
  (if (0 <? size data)%nat then
     if socket_is_open w then [Some data] else []
   else []).
Proof.
  unfold ondataavailable.
  destruct (0 <? size data)%nat; [|symmetry; apply app_nil_r].
  rewrite AppSpec.socket_is_open_pushed.
  destruct (socket_is_open w); cbn; [reflexivity | symmetry; apply app_nil_r].
Qed.

Lemma step_sent_was_buffered e w w' :
  sent_was_buffered w -> step e w = Some w' -> sent_was_buffered w'.
Proof.
  intros [Hreads Hsent] H.
  assert (Hgrow : forall c, is_buffered c w -> is_buffered c w')
    by (intros c; apply (is_buffered_step e); exact H).
  assert (Hkeep_reads :
            buffer_reads w' = buffer_reads w ->
            forall i data, buffer_reads w' !! i = Some (Some data) ->
                           is_buffered data w')
    by (intros -> i data Hl; eauto).
  assert (Hkeep_sent :
            (forall wid ws' msg,
               sockets w' !! wid = Some ws' -> msg ∈ ws_sent ws' ->
               exists ws, sockets w !! wid = Some ws /\ msg ∈ ws_sent ws) ->
            forall wid ws' msg,
              sockets w' !! wid = Some ws' -> msg ∈ ws_sent ws' ->
              exists c, is_buffered c w' /\ msg = blob_bytes c).
  { intros Hold wid ws' msg Hl Hin.
    destruct (Hold wid ws' msg Hl Hin) as (ws & Hl0 & Hin0).
    destruct (Hsent wid ws msg Hl0 Hin0) as (c & Hc & ->). eauto. }
  destruct e; event_cases H.
  all: split.
  all: try (apply Hkeep_reads;
            try match goal with
                | |- context [commit ?b ?w1] =>
                    destruct (commit_heap b w1)
                      as (_ & _ & _ & _ & _ & _ & _ & _ & -> & _)
                end;
            branch_handlers; reflexivity).
  all: try (apply Hkeep_sent;
            try match goal with
                | |- context [commit ?b ?w1] =>
                    destruct (commit_heap b w1)
                      as (_ & _ & _ & _ & _ & _ & -> & _)
                end;
            branch_handlers; intros wid' ws' msg Hl Hin;
            first
              [ solve [eauto]
              | eapply sent_alter_same; [|exact Hl|exact Hin];
                intros ws0; unfold ws_close; cbn;
                try destruct (readyState ws0); reflexivity
              | eapply sent_app_new; [|exact Hl|exact Hin]; reflexivity ]).
  - (* DataAvailable: the chunk that starts waiting has just been pushed *)
    intros j d0 Hl. rewrite ondataavailable_reads in Hl.
    apply lookup_app_Some in Hl as [Hl | [_ Hl]]; [eauto|].
    destruct (0 <? size data)%nat eqn:Hpos; [|destruct (_ - _); discriminate].
    destruct (socket_is_open w); cbn in Hl; [|destruct (_ - _); discriminate].
    destruct (j - length (buffer_reads w)); cbn in Hl; [|discriminate].
    injection Hl as <-. apply Nat.ltb_lt in Hpos.
    exists rid, (rec_push data m).
    split; [apply AppSpec.ondataavailable_pushes; assumption|].
    cbn. apply elem_of_app. right. apply list_elem_of_singleton. reflexivity.
  - (* BufferRead: the read is done *)
    intros j d0 Hl.
    assert (E : buffer_reads
                  (ondataavailable_resume b
                     (with_buffer_reads (<[i:=None]> (buffer_reads w)) w))
                = <[i:=None]> (buffer_reads w))
      by (branch_handlers; reflexivity).
    rewrite E in Hl. apply reads_clear in Hl. eauto.
  - (* BufferRead: what is sent was waiting, so it was buffered *)
    intros wid ws' msg Hl Hin.
    assert (E : sockets
                  (ondataavailable_resume b
                     (with_buffer_reads (<[i:=None]> (buffer_reads w)) w))
                = match websocketRef w with
                  | Some k => alter (ws_send (blob_bytes b)) k (sockets w)
                  | None => sockets w
                  end)
      by (branch_handlers; reflexivity).
    rewrite E in Hl.
    assert (Hcases : (exists ws, sockets w !! wid = Some ws /\ msg ∈ ws_sent ws)
                     \/ msg = blob_bytes b).
    { destruct (websocketRef w); [eapply sent_alter_send; eauto | eauto]. }
    destruct Hcases as [(ws & Hl0 & Hin0) | ->].
    + destruct (Hsent wid ws msg Hl0 Hin0) as (c & Hc & ->). eauto.
    + exists b. split; [|reflexivity]. eauto.
Qed.

Lemma reachable_sent_was_buffered w : reachable w -> sent_was_buffered w.
Proof.
  apply AppSpec.reachable_invariant.
  - split; cbn; intros; discriminate.
  - apply step_sent_was_buffered.
Qed.

(** X8 - Everything a socket of the recorder has sent is the bytes of a
    chunk that is in the buffer of a recorder, and is not empty: nothing
    is forwarded that was not buffered first. *)
Theorem only_buffered_chunks_are_sent w wid ws msg :
  reachable w ->
  sockets w !! wid = Some ws ->
  msg ∈ ws_sent ws ->
  exists rid r c,
    recorders w !! rid = Some r /\ c ∈ chunks r /\
    msg = blob_bytes c /\ 0 < length msg.
Proof.
  intros Hreach Hl Hin.
  destruct (reachable_sent_was_buffered w Hreach) as [_ Hsent].
  destruct (Hsent wid ws msg Hl Hin) as (c & (rid & r & Hr & Hc) & ->).
  exists rid, r, c. repeat split; auto.
  destruct (AppSpec.reachable_chunks_nonempty isTypeSupported w Hreach) as [Hne _].
  apply (Forall_lookup_1 _ _ _ _ Hne) in Hr.
  rewrite Forall_forall in Hr. apply Hr. exact Hc.
Qed.

(** X9 - Unmounting the recorder from any reachable world leaves no
    interval running and the referenced socket closing or closed; it
    does not touch the state, the streams or the recorders (a running
    recorder and live tracks stay as they are). *)
Theorem unmount_stops_timer_and_socket w :
  reachable w ->
  let w' := unmount w in
  (forall id, intervals w' !! id <> Some true) /\
  (forall wid ws,
     websocketRef w' = Some wid -> sockets w' !! wid = Some ws ->
     readyState ws = CLOSING \/ readyState ws = CLOSED) /\
  st w' = st w /\ streams w' = streams w /\ recorders w' = recorders w.
Proof.
  intros Hreach.
  destruct (AppSpec.reachable_timer_and_buffer isTypeSupported w Hreach)
    as (_ & _ & _ & Href).
  assert (Hclean : intervals (timer_cleanup w) =
                   match timerIntervalRef w with
                   | Some tid => <[tid := false]> (intervals w)
                   | None => intervals w
                   end /\
                   websocketRef (timer_cleanup w) = websocketRef w /\
                   sockets (timer_cleanup w) = sockets w /\
                   st (timer_cleanup w) = st w /\
                   streams (timer_cleanup w) = streams w /\
                   recorders (timer_cleanup w) = recorders w).
  { unfold timer_cleanup, clearInterval.
    destruct (timerIntervalRef w); repeat split; reflexivity. }
  destruct Hclean as (Hi & Hk & Hs & Hst & Hstr & Hrec).
  unfold unmount. cbn zeta. rewrite Hk.
  assert (Hoff : forall id, intervals (timer_cleanup w) !! id <> Some true).
  { intros id Hid. rewrite Hi in Hid.
    destruct (timerIntervalRef w) as [tid|] eqn:Et.
    - apply AppSpec.lookup_insert_false_true in Hid as [Hid Hne].
      apply Href in Hid. congruence.
    - apply Href in Hid. congruence. }
  destruct (websocketRef w) as [k|] eqn:Ek; cbn.
  - split; [exact Hoff|]. split; [|repeat split; assumption].
    intros wid ws Hw Hl. rewrite Hk in Hw. injection Hw as <-.
    rewrite Hs, list_lookup_alter_eq in Hl.
    destruct (sockets w !! k) as [ws0|]; [|discriminate].
    injection Hl as <-. unfold ws_close.
    destruct (readyState ws0) eqn:E; cbn; rewrite ?E; auto.
  - split; [exact Hoff|]. split; [|repeat split; assumption].
    intros wid ws Hw. rewrite Hk in Hw. discriminate.
Qed.

(** ** The chunk state and the recorder's array *)

Lemma onstop_recorders rid w :
  recorders (onstop isTypeSupported rid w) = recorders w.
Proof. branch_handlers; reflexivity. Qed.

Lemma resetRecording_recorders env w :
  recorders (resetRecording env w) = recorders w.
Proof. branch_handlers; reflexivity. Qed.

Lemma startRecording_granted_recorders type stream w :
  let w' := startRecording_granted isTypeSupported type stream w in
  (forall rid r,
     recorders w !! rid = Some r -> recorders w' !! rid = Some r) /\
  (isTypeSupported (getMimeType isTypeSupported) = true ->
   mediaRecorderRef w' = Some (length (recorders w)) /\
   buffered (length (recorders w)) w' = []).
Proof.
  unfold buffered, startRecording_granted, startRecording_denied, play.
  destruct (isTypeSupported (getMimeType isTypeSupported)) eqn:Hsup,
    (videoRef w) as [v|] eqn:Hv; cbn; rewrite ?Hv; cbn.
  all: split; [|try discriminate].
  all: try (intros rid r Hr; first [exact Hr | apply lookup_app_l_Some; exact Hr]).
  all: intros _; split; [reflexivity|].
  all: rewrite list_lookup_middle by reflexivity; reflexivity.
Qed.

(** C6 (as amended).  In every reachable world whose status is idle (not
    recording, no preview) [recordedChunks], the chunk state that the
    preview, the artifact and the download are built from, is empty and
    the duration counter is 0.  From any world that is recording,
    whatever the recorder has buffered: stop, the recorder's stop event
    and reset run through and end in an idle world with [recordedChunks]
    empty and the counter at 0.  The array the recorder pushes its chunks
    to is not part of that: the three steps leave it as it was, no event
    ever takes a chunk out of it, and a start does not empty it but (when
    the negotiated type is supported) makes a new recorder with a new,
    empty array that the ref then names. *)
Theorem idle_has_no_recorded_chunks_and_no_time :
  (forall w,
     reachable w -> status (st w) = Idle ->
     recordedChunks (st w) = [] /\ recordingDuration (st w) = 0) /\
  (forall w rid r,
     status (st w) = Recording ->
     mediaRecorderRef w = Some rid ->
     recorders w !! rid = Some r ->
     rec_events r = true ->
     exists w1 w2 w',
       step ClickStop w = Some w1 /\
       step (RecorderStopped rid) w1 = Some w2 /\
       recordedChunks (st w2) = chunks r /\
       step ClickReset w2 = Some w' /\
       status (st w') = Idle /\
       recordedChunks (st w') = [] /\
       recordingDuration (st w') = 0 /\
       buffered rid w' = chunks r) /\
  (forall e w w' rid r,
     step e w = Some w' ->
     recorders w !! rid = Some r ->
     exists r',
       recorders w' !! rid = Some r' /\
       forall c, c ∈ chunks r -> c ∈ chunks r') /\
  (forall type stream w,
     let w' := startRecording_granted isTypeSupported type stream w in
     (forall rid r,
        recorders w !! rid = Some r -> recorders w' !! rid = Some r) /\
     (isTypeSupported (getMimeType isTypeSupported) = true ->
      mediaRecorderRef w' = Some (length (recorders w)) /\
      buffered (length (recorders w)) w' = [])).
Proof.
  split; [apply (AppSpec.idle_state_is_reset isTypeSupported)|].
  split; [|split; [intros e w w' rid r; apply step_recorders_grow
                  | apply startRecording_granted_recorders]].
  intros w rid r Hstatus Href Hr Hev.
  assert (Hrec : isRecording (st w) = true).
  { unfold status in Hstatus. destruct (isRecording (st w)); [reflexivity|].
    destruct (is_some (previewUrl (st w))); discriminate. }
  destruct (AppSpec.commit_stop w rid Hrec Href)
    as (H1r & H1d & H1p & H1rs & H1u).
  set (w1 := commit true (stopRecording (st w) w)) in *.
  set (w1' := with_recorders (alter rec_stopped rid (recorders w1)) w1).
  destruct (AppSpec.onstop_view isTypeSupported rid w1')
    as (H2p & _ & H2c & H2r & H2d & _).
  set (w2 := onstop isTypeSupported rid w1') in *.
  assert (He : rec_events (rec_stop r) = true)
    by (unfold rec_stop; destruct (rec_state r); exact Hev).
  assert (Hrs2 : recorders w2 !! rid = Some (rec_stopped (rec_stop r))).
  { unfold w2. rewrite onstop_recorders. unfold w1'. cbn.
    rewrite list_lookup_alter_eq, H1rs, list_lookup_alter_eq, Hr.
    reflexivity. }
  assert (Hch : chunks (rec_stopped (rec_stop r)) = chunks r).
  { unfold rec_stopped. cbn. apply AppSpec.chunks_rec_stop. }
  assert (Hb : buffered rid w1' = chunks r).
  { unfold buffered, w1'. cbn.
    rewrite list_lookup_alter_eq, H1rs, list_lookup_alter_eq, Hr. cbn.
    exact Hch. }
  exists w1, w2, (resetRecording (st w2) w2).
  destruct (AppSpec.resetRecording_view (st w2) w2) as (H3p & H3c & H3r & H3d).
  change (isRecording (st w1')) with (isRecording (st w1)) in H2r.
  change (recordingDuration (st w1')) with (recordingDuration (st w1)) in H2d.
  split; [unfold App.step; cbn zeta; rewrite Hrec; reflexivity|].
  split.
  { unfold App.step. rewrite H1rs, list_lookup_alter_eq, Hr.
    cbn [fmap option_fmap option_map]. rewrite He, <- H1rs. reflexivity. }
  split; [rewrite H2c; exact Hb|].
  split; [unfold App.step; cbn zeta; rewrite H2p; reflexivity|].
  split; [apply AppSpec.status_Idle; split; congruence|].
  split; [exact H3c|].
  split; [congruence|].
  unfold buffered. rewrite resetRecording_recorders, Hrs2. exact Hch.
Qed.

(** ** Who ends a session *)

(** C8 (as amended).  [startRecording] tears nothing down: every stream
    that exists when it is called has the same tracks after the new
    stream has been acquired, and the ref then names the new stream.
    The recorder's stop handler stops every track of the stream the ref
    names; the start buttons are offered in idle renders only; and no
    other event touches a track: after any enabled event every stream is
    as it was, except the one the ref names when the recorder's stop
    event fires, which has all its tracks stopped. *)
Theorem only_the_stop_handler_ends_tracks env type stream w sid s :
  streams w !! sid = Some s ->
  let w1 := startRecording_begin env type w in
  let w2 := startRecording_granted isTypeSupported type stream w1 in
  streams w1 = streams w /\
  streamRef w1 = streamRef w /\
  streams w2 !! sid = Some s /\
  streams w2 !! length (streams w) = Some stream /\
  streamRef w2 = Some (length (streams w)) /\
  (forall rid,
     streamRef w = Some sid ->
     streams (onstop isTypeSupported rid w) !! sid = Some (stop_all_tracks s) /\
     has_live_track (stop_all_tracks s) = false) /\
  (forall w0 w0',
     step (ClickStart type) w0 = Some w0' -> status (st w0) = Idle) /\
  (forall e w0 w0' i s0,
     step e w0 = Some w0' ->
     streams w0 !! i = Some s0 ->
     streams w0' !! i = Some s0 \/
     exists rid,
       e = RecorderStopped rid /\ streamRef w0 = Some i /\
       streams w0' !! i = Some (stop_all_tracks s0)).
Proof.
  intros Hs w1 w2.
  destruct (AppSpec.startRecording_keeps_streams isTypeSupported env type
              stream w sid s Hs) as (K1 & K2 & K3 & K4 & K5 & K6 & K7).
  do 7 (split; [assumption|]).
  clear. intros e w w' i s Hstep Hs.
  destruct e; event_cases Hstep.
  all: try match goal with
           | |- context [commit ?b ?w1] =>
               destruct (commit_heap b w1) as (_ & _ & _ & _ & -> & _)
           end.
  all: try match goal with
           | |- context [startRecording_granted _ ?t ?s1 ?w0] =>
               destruct (AppSpec.startRecording_granted_streams
                           isTypeSupported t s1 w0) as [-> _];
               left; apply lookup_app_l_Some; exact Hs
           end.
  all: try match goal with
           | |- context [onstop _ ?rid ?w0] =>
               rewrite (AppSpec.onstop_streams isTypeSupported rid w0);
               cbn [streamRef streams with_recorders];
               destruct (streamRef w) as [k|] eqn:Hk; [|left; exact Hs];
               destruct (decide (k = i)) as [->|Hne];
               [ right; exists rid; split; [reflexivity|];
                 split; [reflexivity|];
                 rewrite list_lookup_alter_eq, Hs; reflexivity
               | left; rewrite list_lookup_alter_ne by exact Hne; exact Hs ]
           end.
  all: left; branch_handlers; exact Hs.
Qed.

End Recorder.

Ltac conjs := repeat match goal with |- _ /\ _ => split end.

Lemma recordingDuration_changes_witness :
  recordingDuration (st ticking_world) = 2 /\
  (exists w',
     step supports_all (IntervalFired 0) ticking_world = Some w' /\
     recordingDuration (st w') = 3) /\
  (exists w',
     step supports_all ClickStop ticking_world = Some w' /\
     recordingDuration (st w') = 0) /\
  (exists w',
     step supports_all (DataAvailable 0 c3) ticking_world = Some w' /\
     recordingDuration (st w') = 2).
Proof.
  split; [vm_compute; reflexivity|].
  split; [|split]; eexists; (split; [vm_compute; reflexivity|]).
  - rewrite (recordingDuration_changes supports_all (IntervalFired 0)
               ticking_world) by (vm_compute; reflexivity).
    vm_compute; reflexivity.
  - rewrite (recordingDuration_changes supports_all ClickStop
               ticking_world) by (vm_compute; reflexivity).
    vm_compute; reflexivity.
  - rewrite (recordingDuration_changes supports_all (DataAvailable 0 c3)
               ticking_world) by (vm_compute; reflexivity).
    vm_compute; reflexivity.
Defined.

Lemma timer_runs_exactly_while_recording_witness :
  isRecording (st ticking_world) = true /\
  timerIntervalRef ticking_world = Some 0 /\
  intervals ticking_world !! 0 = Some true /\
  (forall id', intervals ticking_world !! id' = Some true -> id' = 0).
Proof.
  destruct (timer_runs_exactly_while_recording supports_all ticking_world)
    as (Hon & _ & _).
  - exists two_seconds. vm_compute; reflexivity.
  - split; [vm_compute; reflexivity|].
    destruct Hon as (id & Href & Hrun & Huniq); [vm_compute; reflexivity|].
    assert (E : id = 0) by (vm_compute in Href; congruence).
    subst id. auto.
Defined.

Lemma stop_button_always_stops_witness :
  exists rid r w',
    mediaRecorderRef recording_world = Some rid /\
    recorders recording_world !! rid = Some r /\
    recordingType (st recording_world) <> None /\
    step supports_all ClickStop recording_world = Some w' /\
    isRecording (st w') = false /\
    recordingType (st w') = None /\
    recordingDuration (st w') = 0 /\
    (rec_state <$> recorders w' !! rid) = Some inactive /\
    (forall id, intervals w' !! id <> Some true).
Proof.
  apply (stop_button_always_stops supports_all).
  - exists start_camera. vm_compute; reflexivity.
  - vm_compute; reflexivity.
Defined.

Lemma preview_and_download_show_the_recording_witness :
  urls preview_world !! 0 =
    Some (Some (new_Blob [c1; c2; c3] "video/webm;codecs=vp8,opus")) /\
  exists w',
    step supports_all (ClickDownload 7) preview_world = Some w' /\
    st w' = st preview_world /\
    live_urls w' = live_urls preview_world.
Proof.
  destruct (preview_and_download_show_the_recording supports_all
              preview_world 0) as [Hurl Hdown].
  - exists three_ticks. vm_compute; reflexivity.
  - vm_compute; reflexivity.
  - split; [exact Hurl|].
    destruct (Hdown 7) as (w' & Hstep & Hst & _ & Hlive & _).
    exists w'. auto.
Defined.

Lemma reset_releases_the_preview_witness :
  exists w',
    step supports_all ClickReset preview_world = Some w' /\
    urls w' !! 0 = Some None /\
    previewUrl (st w') = None /\
    recordedChunks (st w') = [].
Proof.
  destruct (reset_releases_the_preview supports_all preview_world 0)
    as (w' & Hstep & Hurl & _ & Hp & Hc & _).
  - exists three_ticks. vm_compute; reflexivity.
  - vm_compute; reflexivity.
  - exists w'. auto.
Defined.

Lemma only_buffered_chunks_are_sent_witness :
  exists rid r c,
    recorders preview_world !! rid = Some r /\ c ∈ chunks r /\
    blob_bytes c2 = blob_bytes c /\ 0 < length (blob_bytes c2).
Proof.
  eapply (only_buffered_chunks_are_sent supports_all preview_world 0).
  - exists three_ticks. vm_compute; reflexivity.
  - vm_compute; reflexivity.
  - vm_compute. apply list_elem_of_further, list_elem_of_here.
Defined.

Lemma unmount_stops_timer_and_socket_witness :
  (forall id, intervals (unmount recording_world) !! id <> Some true) /\
  st (unmount recording_world) = st recording_world.
Proof.
  destruct (unmount_stops_timer_and_socket supports_all recording_world)
    as (Hoff & _ & Hst & _).
  - exists start_camera. vm_compute; reflexivity.
  - split; [exact Hoff | exact Hst].
Defined.

(** C6, as stated, fails for the array the chunks are pushed to: after a
    click on stop the component is idle while the recorder's array holds
    the chunk, and after stop and reset it still holds all three. *)
Lemma idle_recorder_keeps_its_chunks :
  (exists w,
     run supports_all stop_clicked mounted = Some w /\
     status (st w) = Idle /\
     recordedChunks (st w) = [] /\
     buffered 0 w = [c1]) /\
  (exists w,
     run supports_all (three_ticks ++ [ClickReset]) mounted = Some w /\
     status (st w) = Idle /\
     recordedChunks (st w) = [] /\
     buffered 0 w = [c1; c2; c3]).
Proof.
  split; eexists; (split; [vm_compute; reflexivity|]);
    conjs; vm_compute; reflexivity.
Qed.

Lemma idle_has_no_recorded_chunks_and_no_time_witness :
  recordingDuration (st ticking_world) = 2 /\
  buffered 0 ticking_world = [c1; c2] /\
  (exists w1 w2 w',
     step supports_all ClickStop ticking_world = Some w1 /\
     step supports_all (RecorderStopped 0) w1 = Some w2 /\
     recordedChunks (st w2) = [c1; c2] /\
     step supports_all ClickReset w2 = Some w' /\
     status (st w') = Idle /\
     recordedChunks (st w') = [] /\
     recordingDuration (st w') = 0 /\
     buffered 0 w' = [c1; c2]) /\
  (exists w,
     run supports_all (three_ticks ++ [ClickReset]) mounted = Some w /\
     recordedChunks (st preview_world) = [c1; c2; c3] /\
     recordedChunks (st w) = [] /\
     recordingDuration (st w) = 0).
Proof.
  destruct (idle_has_no_recorded_chunks_and_no_time supports_all)
    as (Hidle & Hend & _).
  split; [vm_compute; reflexivity|].
  split; [vm_compute; reflexivity|].
  split.
  - apply (Hend ticking_world 0
             (mkMediaRecorder 0 "video/webm;codecs=vp8,opus" 1000 recording
                true [c1; c2]));
      vm_compute; reflexivity.
  - eexists. split; [vm_compute; reflexivity|].
    split; [vm_compute; reflexivity|].
    apply Hidle; [|vm_compute; reflexivity].
    exists (three_ticks ++ [ClickReset]). vm_compute; reflexivity.
Defined.

(** C8, as stated, fails: a start made while the tracks of a session are
    live tears nothing down.  Through the buttons: after a click on stop
    the start buttons are back while the stream is still live (its tracks
    end in the recorder's stop handler); a start then leaves two live
    streams, and the stop event of the first recorder ends the tracks of
    the second stream and leaves the first one live.  And the handler
    itself, run in a world that is recording, leaves two live streams. *)
Lemma start_during_session_leaves_two_sessions :
  (exists w0 w w3,
     run supports_all (start_camera ++ [ClickStop]) mounted = Some w0 /\
     streamRef w0 = Some 0 /\
     streams w0 = [fresh_stream camera] /\
     has_live_track (fresh_stream camera) = true /\
     run supports_all [ClickStart Webcam; MediaGranted 1 camera] w0 = Some w /\
     streamRef w = Some 1 /\
     streams w = [fresh_stream camera; fresh_stream camera] /\
     ~ at_most_one_session w /\
     step supports_all (RecorderStopped 0) w = Some w3 /\
     streams w3 =
       [fresh_stream camera; stop_all_tracks (fresh_stream camera)]) /\
  (let w2 := startRecording_granted supports_all Webcam (fresh_stream camera)
               (startRecording_begin (st recording_world) Webcam
                  recording_world) in
   isRecording (st recording_world) = true /\
   streams recording_world = [fresh_stream camera] /\
   streams w2 = [fresh_stream camera; fresh_stream camera] /\
   ~ at_most_one_session w2).
Proof.
  split.
  - do 3 eexists.
    split; [vm_compute; reflexivity|].
    split; [vm_compute; reflexivity|].
    split; [vm_compute; reflexivity|].
    split; [vm_compute; reflexivity|].
    split; [vm_compute; reflexivity|].
    split; [vm_compute; reflexivity|].
    split; [vm_compute; reflexivity|].
    split.
    + intros H. specialize (H 0 1 _ _ eq_refl eq_refl eq_refl eq_refl).
      discriminate.
    + split; vm_compute; reflexivity.
  - cbn zeta.
    split; [vm_compute; reflexivity|].
    split; [vm_compute; reflexivity|].
    split; [vm_compute; reflexivity|].
    intros H.
    assert (E : 0 = 1); [|discriminate].
    apply (H 0 1 (fresh_stream camera) (fresh_stream camera));
      vm_compute; reflexivity.
Qed.

Lemma only_the_stop_handler_ends_tracks_witness :
  let w2 := startRecording_granted supports_all Webcam (fresh_stream camera)
              (startRecording_begin (st recording_world) Webcam
                 recording_world) in
  streams w2 !! 0 = Some (fresh_stream camera) /\
  streamRef w2 = Some 1 /\
  (exists w',
     step supports_all (IntervalFired 0) recording_world = Some w' /\
     streams w' !! 0 = Some (fresh_stream camera)).
Proof.
  destruct (only_the_stop_handler_ends_tracks supports_all
              (st recording_world) Webcam (fresh_stream camera)
              recording_world 0 (fresh_stream camera))
    as (_ & _ & H3 & _ & H5 & _ & _ & Hframe).
  - vm_compute; reflexivity.
  - split; [exact H3|]. split; [exact H5|].
    eexists. split; [vm_compute; reflexivity|].
    match goal with
    | |- streams ?w' !! 0 = _ =>
        destruct (Hframe (IntervalFired 0) recording_world w' 0
                    (fresh_stream camera)) as [H | (rid & Hrid & _)]
    end.
    + vm_compute; reflexivity.
    + vm_compute; reflexivity.
    + exact H.
    + discriminate Hrid.
Defined.

End RecorderSpec.

(** * Further properties of the session page *)

Module ImprovedVideoChatSpec.
Import ImprovedVideoChat ImprovedVideoChatSession.
Local Open Scope list_scope.

Lemma session_run_preserves (P : World -> Prop) :
  (forall e w w', P w -> step e w = Some w' -> P w') ->
  forall es w w', P w -> run es w = Some w' -> P w'.
Proof.
  intros Hstep es.
  induction es as [|e es IH]; intros w w' Hw Hrun; simpl in Hrun.
  - congruence.
  - destruct (step e w) as [w1|] eqn:He; [|discriminate].
    eapply IH; [|exact Hrun]. eapply Hstep; eauto.
Qed.

(** The re-render after a handler. *)
Lemma session_commit_clean before w :
  (before = false -> forall id, intervals w !! id = Some true -> False) ->
  (forall id, intervals w !! id = Some true -> timerRef w = Some id) ->
  let w' := commit before w in
  st w' = st w /\ streamRef w' = streamRef w /\ streams w' = streams w /\
  videoRef w' = videoRef w /\ media_requests w' = media_requests w /\
  (isRecording (st w) = false ->
   forall id, intervals w' !! id = Some true -> False) /\
  (forall id, intervals w' !! id = Some true -> timerRef w' = Some id).
Proof.
  intros Hoff Href. unfold commit.
  destruct (Bool.eqb before (isRecording (st w))) eqn:Heq.
  - apply eqb_prop in Heq. subst before. repeat split; auto.
  - apply eqb_false_iff in Heq.
    unfold timer_effect, timer_cleanup.
    destruct (isRecording (st w)) eqn:Hrec; destruct before; try congruence.
    + destruct (timerRef w) as [old|] eqn:Hold; cbn; rewrite Hrec; cbn;
        repeat split; try (intros; congruence); intros id Hid.
      * apply lookup_app_Some in Hid as [Hid | [Hlen Hid]].
        -- apply AppSpec.lookup_insert_false_true in Hid as [Hid _]. exfalso. eapply Hoff; eauto.
        -- destruct (id - length (<[old:=false]> (intervals w))) eqn:Hd;
             [f_equal; lia | discriminate].
      * apply lookup_app_Some in Hid as [Hid | [Hlen Hid]].
        -- exfalso. eapply Hoff; eauto.
        -- destruct (id - length (intervals w)) eqn:Hd;
             [f_equal; lia | discriminate].
    + destruct (timerRef w) as [old|] eqn:Hold; cbn; rewrite Hrec; cbn;
        rewrite ?Hold; cbn; repeat split; try (intros; congruence); intros.
      all: repeat match goal with
                  | G : <[_ := false]> _ !! _ = Some true |- _ =>
                      apply AppSpec.lookup_insert_false_true in G as [G ?]
                  end.
      all: match goal with
           | G : intervals _ !! _ = Some true |- _ => apply Href in G
           end; try exfalso; congruence.
Qed.

Lemma session_stopRecording_frame w :
  let w' := stopRecording w in
  intervals w' = intervals w /\ timerRef w' = timerRef w /\
  isRecording (st w') = false /\ isMuted (st w') = false /\
  recordingTime (st w') = 0 /\ streamRef w' = None.
Proof. destruct w as [s [v|] t [sid|] ss iv mr c]; repeat split; reflexivity. Qed.

Lemma session_startRecording_granted_frame stream w :
  let w' := startRecording_granted stream w in
  intervals w' = intervals w /\ timerRef w' = timerRef w /\
  isRecording (st w') = true.
Proof. destruct w as [s [v|] t r ss iv mr c]; repeat split; reflexivity. Qed.

Lemma session_toggleMute_frame env w :
  let w' := toggleMute env w in
  intervals w' = intervals w /\ timerRef w' = timerRef w /\
  isRecording (st w') = isRecording (st w) /\ streamRef w' = streamRef w.
Proof. destruct w as [s v t [sid|] ss iv mr c]; repeat split; reflexivity. Qed.

(** The prop write touches the video element only. *)
Lemma write_muted_frame before w :
  let w' := write_muted before w in
  st w' = st w /\ timerRef w' = timerRef w /\ streamRef w' = streamRef w /\
  streams w' = streams w /\ intervals w' = intervals w /\
  media_requests w' = media_requests w /\ console w' = console w /\
  (srcObject <$> videoRef w') = (srcObject <$> videoRef w) /\
  (muted <$> videoRef w') =
    ((fun v => if Bool.eqb before (isMuted (st w)) then muted v
               else isMuted (st w)) <$> videoRef w).
Proof.
  unfold write_muted.
  destruct (Bool.eqb before (isMuted (st w))), (videoRef w) as [v|] eqn:Hv;
    cbn; rewrite ?Hv; repeat split; reflexivity.
Qed.

Lemma write_muted_idle before w :
  idle_is_clean w -> idle_is_clean (write_muted before w).
Proof.
  destruct (write_muted_frame before w) as (Es & Et & Er & _ & Ei & _).
  unfold idle_is_clean. rewrite Es, Et, Er, Ei. auto.
Qed.

Lemma session_step_idle_is_clean e w w' :
  idle_is_clean w -> step e w = Some w' -> idle_is_clean w'.
Proof.
  intros (Hidle & Href) H. destruct e; cbn in H.
  - (* ClickStartStop *)
    destruct (isRecording (st w)) eqn:Hrec; injection H as <-.
    + apply write_muted_idle.
      destruct (session_stopRecording_frame w) as (Fi & Ft & Fr & Fm & Fc & Fs).
      destruct (session_commit_clean true (stopRecording w))
        as (Es & Er & _ & _ & _ & Hoff & Hr).
      * discriminate.
      * rewrite Fi, Ft. exact Href.
      * split; [|exact Hr]. intros _. rewrite Es, Er.
        repeat split; try assumption. exact (Hoff Fr).
    + split; [|exact Href]. intros _.
      destruct (Hidle eq_refl) as (Hm & Ht & Hs & Hi).
      repeat split; auto.
  - (* MediaGranted *)
    destruct (media_requests w !! i) as [[|]|] eqn:Hreq; try discriminate.
    injection H as <-.
    match goal with
    | |- idle_is_clean (commit ?b (startRecording_granted ?s ?w0)) =>
        destruct (session_startRecording_granted_frame s w0) as (Fi & Ft & Fr);
        destruct (session_commit_clean b (startRecording_granted s w0))
          as (Es & Er & _ & _ & _ & Hoff & Hr)
    end.
    + intros Hb id Hid. destruct (Hidle Hb) as (_ & _ & _ & Hi).
      eapply Hi. rewrite Fi in Hid. exact Hid.
    + rewrite Fi, Ft. exact Href.
    + split; [|exact Hr]. intros Hrec. rewrite Es in Hrec. congruence.
  - (* MediaDenied *)
    destruct (media_requests w !! i) as [[|]|] eqn:Hreq; try discriminate.
    injection H as <-. split; [|exact Href]. exact Hidle.
  - (* ClickMute *)
    destruct (isRecording (st w)) eqn:Hrec; [|discriminate].
    injection H as <-. apply write_muted_idle.
    destruct (session_toggleMute_frame (st w) w) as (Fi & Ft & Fr & Fs).
    split.
    + intros Hf. congruence.
    + rewrite Fi, Ft. exact Href.
  - (* IntervalFired *)
    destruct (intervals w !! id) as [[|]|] eqn:Hid; try discriminate.
    injection H as <-. split; [|exact Href].
    intros Hrec. exfalso. destruct (Hidle Hrec) as (_ & _ & _ & Hi). eauto.
Qed.

Lemma session_reachable_idle_is_clean w : reachable w -> idle_is_clean w.
Proof.
  intros [es Hes]. eapply session_run_preserves; [apply session_step_idle_is_clean| |exact Hes].
  split; [intros _; repeat split; auto|]; intros id Hid; discriminate.
Qed.

(** X10 - Whenever the session page is not recording, in any reachable
    world, it is not muted, its clock is at zero, no stream is referenced
    (so no track is held through the reference) and no interval runs. *)
Theorem idle_session_holds_nothing w :
  reachable w ->
  isRecording (st w) = false ->
  isMuted (st w) = false /\
  recordingTime (st w) = 0 /\
  streamRef w = None /\
  holds_track w = false /\
  holds_timer w = false.
Proof.
  intros Hreach Hrec.
  destruct (session_reachable_idle_is_clean w Hreach) as [Hidle _].
  destruct (Hidle Hrec) as (Hm & Ht & Hs & Hi).
  repeat split; auto.
  - unfold holds_track. rewrite Hs. reflexivity.
  - unfold holds_timer. apply not_true_is_false. intros Hex.
    apply existsb_exists in Hex as (b & Hin & Hb). unfold id in Hb. subst b.
    apply list_elem_of_In, list_elem_of_lookup in Hin as [i Hi']. eauto.
Qed.

(** X11 - Unmounting the session page from any reachable world leaves
    no referenced stream and no running interval. *)
Theorem unmount_releases_session w :
  reachable w ->
  holds_track (unmount w) = false /\
  holds_timer (unmount w) = false /\
  streamRef (unmount w) = None.
Proof.
  intros Hreach.
  destruct (session_reachable_idle_is_clean w Hreach) as [_ Href].
  assert (Hs : streamRef (unmount w) = None)
    by (destruct w as [s v [t|] [sid|] ss iv mr c]; reflexivity).
  repeat split; auto.
  - unfold holds_track. rewrite Hs. reflexivity.
  - unfold holds_timer. apply not_true_is_false. intros Hex.
    apply existsb_exists in Hex as (b & Hin & Hb). unfold id in Hb. subst b.
    apply list_elem_of_In, list_elem_of_lookup in Hin as [i Hi].
    assert (Hiv : intervals (unmount w) =
                  match timerRef w with
                  | Some t => <[t := false]> (intervals w)
                  | None => intervals w
                  end)
      by (destruct w as [s v [t|] [sid|] ss iv mr c]; reflexivity).
    rewrite Hiv in Hi. destruct (timerRef w) as [t|] eqn:Et.
    + apply AppSpec.lookup_insert_false_true in Hi as [Hi Hne]. apply Href in Hi. congruence.
    + apply Href in Hi. congruence.
Qed.

(** X12 - [stopRecording] with a session running ends every track of the
    referenced stream, leaves the other streams alone, drops the
    reference, detaches the video element and resets recording, clock
    and mute. *)
Theorem stopRecording_releases_the_stream w sid s :
  streamRef w = Some sid ->
  streams w !! sid = Some s ->
  let w' := stopRecording w in
  streams w' !! sid = Some (stop_all_tracks s) /\
  (forall t, t ∈ stop_all_tracks s -> live t = false) /\
  (forall sid', sid' <> sid -> streams w' !! sid' = streams w !! sid') /\
  streamRef w' = None /\
  holds_track w' = false /\
  (srcObject <$> videoRef w') = ((fun _ => None) <$> videoRef w) /\
  isRecording (st w') = false /\
  recordingTime (st w') = 0 /\
  isMuted (st w') = false.
Proof.
  intros Href Hs.
  assert (E : streams (stopRecording w) = alter stop_all_tracks sid (streams w))
    by (destruct w as [st0 [v|] t r ss iv mr c]; cbn in *; subst r; reflexivity).
  destruct (session_stopRecording_frame w) as (_ & _ & Fr & Fm & Fc & Fs).
  cbn zeta. rewrite E. repeat split; auto.
  - rewrite list_lookup_alter_eq, Hs. reflexivity.
  - intros t Ht. unfold stop_all_tracks in Ht.
    apply list_elem_of_In, in_map_iff in Ht as (t0 & <- & _). reflexivity.
  - intros sid' Hne. apply list_lookup_alter_ne. congruence.
  - unfold holds_track. rewrite Fs. reflexivity.
  - destruct w as [st0 [v|] t r ss iv mr c]; cbn in *; subst r; reflexivity.
Qed.

Lemma set_audio_enabled_back b (s : MediaStream) :
  (forall t, t ∈ s -> kind t = Audio -> enabled t = negb b) ->
  set_audio_enabled (negb b) (set_audio_enabled b s) = s.
Proof.
  intros H. unfold set_audio_enabled. rewrite map_map.
  rewrite <- (map_id s) at 2. apply map_ext_in. intros t Hin.
  apply list_elem_of_In in Hin. specialize (H t Hin).
  unfold is_audio in *. destruct t as [[] e l]; cbn in *; [|reflexivity].
  rewrite H by reflexivity. reflexivity.
Qed.

(** The two handlers alone, without the re-renders between them. *)
Lemma toggleMute_handler_twice w :
  (forall sid s t,
     streamRef w = Some sid -> streams w !! sid = Some s -> t ∈ s ->
     kind t = Audio -> enabled t = negb (isMuted (st w))) ->
  let w1 := toggleMute (st w) w in
  toggleMute (st w1) w1 = w.
Proof.
  intros Hstep.
  destruct w as [[r tm m e] v t [sid|] ss iv mr c]; cbn in *.
  - unfold toggleMute. cbn. rewrite negb_involutive.
    rewrite list_alter_alter_eq.
    rewrite (list_alter_ext _ id ss ss sid); [rewrite list_alter_id; auto| |reflexivity].
    intros s Hs. cbn. apply set_audio_enabled_back.
    intros t0 Hin Hk. eapply Hstep; eauto.
  - unfold toggleMute. cbn. rewrite negb_involutive. reflexivity.
Qed.

Lemma toggleMute_write_muted before env w :
  toggleMute env (write_muted before w) =
  with_videoRef (videoRef (write_muted before w)) (toggleMute env w).
Proof.
  unfold write_muted.
  destruct (Bool.eqb before (isMuted (st w))), (videoRef w) as [v|] eqn:Hv,
    w as [s0 v0 t0 [sid|] ss iv mr c]; cbn in *; subst; reflexivity.
Qed.

(** X13 - Muting and unmuting while recording, with the re-render after
    each click: when the audio tracks of the referenced stream are in
    step with [isMuted], the two clicks give back the state, the
    streams with every track, the refs, the intervals and the source of
    the video element as they were.  The [muted] flag of the video
    element is the exception: the first re-render writes the new
    [isMuted] to it and the second writes the old one, so it ends as
    [isMuted] whatever it was before (what [startRecording] assigned to
    it is lost). *)
Theorem toggleMute_twice w :
  isRecording (st w) = true ->
  (forall sid s t,
     streamRef w = Some sid -> streams w !! sid = Some s -> t ∈ s ->
     kind t = Audio -> enabled t = negb (isMuted (st w))) ->
  exists w1 w2,
    step ClickMute w = Some w1 /\
    step ClickMute w1 = Some w2 /\
    isMuted (st w1) = negb (isMuted (st w)) /\
    (muted <$> videoRef w1) =
      ((fun _ => negb (isMuted (st w))) <$> videoRef w) /\
    st w2 = st w /\
    streamRef w2 = streamRef w /\
    streams w2 = streams w /\
    timerRef w2 = timerRef w /\
    intervals w2 = intervals w /\
    media_requests w2 = media_requests w /\
    console w2 = console w /\
    (srcObject <$> videoRef w2) = (srcObject <$> videoRef w) /\
    (muted <$> videoRef w2) = ((fun _ => isMuted (st w)) <$> videoRef w).
Proof.
  intros Hrec Hstep.
  pose proof (toggleMute_handler_twice w Hstep) as Hback. cbn zeta in Hback.
  set (h1 := toggleMute (st w) w) in *.
  assert (Hm1 : isMuted (st h1) = negb (isMuted (st w)))
    by (destruct w as [s0 v0 t0 [sid|] ss iv mr c]; reflexivity).
  assert (Hr1 : isRecording (st h1) = true)
    by (destruct w as [s0 v0 t0 [sid|] ss iv mr c]; exact Hrec).
  assert (Hv1 : videoRef h1 = videoRef w)
    by (destruct w as [s0 v0 t0 [sid|] ss iv mr c]; reflexivity).
  set (w1 := write_muted (isMuted (st w)) h1).
  destruct (write_muted_frame (isMuted (st w)) h1)
    as (Es1 & _ & _ & _ & _ & _ & _ & Eo1 & Em1).
  fold w1 in Es1, Eo1, Em1.
  set (h2 := toggleMute (st w1) w1).
  assert (Eh2 : h2 = with_videoRef (videoRef w1) w).
  { unfold h2, w1. rewrite toggleMute_write_muted. fold w1.
    rewrite Es1. fold h1. rewrite Hback. reflexivity. }
  set (w2 := write_muted (isMuted (st w1)) h2).
  destruct (write_muted_frame (isMuted (st w1)) h2)
    as (Es2 & Et2 & Er2 & Ess2 & Ei2 & Eq2 & Ec2 & Eo2 & Em2).
  fold w2 in Es2, Et2, Er2, Ess2, Ei2, Eq2, Ec2, Eo2, Em2.
  exists w1, w2.
  split; [unfold step; cbn zeta; rewrite Hrec; reflexivity|].
  assert (Hr1' : isRecording (st w1) = true) by (rewrite Es1; exact Hr1).
  split; [unfold step; cbn zeta; rewrite Hr1'; reflexivity|].
  split; [rewrite Es1; exact Hm1|].
  split.
  { rewrite Em1, Hm1, Hv1.
    destruct (isMuted (st w)), (videoRef w); reflexivity. }
  rewrite Es2, Et2, Er2, Ess2, Ei2, Eq2, Ec2, Eo2, Em2, Eh2. cbn.
  repeat (split; [reflexivity|]).
  split.
  { rewrite Eo1, Hv1. reflexivity. }
  rewrite Es1, Hm1. rewrite Hv1 in Eo1.
  destruct (isMuted (st w)), (videoRef w1) as [v1|],
    (videoRef w) as [v|]; cbn; try reflexivity.
  all: cbn in Eo1; discriminate.
Qed.

Lemma idle_session_holds_nothing_witness :
  exists w,
    run (camera_session ++ [ClickMute; ClickStartStop]) mounted = Some w /\
    isMuted (st w) = false /\
    recordingTime (st w) = 0 /\
    streamRef w = None /\
    holds_track w = false /\
    holds_timer w = false.
Proof.
  eexists. split; [vm_compute; reflexivity|].
  apply idle_session_holds_nothing.
  - exists (camera_session ++ [ClickMute; ClickStartStop]).
    vm_compute; reflexivity.
  - vm_compute; reflexivity.
Defined.

Lemma unmount_releases_session_witness :
  holds_track (unmount recording_world) = false /\
  holds_timer (unmount recording_world) = false /\
  streamRef (unmount recording_world) = None.
Proof.
  apply unmount_releases_session.
  exists camera_session. vm_compute; reflexivity.
Defined.

Lemma stopRecording_releases_the_stream_witness :
  streams (stopRecording recording_world) !! 0 =
    Some (stop_all_tracks (fresh_stream [Audio; Video])) /\
  streamRef (stopRecording recording_world) = None /\
  recordingTime (st (stopRecording recording_world)) = 0.
Proof.
  destruct (stopRecording_releases_the_stream recording_world 0
              (fresh_stream [Audio; Video]))
    as (Hs & _ & _ & Hr & _ & _ & _ & Ht & _).
  - vm_compute; reflexivity.
  - vm_compute; reflexivity.
  - auto.
Defined.

Lemma toggleMute_twice_witness :
  (muted <$> videoRef recording_world) = Some true /\
  exists w1 w2,
    step ClickMute recording_world = Some w1 /\
    step ClickMute w1 = Some w2 /\
    (enabled <$> (streams w1 !! 0 ≫= (.!! 0))) = Some false /\
    (enabled <$> (streams w2 !! 0 ≫= (.!! 0))) = Some true /\
    st w2 = st recording_world /\
    streams w2 = streams recording_world /\
    (muted <$> videoRef w2) = Some false.
Proof.
  split; [vm_compute; reflexivity|].
  destruct (toggleMute_twice recording_world)
    as (w1 & w2 & S1 & S2 & _ & _ & Hst & _ & Hss & _ & _ & _ & _ & _ & Hmu).
  - vm_compute; reflexivity.
  - intros sid s t Hsid Hs Ht Hk.
    vm_compute in Hsid. injection Hsid as <-.
    vm_compute in Hs. injection Hs as <-.
    apply list_elem_of_In in Ht.
    destruct Ht as [<- | [<- | []]]; [reflexivity | discriminate Hk].
  - exists w1, w2.
    split; [exact S1|]. split; [exact S2|].
    assert (E1 : w1 = write_muted false
                        (toggleMute (st recording_world) recording_world))
      by (vm_compute in S1; injection S1 as <-; vm_compute; reflexivity).
    split; [rewrite E1; vm_compute; reflexivity|].
    split; [rewrite Hss; vm_compute; reflexivity|].
    split; [exact Hst|]. split; [exact Hss|].
    rewrite Hmu. vm_compute; reflexivity.
Defined.

End ImprovedVideoChatSpec.

(** * Properties of the chat page *)

Module VideoChatSpec.
Import VideoChatSession.
Local Open Scope list_scope.

Lemma chat_run_preserves (P : World -> Prop) :
  (forall e w w', P w -> step e w = Some w' -> P w') ->
  forall es w w', P w -> run es w = Some w' -> P w'.
Proof.
  intros Hstep es.
  induction es as [|e es IH]; intros w w' Hw Hrun; simpl in Hrun.
  - congruence.
  - destruct (step e w) as [w1|] eqn:He; [|discriminate].
    eapply IH; [|exact Hrun]. eapply Hstep; eauto.
Qed.

Lemma chat_commit_frame before w :
  vc (commit before w) = vc w /\
  media_requests (commit before w) = media_requests w /\
  videoRef (commit before w) = videoRef w.
Proof.
  unfold commit, timer_effect, timer_cleanup.
  destruct (Bool.eqb _ _), (VideoChat.isRecording (st w)) eqn:E,
    (timerRef w) eqn:Et; cbn; unfold st in *; cbn; rewrite ?E, ?Et; cbn;
    repeat split; reflexivity.
Qed.

Lemma one_session_view w w' :
  vc w' = vc w -> media_requests w' = media_requests w ->
  one_session w -> one_session w'.
Proof.
  unfold one_session, st, streamRef, streams. intros -> ->. auto.
Qed.

Lemma live_set_audio_enabled b (s : MediaStream) :
  existsb live (set_audio_enabled b s) = existsb live s.
Proof.
  induction s as [|t s IH]; [reflexivity|].
  unfold set_audio_enabled in *. cbn [map existsb]. rewrite IH.
  destruct (is_audio t); reflexivity.
Qed.

Lemma live_stop_all_tracks (s : MediaStream) :
  existsb live (stop_all_tracks s) = false.
Proof. induction s as [|t s IH]; [reflexivity | exact IH]. Qed.

Lemma lookup_snoc_Some {A} (l : list A) x i s :
  (l ++ [x]) !! i = Some s ->
  l !! i = Some s \/ (i = length l /\ s = x).
Proof.
  intros H. apply lookup_app_Some in H as [H | [Hge H]]; [auto|].
  right. destruct (i - length l) eqn:E; cbn in H; [|discriminate].
  injection H as <-. split; [lia | reflexivity].
Qed.

Ltac open_world w :=
  destruct w as [[[rc tm mu ld ms] r ss] v t iv mr c];
  unfold one_session, st, streamRef, streams in *; cbn in *; subst.

Lemma step_one_session e w w' :
  one_session w -> step e w = Some w' -> one_session w'.
Proof.
  intros Hinv H. destruct e; unfold step in H; cbn zeta in H.
  - (* ClickStartStop *)
    destruct (VideoChat.isLoading (st w)) eqn:Hload; [discriminate|].
    destruct (VideoChat.isRecording (st w)) eqn:Hrec; injection H as <-.
    + (* stop *)
      destruct (chat_commit_frame true (stopWebcam now w)) as (Ev & Em & _).
      apply (one_session_view (stopWebcam now w)); try assumption.
      destruct Hinv as (K1 & K2 & K3 & K4).
      open_world w.
      assert (Hdead : forall i s,
                match r with
                | Some sid => alter stop_all_tracks sid ss
                | None => ss
                end !! i = Some s -> existsb live s = true -> False).
      { intros i s Hs Hl. destruct r as [sid|].
        - destruct (decide (sid = i)) as [->|Hne].
          + rewrite list_lookup_alter_eq in Hs.
            destruct (ss !! i); [|discriminate]. injection Hs as <-.
            rewrite live_stop_all_tracks in Hl. discriminate.
          + rewrite list_lookup_alter_ne in Hs by exact Hne.
            destruct (K4 i s Hs Hl) as [E _]. congruence.
        - destruct (K4 i s Hs Hl) as [E _]. discriminate. }
      destruct r as [sid|], v as [v|]; cbn;
        (split; [discriminate|]); (split; [exact K2|]);
        (split; [reflexivity|]); intros i s Hs Hl; exfalso; eauto.
    + (* start *)
      destruct Hinv as (K1 & K2 & K3 & K4).
      open_world w.
      split; [reflexivity|]. split; [|split; [exact K3|]].
      * intros i Hi. split; [reflexivity|]. intros j Hj.
        apply lookup_snoc_Some in Hi as [Hi | [-> _]];
          [destruct (K2 i Hi); discriminate|].
        apply lookup_snoc_Some in Hj as [Hj | [-> _]];
          [destruct (K2 j Hj); discriminate | reflexivity].
      * intros i s Hs Hl. destruct (K4 i s Hs Hl) as [_ E]. discriminate.
  - (* MediaGranted *)
    destruct (media_requests w !! i) as [[|]|] eqn:Hreq; try discriminate.
    injection H as <-.
    match goal with
    | |- one_session (commit ?b ?w1) =>
        destruct (chat_commit_frame b w1) as (Ev & Em & _);
        apply (one_session_view w1); try assumption
    end.
    destruct Hinv as (K1 & K2 & K3 & K4).
    destruct (K2 i Hreq) as [Hload Huniq].
    pose proof (K1 Hload) as Hrec. pose proof (K3 Hrec) as Hnone.
    open_world w.
    assert (Hreqs : forall j, <[i:=false]> mr !! j = Some true -> False).
    { intros j Hj. apply AppSpec.lookup_insert_false_true in Hj as [Hj Hne].
      specialize (Huniq j Hj). congruence. }
    assert (Hlive : forall j s, (ss ++ [fresh_stream tracks]) !! j = Some s ->
                      existsb live s = true -> Some (length ss) = Some j /\ true = true).
    { intros j s Hs Hl. apply lookup_snoc_Some in Hs as [Hs | [-> _]]; [|auto].
      destruct (K4 j s Hs Hl). discriminate. }
    destruct v as [v|]; cbn;
      (split; [discriminate|]);
      (split; [intros j Hj; exfalso; eauto|]);
      (split; [discriminate|]); exact Hlive.
  - (* MediaDenied *)
    destruct (media_requests w !! i) as [[|]|] eqn:Hreq; try discriminate.
    injection H as <-.
    destruct Hinv as (K1 & K2 & K3 & K4).
    destruct (K2 i Hreq) as [Hload Huniq].
    pose proof (K1 Hload) as Hrec.
    open_world w.
    split; [discriminate|]. split; [|split; [exact K3 | exact K4]].
    intros j Hj. exfalso. apply AppSpec.lookup_insert_false_true in Hj as [Hj Hne].
    specialize (Huniq j Hj). congruence.
  - (* ClickMute *)
    destruct (VideoChat.isRecording (st w)) eqn:Hrec; [|discriminate].
    injection H as <-.
    destruct Hinv as (K1 & K2 & K3 & K4).
    destruct w as [[[rc tm mu ld ms] r ss] v t iv mr c].
    unfold one_session, st, streamRef, streams, toggleMute,
      VideoChat.toggleMute in *.
    cbn in *. subst.
    destruct r as [sid|]; cbn; [|auto].
    split; [exact K1|]. split; [exact K2|]. split; [discriminate|].
    intros i s Hs Hl. destruct (decide (sid = i)) as [->|Hne]; [auto|].
    rewrite list_lookup_alter_ne in Hs by exact Hne. eauto.
  - (* IntervalFired *)
    destruct (intervals w !! id) as [[|]|] eqn:Hid; try discriminate.
    injection H as <-.
    destruct Hinv as (K1 & K2 & K3 & K4).
    destruct w as [[[rc tm mu ld ms] r ss] v t iv mr c].
    unfold one_session, st, streamRef, streams in *. cbn in *.
    auto.
Qed.

Lemma reachable_one_session w : reachable w -> one_session w.
Proof.
  intros (now & es & Hes).
  eapply chat_run_preserves; [apply step_one_session| |exact Hes].
  unfold one_session. cbn. repeat split; try discriminate; intros; discriminate.
Qed.

(** X14 - The chat page holds one camera session at most: in every
    reachable world at most one stream has a live track, and it is the
    one [streamRef] names; there is none unless the page is recording;
    at most one permission request is pending; and while the page is
    loading it is not recording and the start/stop and mute buttons do
    nothing. *)
Theorem at_most_one_live_stream w :
  reachable w ->
  (forall i j si sj,
     streams w !! i = Some si -> streams w !! j = Some sj ->
     existsb live si = true -> existsb live sj = true ->
     i = j /\ streamRef w = Some i) /\
  (VideoChat.isRecording (st w) = false ->
   forall i s, streams w !! i = Some s -> existsb live s = false) /\
  (forall i j,
     media_requests w !! i = Some true -> media_requests w !! j = Some true ->
     i = j) /\
  (VideoChat.isLoading (st w) = true ->
   VideoChat.isRecording (st w) = false /\
   (forall now, step (ClickStartStop now) w = None) /\
   step ClickMute w = None).
Proof.
  intros Hreach.
  destruct (reachable_one_session w Hreach) as (K1 & K2 & K3 & K4).
  split; [|split; [|split]].
  - intros i j si sj Hi Hj Li Lj.
    destruct (K4 i si Hi Li) as [Ei _]. destruct (K4 j sj Hj Lj) as [Ej _].
    split; congruence.
  - intros Hrec i s Hs. apply not_true_is_false. intros Hl.
    destruct (K4 i s Hs Hl) as [_ E]. congruence.
  - intros i j Hi Hj. destruct (K2 i Hi) as [_ Hu]. auto.
  - intros Hload. pose proof (K1 Hload) as Hrec.
    unfold step. cbn zeta. rewrite Hload, Hrec. auto.
Qed.

Lemma count_text_snoc t ms m :
  count_text t (ms ++ [m]) =
  count_text t ms + (if String.eqb (VideoChat.text m) t then 1 else 0).
Proof.
  unfold count_text. rewrite List.filter_app, length_app. cbn.
  destruct (String.eqb _ _); reflexivity.
Qed.

Lemma messages_commit before w :
  VideoChat.messages (st (commit before w)) = VideoChat.messages (st w) /\
  VideoChat.isRecording (st (commit before w)) = VideoChat.isRecording (st w).
Proof.
  destruct (chat_commit_frame before w) as (E & _). unfold st. rewrite E. auto.
Qed.

Lemma step_messages e w w' :
  step e w = Some w' ->
  exists more,
    VideoChat.messages (st w') = VideoChat.messages (st w) ++ more /\
    length more <= 1.
Proof.
  intros H. destruct e; unfold step in H; cbn zeta in H.
  - destruct (VideoChat.isLoading (st w)); [discriminate|].
    destruct (VideoChat.isRecording (st w)); injection H as <-.
    + destruct (messages_commit true (stopWebcam now w)) as [-> _].
      exists [system_message "Recording stopped." now]. split; [|cbn; lia].
      destruct w as [[[rc tm mu ld ms] [sid|] ss] [v|] t iv mr c]; reflexivity.
    + exists []. split; [|cbn; lia]. cbn. rewrite app_nil_r. reflexivity.
  - destruct (media_requests w !! i) as [[|]|]; try discriminate.
    injection H as <-.
    match goal with
    | |- context [commit ?b ?w1] =>
        destruct (messages_commit b w1) as [-> _]
    end.
    exists [system_message "Recording started." now]. split; [|cbn; lia].
    destruct w as [[[rc tm mu ld ms] r ss] [v|] t iv mr c]; reflexivity.
  - destruct (media_requests w !! i) as [[|]|]; try discriminate.
    injection H as <-.
    exists [system_message ("Error accessing webcam: " ++ error_text err) now].
    split; [reflexivity | cbn; lia].
  - destruct (VideoChat.isRecording (st w)); [|discriminate].
    injection H as <-. exists []. split; [|cbn; lia]. rewrite app_nil_r.
    destruct w as [[[rc tm mu ld ms] [sid|] ss] v t iv mr c]; reflexivity.
  - destruct (intervals w !! id) as [[|]|]; try discriminate.
    injection H as <-. exists []. split; [|cbn; lia]. rewrite app_nil_r.
    reflexivity.
Qed.

Lemma step_log_balanced e w w' :
  one_session w -> log_balanced w -> step e w = Some w' -> log_balanced w'.
Proof.
  intros (K1 & K2 & _) Hlog H. unfold log_balanced in *.
  destruct e; unfold step in H; cbn zeta in H.
  - destruct (VideoChat.isLoading (st w)); [discriminate|].
    destruct (VideoChat.isRecording (st w)) eqn:Hrec; injection H as <-.
    + destruct (messages_commit true (stopWebcam now w)) as [-> ->].
      assert (E : VideoChat.messages (st (stopWebcam now w)) =
                  VideoChat.messages (st w) ++
                  [system_message "Recording stopped." now] /\
                  VideoChat.isRecording (st (stopWebcam now w)) = false)
        by (destruct w as [[[rc tm mu ld ms] [sid|] ss] [v|] t iv mr c];
            split; reflexivity).
      destruct E as [-> ->]. rewrite !count_text_snoc. cbn. lia.
    + cbn. cbn in Hrec. rewrite Hrec. exact Hlog.
  - destruct (media_requests w !! i) as [[|]|] eqn:Hreq; try discriminate.
    injection H as <-.
    destruct (K2 i Hreq) as [Hload _]. pose proof (K1 Hload) as Hrec.
    match goal with
    | |- context [commit ?b ?w1] =>
        destruct (messages_commit b w1) as [-> ->]
    end.
    match goal with
    | |- context [startWebcam_granted ?s ?n ?w1] =>
        assert (E : VideoChat.messages (st (startWebcam_granted s n w1)) =
                    VideoChat.messages (st w) ++
                    [system_message "Recording started." n] /\
                    VideoChat.isRecording (st (startWebcam_granted s n w1)) = true)
          by (destruct w as [[[rc tm mu ld ms] r ss] [v|] t iv mr c];
              split; reflexivity)
    end.
    destruct E as [-> ->]. rewrite !count_text_snoc. rewrite Hrec in Hlog.
    cbn. lia.
  - destruct (media_requests w !! i) as [[|]|] eqn:Hreq; try discriminate.
    injection H as <-.
    change (VideoChat.messages (st (startWebcam_denied err now _)))
      with (VideoChat.messages (st w) ++
            [system_message ("Error accessing webcam: " ++ error_text err) now]).
    change (VideoChat.isRecording (st (startWebcam_denied err now _)))
      with (VideoChat.isRecording (st w)).
    rewrite !count_text_snoc. cbn. lia.
  - destruct (VideoChat.isRecording (st w)) eqn:Hrec; [|discriminate].
    injection H as <-.
    destruct w as [[[rc tm mu ld ms] [sid|] ss] v t iv mr c]; cbn in *;
      subst; exact Hlog.
  - destruct (intervals w !! id) as [[|]|]; try discriminate.
    injection H as <-. exact Hlog.
Qed.

Lemma reachable_log_balanced w : reachable w -> log_balanced w.
Proof.
  intros (now & es & Hes).
  assert (one_session w /\ log_balanced w) as [_ H]; [|exact H].
  eapply (chat_run_preserves (fun w => one_session w /\ log_balanced w));
    [| |exact Hes].
  - intros e w0 w1 [Ho Hl] Hs. split.
    + eapply step_one_session; eauto.
    + eapply step_log_balanced; eauto.
  - split; [|reflexivity].
    unfold one_session. cbn. repeat split; try discriminate; intros; discriminate.
Qed.

(** X15 - The conversation log of the chat page records every session:
    it holds one "Recording started." more than "Recording stopped."
    exactly while the page is recording and equally many otherwise;
    an event appends at most one message and changes none; and the three
    messages the log starts with stay at its head. *)
Theorem log_records_every_session w :
  reachable w ->
  log_balanced w /\
  (forall e w', step e w = Some w' ->
     exists more,
       VideoChat.messages (st w') = VideoChat.messages (st w) ++ more /\
       length more <= 1) /\
  (exists now more,
     VideoChat.messages (st w) = initial_messages now ++ more).
Proof.
  intros Hreach. split; [exact (reachable_log_balanced w Hreach)|].
  split; [intros e w'; apply step_messages|].
  destruct Hreach as (now & es & Hes). exists now.
  eapply (chat_run_preserves
            (fun w => exists more,
               VideoChat.messages (st w) = initial_messages now ++ more));
    [| |exact Hes].
  - intros e w0 w1 [more Hm] He.
    destruct (step_messages e w0 w1 He) as (m2 & -> & _).
    rewrite Hm, <- app_assoc. eauto.
  - exists []. reflexivity.
Qed.

Lemma chat_commit_clean before w :
  (before = false -> forall id, intervals w !! id = Some true -> False) ->
  (forall id, intervals w !! id = Some true -> timerRef w = Some id) ->
  let w' := commit before w in
  (VideoChat.isRecording (st w) = false ->
   forall id, intervals w' !! id = Some true -> False) /\
  (forall id, intervals w' !! id = Some true -> timerRef w' = Some id).
Proof.
  intros Hoff Href. unfold commit.
  destruct (Bool.eqb before (VideoChat.isRecording (st w))) eqn:Heq.
  - apply eqb_prop in Heq. subst before. split; auto.
  - apply eqb_false_iff in Heq.
    unfold timer_effect, timer_cleanup.
    destruct (VideoChat.isRecording (st w)) eqn:Hrec; destruct before;
      try congruence.
    + destruct (timerRef w) as [old|] eqn:Hold; unfold st in *; cbn;
        rewrite Hrec; cbn; (split; [discriminate|]); intros id Hid.
      * apply lookup_snoc_Some in Hid as [Hid | [-> _]].
        -- apply AppSpec.lookup_insert_false_true in Hid as [Hid _]. exfalso. eapply Hoff; eauto.
        -- reflexivity.
      * apply lookup_snoc_Some in Hid as [Hid | [-> _]].
        -- exfalso. eapply Hoff; eauto.
        -- reflexivity.
    + destruct (timerRef w) as [old|] eqn:Hold; unfold st in *; cbn;
        rewrite Hrec; cbn; rewrite ?Hold; cbn; split; intros.
      all: repeat match goal with
                  | G : <[_ := false]> _ !! _ = Some true |- _ =>
                      apply AppSpec.lookup_insert_false_true in G as [G ?]
                  end.
      all: match goal with
           | G : intervals _ !! _ = Some true |- _ => apply Href in G
           end; try exfalso; congruence.
Qed.

Lemma stopWebcam_frame now w :
  let w' := stopWebcam now w in
  intervals w' = intervals w /\ timerRef w' = timerRef w /\
  VideoChat.isRecording (st w') = false /\ VideoChat.isMuted (st w') = false /\
  VideoChat.recordingTime (st w') = 0 /\ streamRef w' = None.
Proof.
  destruct w as [[[rc tm mu ld ms] r ss] v t iv mr c].
  unfold stopWebcam.
  destruct r as [sid|], v as [v|]; repeat split; reflexivity.
Qed.

Lemma startWebcam_granted_frame stream now w :
  let w' := startWebcam_granted stream now w in
  intervals w' = intervals w /\ timerRef w' = timerRef w /\
  VideoChat.isRecording (st w') = true.
Proof.
  destruct w as [[[rc tm mu ld ms] r ss] [v|] t iv mr c];
    repeat split; reflexivity.
Qed.

Lemma chat_step_idle_is_clean e w w' :
  idle_is_clean w -> step e w = Some w' -> idle_is_clean w'.
Proof.
  intros (Hidle & Href) H. destruct e; unfold step in H; cbn zeta in H.
  - (* ClickStartStop *)
    destruct (VideoChat.isLoading (st w)); [discriminate|].
    destruct (VideoChat.isRecording (st w)) eqn:Hrec; injection H as <-.
    + destruct (stopWebcam_frame now w) as (Fi & Ft & Fr & Fm & Fc & Fs).
      destruct (chat_commit_frame true (stopWebcam now w)) as (Ev & _).
      destruct (chat_commit_clean true (stopWebcam now w)) as (Hoff & Hr).
      * discriminate.
      * rewrite Fi, Ft. exact Href.
      * split; [|exact Hr]. intros _. unfold st in *. rewrite Ev.
        repeat split; try assumption. exact (Hoff Fr).
    + split; [|exact Href]. intros _.
      destruct (Hidle eq_refl) as (Hm & Ht & Hi). repeat split; auto.
  - (* MediaGranted *)
    destruct (media_requests w !! i) as [[|]|] eqn:Hreq; try discriminate.
    injection H as <-.
    match goal with
    | |- idle_is_clean (commit ?b (startWebcam_granted ?s ?n ?w0)) =>
        destruct (startWebcam_granted_frame s n w0) as (Fi & Ft & Fr);
        destruct (chat_commit_frame b (startWebcam_granted s n w0)) as (Ev & _);
        destruct (chat_commit_clean b (startWebcam_granted s n w0)) as (Hoff & Hr)
    end.
    + intros Hb id Hid. destruct (Hidle Hb) as (_ & _ & Hi).
      eapply Hi. rewrite Fi in Hid. exact Hid.
    + rewrite Fi, Ft. exact Href.
    + split; [|exact Hr]. intros Hrec. unfold st in *. rewrite Ev in Hrec.
      congruence.
  - (* MediaDenied *)
    destruct (media_requests w !! i) as [[|]|] eqn:Hreq; try discriminate.
    injection H as <-. split; [|exact Href]. exact Hidle.
  - (* ClickMute *)
    destruct (VideoChat.isRecording (st w)) eqn:Hrec; [|discriminate].
    injection H as <-.
    assert (F : intervals (toggleMute (st w) w) = intervals w /\
                timerRef (toggleMute (st w) w) = timerRef w /\
                VideoChat.isRecording (st (toggleMute (st w) w)) =
                VideoChat.isRecording (st w))
      by (destruct w as [[[rc tm mu ld ms] [sid|] ss] v t iv mr c];
          repeat split; reflexivity).
    destruct F as (Fi & Ft & Fr). split.
    + intros Hf. congruence.
    + rewrite Fi, Ft. exact Href.
  - (* IntervalFired *)
    destruct (intervals w !! id) as [[|]|] eqn:Hid; try discriminate.
    injection H as <-. split; [|exact Href].
    intros Hrec. exfalso. destruct (Hidle Hrec) as (_ & _ & Hi). eauto.
Qed.

Lemma chat_reachable_idle_is_clean w : reachable w -> idle_is_clean w.
Proof.
  intros (now & es & Hes).
  eapply chat_run_preserves; [apply chat_step_idle_is_clean| |exact Hes].
  split; [intros _; repeat split; auto|]; intros id Hid; discriminate.
Qed.

(** X16 - Whenever the chat page is not recording, in any reachable
    world, it is not muted, its clock is at zero, no stream is
    referenced, no track of any stream is live and no interval runs. *)
Theorem idle_chat_holds_nothing w :
  reachable w ->
  VideoChat.isRecording (st w) = false ->
  VideoChat.isMuted (st w) = false /\
  VideoChat.recordingTime (st w) = 0 /\
  streamRef w = None /\
  (forall i s t, streams w !! i = Some s -> t ∈ s -> live t = false) /\
  (forall id, intervals w !! id = Some true -> False).
Proof.
  intros Hreach Hrec.
  destruct (chat_reachable_idle_is_clean w Hreach) as [Hidle _].
  destruct (reachable_one_session w Hreach) as (_ & _ & K3 & K4).
  destruct (Hidle Hrec) as (Hm & Ht & Hi).
  repeat split; auto.
  intros i s t Hs Hin. apply not_true_is_false. intros Hl.
  assert (Hex : existsb live s = true).
  { apply existsb_exists. exists t. split; [apply list_elem_of_In, Hin | exact Hl]. }
  destruct (K4 i s Hs Hex) as [_ E]. congruence.
Qed.

(** X17 - Unmounting the chat page from any reachable world leaves no
    live track in any stream and no interval running; the clean-up does
    not reset [streamRef]. *)
Theorem unmount_stops_every_track w :
  reachable w ->
  (forall i s t, streams (unmount w) !! i = Some s -> t ∈ s -> live t = false) /\
  (forall id, intervals (unmount w) !! id = Some true -> False) /\
  streamRef (unmount w) = streamRef w.
Proof.
  intros Hreach.
  destruct (chat_reachable_idle_is_clean w Hreach) as [_ Href].
  destruct (reachable_one_session w Hreach) as (_ & _ & _ & K4).
  assert (E : streams (unmount w) =
              match streamRef w with
              | Some sid => alter stop_all_tracks sid (streams w)
              | None => streams w
              end /\
              intervals (unmount w) =
              match timerRef w with
              | Some t => <[t := false]> (intervals w)
              | None => intervals w
              end /\
              streamRef (unmount w) = streamRef w)
    by (destruct w as [[[rc tm mu ld ms] [sid|] ss] v [t|] iv mr c];
        repeat split; reflexivity).
  destruct E as (Es & Ei & Er). rewrite Es, Ei, Er.
  split; [|split; [|reflexivity]].
  - intros i s t Hs Hin. apply not_true_is_false. intros Hl.
    assert (Hex : existsb live s = true).
    { apply existsb_exists. exists t.
      split; [apply list_elem_of_In, Hin | exact Hl]. }
    destruct (streamRef w) as [sid|] eqn:Hr.
    + destruct (decide (sid = i)) as [->|Hne].
      * rewrite list_lookup_alter_eq in Hs.
        destruct (streams w !! i); [|discriminate]. injection Hs as <-.
        rewrite live_stop_all_tracks in Hex. discriminate.
      * rewrite list_lookup_alter_ne in Hs by exact Hne.
        destruct (K4 i s Hs Hex) as [E _]. congruence.
    + destruct (K4 i s Hs Hex) as [E _]. congruence.
  - intros id Hid. destruct (timerRef w) as [t|] eqn:Et.
    + apply AppSpec.lookup_insert_false_true in Hid as [Hid Hne]. apply Href in Hid. congruence.
    + apply Href in Hid. congruence.
Qed.

Lemma at_most_one_live_stream_witness :
  (VideoChat.isRecording (st stopped_world) = false ->
   forall i s, streams stopped_world !! i = Some s ->
               existsb live s = false) /\
  (forall i j,
     media_requests recording_world !! i = Some true ->
     media_requests recording_world !! j = Some true -> i = j).
Proof.
  destruct (at_most_one_live_stream stopped_world) as (_ & Hnone & _).
  - exists 0, (camera_session ++ [ClickStartStop 3]). vm_compute; reflexivity.
  - destruct (at_most_one_live_stream recording_world) as (_ & _ & Hreq & _).
    + exists 0, camera_session. vm_compute; reflexivity.
    + split; [exact Hnone | exact Hreq].
Defined.

Lemma log_records_every_session_witness :
  count_text "Recording started." (VideoChat.messages (st stopped_world)) = 1 /\
  count_text "Recording stopped." (VideoChat.messages (st stopped_world)) = 1.
Proof.
  destruct (log_records_every_session stopped_world) as (Hlog & _).
  - exists 0, (camera_session ++ [ClickStartStop 3]). vm_compute; reflexivity.
  - unfold log_balanced in Hlog. split; [rewrite Hlog|]; vm_compute; reflexivity.
Defined.

Lemma idle_chat_holds_nothing_witness :
  VideoChat.isMuted (st stopped_world) = false /\
  VideoChat.recordingTime (st stopped_world) = 0 /\
  streamRef stopped_world = None /\
  (forall i s t, streams stopped_world !! i = Some s -> t ∈ s ->
                 live t = false) /\
  (forall id, intervals stopped_world !! id = Some true -> False).
Proof.
  apply idle_chat_holds_nothing.
  - exists 0, (camera_session ++ [ClickStartStop 3]). vm_compute; reflexivity.
  - vm_compute; reflexivity.
Defined.

Lemma unmount_stops_every_track_witness :
  (forall i s t, streams (unmount recording_world) !! i = Some s -> t ∈ s ->
                 live t = false) /\
  (forall id, intervals (unmount recording_world) !! id = Some true -> False) /\
  streamRef (unmount recording_world) = streamRef recording_world.
Proof.
  apply unmount_stops_every_track.
  exists 0, camera_session. vm_compute; reflexivity.
Defined.

End VideoChatSpec.

(** * Muting *)

Module MuteSpec.
Local Open Scope list_scope.

Lemma fresh_stream_enabled tracks t :
  t ∈ fresh_stream tracks -> enabled t = true.
Proof.
  unfold fresh_stream. intros H.
  apply list_elem_of_In, in_map_iff in H as (k & <- & _). reflexivity.
Qed.

Lemma set_audio_enabled_elem b (s : MediaStream) t :
  t ∈ set_audio_enabled b s -> kind t = Audio -> enabled t = b.
Proof.
  unfold set_audio_enabled. intros H Hk.
  apply list_elem_of_In, in_map_iff in H as (t0 & <- & _).
  unfold is_audio in *. destruct t0 as [[] e l]; cbn in *;
    [reflexivity | discriminate].
Qed.

Section Chat.
Import VideoChatSession.

Lemma audio_in_step_view w w' :
  vc w' = vc w -> audio_in_step w -> audio_in_step w'.
Proof. unfold audio_in_step, st, streamRef, streams. intros ->. auto. Qed.

Lemma step_audio_in_step e w w' :
  one_session w -> idle_is_clean w -> audio_in_step w ->
  step e w = Some w' -> audio_in_step w'.
Proof.
  intros (K1 & K2 & K3 & K4) (Hidle & _) Hinv H.
  destruct e; unfold step in H; cbn zeta in H.
  - (* ClickStartStop *)
    destruct (VideoChat.isLoading (st w)); [discriminate|].
    destruct (VideoChat.isRecording (st w)) eqn:Hrec; injection H as <-.
    + destruct (VideoChatSpec.chat_commit_frame true (stopWebcam now w))
        as (Ev & _).
      apply (audio_in_step_view (stopWebcam now w)); [exact Ev|].
      destruct (VideoChatSpec.stopWebcam_frame now w)
        as (_ & _ & _ & _ & _ & Hnone).
      intros sid s t Hsid. rewrite Hnone in Hsid. discriminate.
    + destruct w as [[[rc tm mu ld ms] r ss] v t iv mr c]. exact Hinv.
  - (* MediaGranted *)
    destruct (media_requests w !! i) as [[|]|] eqn:Hreq; try discriminate.
    injection H as <-.
    match goal with
    | |- audio_in_step (commit ?b ?w1) =>
        destruct (VideoChatSpec.chat_commit_frame b w1) as (Ev & _);
        apply (audio_in_step_view w1); [exact Ev|]
    end.
    destruct (K2 i Hreq) as [Hload _].
    destruct (Hidle (K1 Hload)) as (Hm & _).
    destruct w as [[[rc tm mu ld ms] r ss] [v|] t iv mr c];
      unfold audio_in_step, st, streamRef, streams in *; cbn in *; subst mu.
    all: intros sid s t0 [= <-] Hs Hin _.
    all: rewrite list_lookup_middle in Hs by reflexivity.
    all: injection Hs as <-.
    all: apply (fresh_stream_enabled tracks), Hin.
  - (* MediaDenied *)
    destruct (media_requests w !! i) as [[|]|] eqn:Hreq; try discriminate.
    injection H as <-.
    destruct w as [[[rc tm mu ld ms] r ss] v t iv mr c]. exact Hinv.
  - (* ClickMute *)
    destruct (VideoChat.isRecording (st w)); [|discriminate].
    injection H as <-.
    destruct w as [[[rc tm mu ld ms] [r|] ss] v t iv mr c];
      unfold audio_in_step, st, streamRef, streams, toggleMute,
        VideoChat.toggleMute in *; cbn in *; [|exact Hinv].
    intros sid s t0 [= <-] Hs Hin Hk.
    rewrite list_lookup_alter_eq in Hs.
    destruct (ss !! r) as [s0|]; [|discriminate]. injection Hs as <-.
    rewrite negb_involutive. eapply set_audio_enabled_elem; eauto.
  - (* IntervalFired *)
    destruct (intervals w !! id) as [[|]|]; try discriminate.
    injection H as <-.
    destruct w as [[[rc tm mu ld ms] r ss] v t iv mr c]. exact Hinv.
Qed.

Lemma reachable_audio_in_step w : reachable w -> audio_in_step w.
Proof.
  intros (now & es & Hes).
  assert (one_session w /\ idle_is_clean w /\ audio_in_step w)
    as (_ & _ & H); [|exact H].
  eapply (VideoChatSpec.chat_run_preserves
            (fun w => one_session w /\ idle_is_clean w /\ audio_in_step w));
    [| |exact Hes].
  - intros e w0 w1 (Ho & Hi & Ha) Hs. split; [|split].
    + eapply VideoChatSpec.step_one_session; eauto.
    + eapply VideoChatSpec.chat_step_idle_is_clean; eauto.
    + eapply step_audio_in_step; eauto.
  - split; [|split].
    + unfold one_session. cbn.
      repeat split; try discriminate; intros; discriminate.
    + split; [intros _; repeat split; auto|]; intros id Hid; discriminate.
    + intros sid s t Hsid. discriminate.
Qed.

End Chat.

(** C9 (as amended).  [toggleMute] with a stream, in both components:
    every audio track of the referenced stream gets [enabled] set to the
    [isMuted] of the render, at once; [isMuted] is negated; and nothing
    else changes: the ref still names the stream, no track is added,
    removed or ended, video tracks and the other streams are as before,
    the component is still recording.  (The handler leaves the video
    element alone; in the session page the re-render that follows it
    writes the new [isMuted] to the element's [muted] flag.)  That flips
    the flag of an audio track exactly when the flag was in step with
    [isMuted] (enabled when not muted).  In the chat page the flags are
    in step in every reachable world, so there a click on the mute
    button flips every audio track of the session. *)
Theorem toggleMute_flips_audio_in_step :
  ((forall (w : ImprovedVideoChat.World) sid s,
     ImprovedVideoChat.streamRef w = Some sid ->
     ImprovedVideoChat.streams w !! sid = Some s ->
     let w' := ImprovedVideoChat.toggleMute (ImprovedVideoChat.st w) w in
     let b := ImprovedVideoChat.isMuted (ImprovedVideoChat.st w) in
     ImprovedVideoChat.streamRef w' = Some sid /\
     ImprovedVideoChat.videoRef w' = ImprovedVideoChat.videoRef w /\
     ImprovedVideoChat.isRecording (ImprovedVideoChat.st w')
       = ImprovedVideoChat.isRecording (ImprovedVideoChat.st w) /\
     ImprovedVideoChat.isMuted (ImprovedVideoChat.st w') = negb b /\
     length (ImprovedVideoChat.streams w')
       = length (ImprovedVideoChat.streams w) /\
     (forall sid', sid' <> sid ->
        ImprovedVideoChat.streams w' !! sid'
        = ImprovedVideoChat.streams w !! sid') /\
     exists s',
       ImprovedVideoChat.streams w' !! sid = Some s' /\
       length s' = length s /\
       forall i t, s !! i = Some t ->
         exists t',
           s' !! i = Some t' /\ kind t' = kind t /\ live t' = live t /\
           (kind t = Audio ->
              enabled t' = b /\
              (enabled t = negb b -> enabled t' = negb (enabled t))) /\
           (kind t = Video -> t' = t)) /\
  (forall (w : VideoChat.World) sid s,
     VideoChat.streamRef w = Some sid ->
     VideoChat.streams w !! sid = Some s ->
     let w' := VideoChat.toggleMute (VideoChat.st w) w in
     let b := VideoChat.isMuted (VideoChat.st w) in
     VideoChat.streamRef w' = Some sid /\
     VideoChat.isRecording (VideoChat.st w')
       = VideoChat.isRecording (VideoChat.st w) /\
     VideoChat.isMuted (VideoChat.st w') = negb b /\
     length (VideoChat.streams w') = length (VideoChat.streams w) /\
     (forall sid', sid' <> sid ->
        VideoChat.streams w' !! sid' = VideoChat.streams w !! sid') /\
     exists s',
       VideoChat.streams w' !! sid = Some s' /\
       length s' = length s /\
       forall i t, s !! i = Some t ->
         exists t',
           s' !! i = Some t' /\ kind t' = kind t /\ live t' = live t /\
           (kind t = Audio ->
              enabled t' = b /\
              (enabled t = negb b -> enabled t' = negb (enabled t))) /\
           (kind t = Video -> t' = t))) /\
  (forall w, VideoChatSession.reachable w -> VideoChatSession.audio_in_step w) /\
  (forall w w' sid s,
     VideoChatSession.reachable w ->
     VideoChatSession.step VideoChatSession.ClickMute w = Some w' ->
     VideoChatSession.streamRef w = Some sid ->
     VideoChatSession.streams w !! sid = Some s ->
     VideoChat.isMuted (VideoChatSession.st w')
       = negb (VideoChat.isMuted (VideoChatSession.st w)) /\
     exists s',
       VideoChatSession.streams w' !! sid = Some s' /\
       length s' = length s /\
       forall i t, s !! i = Some t ->
         exists t',
           s' !! i = Some t' /\ kind t' = kind t /\ live t' = live t /\
           (kind t = Audio -> enabled t' = negb (enabled t)) /\
           (kind t = Video -> t' = t)).
Proof.
  split; [exact SessionSpec.toggleMute_sets_audio|].
  split; [apply reachable_audio_in_step|].
  intros w w' sid s Hreach Hstep Href Hs.
  pose proof (reachable_audio_in_step w Hreach) as Hin.
  destruct SessionSpec.toggleMute_sets_audio as [_ Hv].
  unfold VideoChatSession.step in Hstep. cbn zeta in Hstep.
  destruct (VideoChat.isRecording (VideoChatSession.st w)); [|discriminate].
  injection Hstep as <-.
  destruct (Hv (VideoChatSession.vc w) sid s Href Hs)
    as (_ & _ & Hm & _ & _ & s' & Hs' & Hlen & Htracks).
  split; [exact Hm|].
  exists s'. split; [exact Hs'|]. split; [exact Hlen|].
  intros i t Ht.
  destruct (Htracks i t Ht) as (t' & Ht' & Hk & Hl & Ha & Hvid).
  exists t'. repeat split; try assumption.
  intros Haudio. destruct (Ha Haudio) as [_ Hflip]. apply Hflip.
  apply (Hin sid s t Href Hs); [|exact Haudio].
  apply list_elem_of_lookup. eauto.
Qed.

(** C9, as stated, fails in the session page: after two clicks on start,
    a mute during the first session and the grant of the second request,
    the page is muted while the audio track of the stream it now refers
    to is enabled; a click on the mute button then unmutes the page and
    leaves the track enabled: nothing is flipped. *)
Lemma toggleMute_out_of_step_does_not_flip :
  exists w w',
    ImprovedVideoChatSession.run ImprovedVideoChatSession.double_start_muted
      ImprovedVideoChat.mounted = Some w /\
    ImprovedVideoChat.streamRef w = Some 1 /\
    ImprovedVideoChat.isMuted (ImprovedVideoChat.st w) = true /\
    ImprovedVideoChat.streams w !! 1 = Some (fresh_stream [Audio; Video]) /\
    (enabled <$> fresh_stream [Audio; Video] !! 0) = Some true /\
    ImprovedVideoChatSession.step ImprovedVideoChatSession.ClickMute w
      = Some w' /\
    ImprovedVideoChat.isMuted (ImprovedVideoChat.st w') = false /\
    ImprovedVideoChat.streams w' !! 1 = Some (fresh_stream [Audio; Video]).
Proof.
  do 2 eexists.
  split; [vm_compute; reflexivity|].
  split; [vm_compute; reflexivity|].
  split; [vm_compute; reflexivity|].
  split; [vm_compute; reflexivity|].
  split; [vm_compute; reflexivity|].
  split; [vm_compute; reflexivity|].
  split; vm_compute; reflexivity.
Qed.

Lemma toggleMute_flips_audio_in_step_witness :
  (enabled <$> fresh_stream [Audio; Video] !! 0) = Some true /\
  VideoChatSession.streams VideoChatSession.recording_world !! 0
    = Some (fresh_stream [Audio; Video]) /\
  exists w' s' a v,
    VideoChatSession.step VideoChatSession.ClickMute
      VideoChatSession.recording_world = Some w' /\
    VideoChatSession.streams w' !! 0 = Some s' /\
    s' !! 0 = Some a /\ kind a = Audio /\ enabled a = false /\
    s' !! 1 = Some v /\ v = fresh_track Video /\
    VideoChat.isMuted (VideoChatSession.st w') = true.
Proof.
  split; [vm_compute; reflexivity|].
  split; [vm_compute; reflexivity|].
  destruct toggleMute_flips_audio_in_step as (_ & _ & Hflip).
  eexists.
  match goal with
  | |- exists s' a v, ?step = Some ?w' /\ _ =>
      assert (Hstep : step = Some w') by (vm_compute; reflexivity);
      destruct (Hflip VideoChatSession.recording_world w' 0
                  (fresh_stream [Audio; Video]))
        as (Hm & s' & Hs' & _ & Htracks)
  end.
  - exists 0, VideoChatSession.camera_session. vm_compute; reflexivity.
  - exact Hstep.
  - vm_compute; reflexivity.
  - vm_compute; reflexivity.
  - destruct (Htracks 0 (fresh_track Audio) eq_refl)
      as (a & Ha & Hka & _ & Hea & _).
    destruct (Htracks 1 (fresh_track Video) eq_refl)
      as (v & Hv & _ & _ & _ & Hvv).
    exists s', a, v.
    split; [exact Hstep|]. split; [exact Hs'|]. split; [exact Ha|].
    split; [exact Hka|]. split; [exact (Hea eq_refl)|].
    split; [exact Hv|]. split; [exact (Hvv eq_refl)|].
    rewrite Hm. vm_compute; reflexivity.
Defined.

End MuteSpec.

(** * Properties of the code editor *)

Module EditorSpec.
Import EnhancedCodeEditor.
Local Open Scope list_scope.

(** ** Strings as lists of code units *)

Lemma stdlib_substring_list n m s :
  list_ascii_of_string (String.substring n m s) =
  firstn m (skipn n (list_ascii_of_string s)).
Proof.
  revert n m. induction s as [|c s IH]; intros n m.
  - destruct n, m; reflexivity.
  - destruct n as [|n].
    + destruct m as [|m]; [reflexivity|]. cbn. f_equal. apply IH.
    + cbn. apply IH.
Qed.

Lemma length_list_ascii s :
  length (list_ascii_of_string s) = String.length s.
Proof. induction s as [|c s IH]; cbn; congruence. Qed.

Lemma list_ascii_app s t :
  list_ascii_of_string (s ++ t)%string =
  list_ascii_of_string s ++ list_ascii_of_string t.
Proof. induction s as [|c s IH]; cbn; congruence. Qed.

Lemma list_ascii_inj s t :
  list_ascii_of_string s = list_ascii_of_string t -> s = t.
Proof.
  intros H. rewrite <- (string_of_list_ascii_of_string s),
    <- (string_of_list_ascii_of_string t). congruence.
Qed.

Lemma substring_list a b s :
  a <= b ->
  list_ascii_of_string (substring a b s) =
  firstn (b - a) (skipn a (list_ascii_of_string s)).
Proof.
  intros Hab. unfold substring. rewrite stdlib_substring_list.
  rewrite <- (length_list_ascii s). set (l := list_ascii_of_string s).
  destruct (le_lt_dec a (length l)) as [Ha|Ha].
  - rewrite (Nat.min_l a) by lia.
    destruct (le_lt_dec b (length l)) as [Hb|Hb].
    + rewrite (Nat.min_l b), Nat.min_l, Nat.max_r by lia. reflexivity.
    + rewrite (Nat.min_r b), Nat.min_l, Nat.max_r by lia.
      rewrite !firstn_all2; [reflexivity| |]; rewrite length_skipn; lia.
  - rewrite (Nat.min_r a), (Nat.min_r b), Nat.min_l, Nat.max_r by lia.
    rewrite !skipn_all2 by lia. rewrite !firstn_nil. reflexivity.
Qed.

Lemma substring_from_list a s :
  list_ascii_of_string (substring_from a s) =
  skipn a (list_ascii_of_string s).
Proof.
  unfold substring_from. rewrite <- (length_list_ascii s).
  set (l := list_ascii_of_string s).
  destruct (le_lt_dec a (length l)) as [Ha|Ha].
  - subst l. rewrite length_list_ascii, substring_list
      by (rewrite <- length_list_ascii; exact Ha).
    rewrite <- length_list_ascii.
    apply firstn_all2. rewrite length_skipn. lia.
  - unfold substring. rewrite stdlib_substring_list.
    fold l. rewrite <- (length_list_ascii s). fold l.
    rewrite Nat.min_id, (Nat.min_r a), Nat.min_id, Nat.max_id by lia.
    rewrite Nat.sub_diag, skipn_all2 by lia. rewrite skipn_all2 by lia.
    reflexivity.
Qed.

Lemma tab_text_list start end_ code :
  list_ascii_of_string (tab_text start end_ code) =
  firstn start (list_ascii_of_string code) ++
  [" "%char; " "%char] ++ skipn end_ (list_ascii_of_string code).
Proof.
  unfold tab_text. rewrite !list_ascii_app, substring_from_list.
  rewrite substring_list by lia. rewrite Nat.sub_0_r, skipn_O. reflexivity.
Qed.

(** X18 - The text [handleTab] builds (in all three editors) for a
    selection inside the code: the selection is replaced by two spaces,
    what is before and behind it is kept, the length changes by two
    minus the length of the selection, and the cursor position the
    handler schedules, [start + 2], is just behind the two spaces. *)
Theorem handleTab_replaces_the_selection start end_ code :
  start <= end_ -> end_ <= String.length code ->
  let newCode := tab_text start end_ code in
  String.length newCode = String.length code - (end_ - start) + 2 /\
  substring 0 start newCode = substring 0 start code /\
  substring start (start + 2) newCode = "  " /\
  substring_from (start + 2) newCode = substring_from end_ code /\
  (code = substring 0 start code ++ substring start end_ code ++
          substring_from end_ code)%string.
Proof.
  intros Hse Hel. cbn zeta.
  rewrite <- (length_list_ascii code) in Hel.
  split.
  { rewrite <- !length_list_ascii, tab_text_list, !length_app, length_firstn,
      length_skipn. cbn. lia. }
  split.
  { apply list_ascii_inj. rewrite !substring_list by lia.
    rewrite tab_text_list, !Nat.sub_0_r, !skipn_O.
    rewrite firstn_app, firstn_firstn, Nat.min_id, length_firstn.
    replace (start - Nat.min start _) with 0 by lia.
    cbn. rewrite app_nil_r. reflexivity. }
  split.
  { apply list_ascii_inj. rewrite substring_list by lia.
    rewrite tab_text_list.
    rewrite skipn_app, length_firstn, skipn_firstn_comm.
    replace (start - start) with 0 by lia.
    replace (start - Nat.min start _) with 0 by lia.
    replace (start + 2 - start) with 2 by lia. reflexivity. }
  split.
  { apply list_ascii_inj. rewrite !substring_from_list, tab_text_list.
    rewrite skipn_app, length_firstn, skipn_firstn_comm.
    replace (start - (start + 2)) with 0 by lia.
    replace (start + 2 - Nat.min start _) with 2 by lia. reflexivity. }
  { apply list_ascii_inj. rewrite !list_ascii_app, substring_from_list.
    rewrite !substring_list by lia. rewrite Nat.sub_0_r, skipn_O.
    rewrite <- (firstn_skipn start (list_ascii_of_string code)) at 1.
    f_equal.
    rewrite <- (firstn_skipn (end_ - start)
                  (skipn start (list_ascii_of_string code))) at 1.
    f_equal. rewrite skipn_skipn. f_equal. lia. }
Qed.

Section Options.

Variable first : LanguageOption.
Variable rest : list LanguageOption.

Local Abbreviation step := (step first rest).
Local Abbreviation run := (run first rest).
Local Abbreviation mounted := (mounted first rest).
Local Abbreviation reachable := (reachable first rest).
Local Abbreviation find_language := (find_language first rest).
Local Abbreviation defaultLanguageOption := (defaultLanguageOption first rest).
Local Abbreviation in_step := (in_step first rest).
Local Abbreviation untouched := (untouched first rest).

#[local] Arguments EnhancedCodeEditor.find_language : simpl never.
#[local] Arguments EnhancedCodeEditor.defaultLanguageOption : simpl never.

Lemma editor_run_preserves (P : World -> Prop) :
  (forall e w w', P w -> step e w = Some w' -> P w') ->
  forall es w w', P w -> run es w = Some w' -> P w'.
Proof.
  intros Hstep es.
  induction es as [|e es IH]; intros w w' Hw Hrun; simpl in Hrun.
  - congruence.
  - destruct (EnhancedCodeEditor.step first rest e w) as [w1|] eqn:He;
      [|discriminate].
    eapply IH; [|exact Hrun]. eapply Hstep; eauto.
Qed.

Lemma find_language_first : find_language (value first) = Some first.
Proof.
  unfold EnhancedCodeEditor.find_language, languageOptions. cbn.
  rewrite String.eqb_refl. reflexivity.
Qed.

Lemma find_language_offered i lang :
  languageOptions first rest !! i = Some lang ->
  exists found,
    find_language (value lang) = Some found /\ value found = value lang.
Proof.
  intros Hi. unfold EnhancedCodeEditor.find_language.
  destruct (List.find _ _) as [found|] eqn:Hf.
  - exists found. split; [reflexivity|].
    apply List.find_some in Hf as [_ Hv]. apply String.eqb_eq in Hv. exact Hv.
  - exfalso. apply list_elem_of_lookup_2, list_elem_of_In in Hi.
    pose proof (List.find_none _ _ Hf lang Hi) as Hn. cbn in Hn.
    rewrite String.eqb_refl in Hn. discriminate.
Qed.

Lemma truthy_or_empty s : (if truthy s then s else "") = s.
Proof. destruct s; reflexivity. Qed.

Lemma not_truthy s : negb (truthy s) = true <-> s = "".
Proof. destruct s; cbn; split; congruence. Qed.

Lemma step_in_step e w w' : in_step w -> step e w = Some w' -> in_step w'.
Proof.
  intros (Hc & Hl & Hv) H. unfold EnhancedCodeEditor.in_step in *.
  destruct w as [[l c x] [pc pl o er px] ex ts cs]. cbn in Hc, Hl, Hv. subst pc pl.
  destruct e; unfold EnhancedCodeEditor.step in H; cbn in H.
  - destruct (languageOptions first rest !! i) as [lang|] eqn:Hi;
      [|discriminate].
    injection H as <-.
    destruct (find_language_offered i lang Hi) as (found & Hf & Hfv).
    unfold handleLanguageChange. cbn.
    destruct (negb (truthy c) || _)%bool; cbn;
      unfold EnhancedCodeEditor.defaultLanguageOption; rewrite Hf; auto.
  - injection H as <-. cbn. auto.
  - injection H as <-. unfold handleTab. cbn.
    destruct (String.eqb key "Tab"); cbn; auto.
  - destruct x; [discriminate|]. injection H as <-. cbn. auto.
  - destruct (ex !! i) as [[xl xc [|]]|]; try discriminate.
    injection H as <-. cbn. auto.
  - destruct (ex !! i) as [[xl xc [|]]|]; try discriminate.
    injection H as <-. cbn. auto.
Qed.

Lemma mounted_in_step : in_step mounted.
Proof.
  unfold EnhancedCodeEditor.in_step, EnhancedCodeEditor.mounted,
    EnhancedCodeEditor.defaultLanguageOption,
    EnhancedCodeEditor.find_language, languageOptions.
  cbn. rewrite !String.eqb_refl. cbn.
  repeat split. destruct (truthy (default first)); reflexivity.
Qed.

(** X19 - The editor and the page never disagree: in every reachable
    world the editor's code is the page's code, the editor's language
    is the page's language, and the language is one the select
    offers. *)
Theorem editor_and_page_agree w :
  reachable w ->
  code (st w) = p_code (parent w) /\
  language (st w) = p_language (parent w) /\
  (exists lang, lang ∈ languageOptions first rest /\
                value lang = language (st w)).
Proof.
  intros [es Hes].
  assert (H : in_step w).
  { eapply editor_run_preserves; [apply step_in_step| |exact Hes].
    apply mounted_in_step. }
  destruct H as (Hc & Hl & Hv). split; [exact Hc|]. split; [exact Hl|].
  exists (defaultLanguageOption (language (st w))). split; [|exact Hv].
  unfold EnhancedCodeEditor.defaultLanguageOption.
  destruct (find_language (language (st w))) as [found|] eqn:Hf.
  - apply List.find_some in Hf as [Hin _]. apply list_elem_of_In. exact Hin.
  - apply list_elem_of_here.
Qed.

(** X20 - Selecting a language sets the language selected; code that is
    empty or is the default of the language shown (not only of the
    first one: the page passes its language back as [initialLanguage])
    is replaced by the default of the language selected, and is then
    untouched again; any other code is kept. *)
Theorem language_switch_keeps_edits w i w' :
  reachable w ->
  step (Select i) w = Some w' ->
  (exists lang, languageOptions first rest !! i = Some lang /\
                language (st w') = value lang) /\
  (code (st w) = "" \/ untouched w -> untouched w') /\
  (code (st w) <> "" -> ~ untouched w -> code (st w') = code (st w)).
Proof.
  intros [es Hes] H.
  assert (Hin : in_step w).
  { eapply editor_run_preserves; [apply step_in_step| |exact Hes].
    apply mounted_in_step. }
  destruct Hin as (Hc & Hl & Hv).
  unfold EnhancedCodeEditor.untouched.
  destruct w as [[l c x] [pc pl o er px] ex ts cs]. cbn in Hc, Hl, Hv. subst pc pl.
  unfold EnhancedCodeEditor.step in H; cbn in H.
  destruct (languageOptions first rest !! i) as [lang|] eqn:Hi; [|discriminate].
  injection H as <-.
  destruct (find_language_offered i lang Hi) as (found & Hf & Hfv).
  unfold handleLanguageChange. cbn.
  split; [exists lang; split; [reflexivity|]|split].
  - destruct (negb (truthy c) || _)%bool; reflexivity.
  - intros Hu.
    assert (Hcond : (negb (truthy c) ||
                     String.eqb c (default (defaultLanguageOption l)))%bool = true).
    { destruct Hu as [-> | ->]; [reflexivity|].
      rewrite String.eqb_refl. apply orb_true_r. }
    rewrite Hcond. cbn. rewrite Hf, truthy_or_empty.
    unfold EnhancedCodeEditor.defaultLanguageOption. rewrite Hf. reflexivity.
  - intros Hne Hnu.
    assert (Hcond : (negb (truthy c) ||
                     String.eqb c (default (defaultLanguageOption l)))%bool = false).
    { apply orb_false_iff. split.
      - destruct c; [congruence | reflexivity].
      - apply String.eqb_neq. exact Hnu. }
    rewrite Hcond. reflexivity.
Qed.

Lemma step_parent_outcome e w w' :
  (p_isExecuting (parent w) = false /\
   (output (parent w) = None \/ error (parent w) = None)) ->
  step e w = Some w' ->
  p_isExecuting (parent w') = false /\
  (output (parent w') = None \/ error (parent w') = None).
Proof.
  intros Hp H.
  destruct w as [[l c x] [pc pl o er px] ex ts cs]. cbn in Hp.
  destruct e; unfold EnhancedCodeEditor.step in H; cbn in H.
  - destruct (languageOptions first rest !! i) as [lang|]; [|discriminate].
    injection H as <-. unfold handleLanguageChange. cbn.
    destruct (negb (truthy c) || _)%bool; cbn; exact Hp.
  - injection H as <-. exact Hp.
  - injection H as <-. unfold handleTab. cbn.
    destruct (String.eqb key "Tab"); cbn; exact Hp.
  - destruct x; [discriminate|]. injection H as <-. exact Hp.
  - destruct (ex !! i) as [[xl xc [|]]|]; try discriminate.
    injection H as <-. cbn. auto.
  - destruct (ex !! i) as [[xl xc [|]]|]; try discriminate.
    injection H as <-. cbn. auto.
Qed.

(** X21 - The page never holds an output and an error together, and its
    own [isExecuting] is never true, so the line that says the code is
    running is never shown; of the other three lines of the output panel
    exactly one is shown, and the log shows at most one of its two. *)
Theorem output_panel_shows_one_line w :
  reachable w ->
  let p := parent w in
  (output p = None \/ error p = None) /\
  shows_running p = false /\
  (shows_error p = true /\ shows_output p = false /\ shows_hint p = false \/
   shows_error p = false /\ shows_output p = true /\ shows_hint p = false \/
   shows_error p = false /\ shows_output p = false /\ shows_hint p = true) /\
  (truthy_opt (output p) && truthy_opt (error p) = false)%bool.
Proof.
  intros [es Hes]. cbn zeta.
  assert (H : p_isExecuting (parent w) = false /\
              (output (parent w) = None \/ error (parent w) = None)).
  { eapply (editor_run_preserves
              (fun w => p_isExecuting (parent w) = false /\
                        (output (parent w) = None \/ error (parent w) = None)));
      [apply step_parent_outcome| |exact Hes].
    cbn. auto. }
  destruct H as [Hx Hoe]. unfold shows_running, shows_error, shows_output,
    shows_hint. rewrite Hx.
  split; [exact Hoe|]. split; [reflexivity|].
  destruct Hoe as [-> | ->]; cbn.
  - destruct (truthy_opt (error (parent w))); cbn; intuition.
  - destruct (truthy_opt (output (parent w))); cbn; intuition.
Qed.

Lemma settled_not_pending (ex : list Execution) i j y :
  alter (fun x => mkExecution (ex_language x) (ex_code x) false) i ex !! j
    = Some y ->
  pending y = true ->
  j <> i /\ ex !! j = Some y.
Proof.
  intros Hj Hp. destruct (decide (i = j)) as [->|Hne].
  - rewrite list_lookup_alter_eq in Hj.
    destruct (ex !! j); [|discriminate]. injection Hj as <-. discriminate.
  - rewrite list_lookup_alter_ne in Hj by exact Hne. split; congruence.
Qed.

Lemma step_one_execution e w w' :
  one_execution w -> step e w = Some w' -> one_execution w'.
Proof.
  intros [Hu Hx] H. unfold one_execution in *.
  destruct w as [[l c x] [pc pl o er px] ex ts cs]. cbn in Hu, Hx.
  destruct e; unfold EnhancedCodeEditor.step in H; cbn in H.
  - destruct (languageOptions first rest !! i) as [lang|]; [|discriminate].
    injection H as <-. unfold handleLanguageChange. cbn.
    destruct (negb (truthy c) || _)%bool; cbn; auto.
  - injection H as <-. cbn. auto.
  - injection H as <-. unfold handleTab. cbn.
    destruct (String.eqb key "Tab"); cbn; auto.
  - destruct x; [discriminate|]. injection H as <-. cbn.
    assert (Hnew : forall i y, (ex ++ [mkExecution l c true]) !! i = Some y ->
                     pending y = true -> i = length ex).
    { intros i y Hi Hp. apply lookup_app_Some in Hi as [Hi | [Hge Hi]].
      - destruct (Hu i y Hi Hp). discriminate.
      - destruct (i - length ex) eqn:E; [lia | discriminate]. }
    split.
    + intros i y Hi Hp. split; [reflexivity|]. intros j z Hj Hq.
      rewrite (Hnew i y Hi Hp), (Hnew j z Hj Hq). reflexivity.
    + intros _. exists (length ex), (mkExecution l c true).
      rewrite list_lookup_middle by reflexivity. auto.
  - destruct (ex !! i) as [[xl xc [|]]|] eqn:Hi; try discriminate.
    injection H as <-. cbn.
    destruct (Hu i _ Hi eq_refl) as [_ Huniq].
    split; [|discriminate].
    intros j y Hj Hp. exfalso.
    apply settled_not_pending in Hj as [Hne Hj]; [|exact Hp].
    apply Hne. symmetry. eapply Huniq; eauto.
  - destruct (ex !! i) as [[xl xc [|]]|] eqn:Hi; try discriminate.
    injection H as <-. cbn.
    destruct (Hu i _ Hi eq_refl) as [_ Huniq].
    split; [|discriminate].
    intros j y Hj Hp. exfalso.
    apply settled_not_pending in Hj as [Hne Hj]; [|exact Hp].
    apply Hne. symmetry. eapply Huniq; eauto.
Qed.

(** X22 - The run button lets one execution run at a time: at most one
    call of [executeCode] is pending, one is pending exactly while the
    editor's [isExecuting] is true, and then a click on the button does
    nothing. *)
Theorem one_execution_at_a_time w :
  reachable w ->
  (forall i j x y,
     executions w !! i = Some x -> executions w !! j = Some y ->
     pending x = true -> pending y = true -> i = j) /\
  (isExecuting (st w) = true <->
   exists i x, executions w !! i = Some x /\ pending x = true) /\
  (forall i x, executions w !! i = Some x -> pending x = true ->
     step ClickRun w = None).
Proof.
  intros [es Hes].
  assert (H : one_execution w).
  { eapply editor_run_preserves; [apply step_one_execution| |exact Hes].
    split; [intros i x Hi; discriminate | discriminate]. }
  destruct H as [Hu Hx]. split; [|split].
  - intros i j x y Hi Hj Hp Hq. destruct (Hu i x Hi Hp) as [_ Huniq]. eauto.
  - split; [exact Hx|]. intros (i & x & Hi & Hp). destruct (Hu i x Hi Hp). auto.
  - intros i x Hi Hp. destruct (Hu i x Hi Hp) as [Hex _].
    unfold EnhancedCodeEditor.step. rewrite Hex. reflexivity.
Qed.

End Options.

Lemma handleTab_replaces_the_selection_witness :
  tab_text 4 5 "x = 1; y" = "x =   ; y" /\
  substring_from (4 + 2) (tab_text 4 5 "x = 1; y") = "; y".
Proof.
  destruct (handleTab_replaces_the_selection 4 5 "x = 1; y")
    as (_ & _ & _ & Hrest & _).
  - lia.
  - vm_compute. lia.
  - split; [vm_compute; reflexivity|]. rewrite Hrest. vm_compute; reflexivity.
Defined.

Lemma editor_and_page_agree_witness :
  code (st edited_world) = p_code (parent edited_world) /\
  language (st edited_world) = p_language (parent edited_world) /\
  (exists lang, lang ∈ languageOptions javascript [python] /\
                value lang = language (st edited_world)).
Proof.
  apply editor_and_page_agree. exists editing. vm_compute; reflexivity.
Defined.

Lemma language_switch_keeps_edits_witness :
  exists w',
    step javascript [python] (Select 0) python_world = Some w' /\
    untouched javascript [python] w' /\
    code (st w') = default javascript.
Proof.
  eexists. split; [vm_compute; reflexivity|].
  match goal with
  | |- untouched _ _ ?w' /\ _ =>
      destruct (language_switch_keeps_edits javascript [python]
                  python_world 0 w') as (_ & Hu & _)
  end.
  - exists [Select 1]. vm_compute; reflexivity.
  - vm_compute; reflexivity.
  - split; [apply Hu; right; vm_compute; reflexivity | vm_compute; reflexivity].
Defined.

Lemma output_panel_shows_one_line_witness :
  shows_running (parent finished_world) = false /\
  shows_error (parent finished_world) = true /\
  output (parent finished_world) = None.
Proof.
  destruct (output_panel_shows_one_line javascript [python] finished_world)
    as (_ & Hrun & _).
  - exists (editing ++ [ExecutionRejected 0 (ErrorObject "boom")]).
    vm_compute; reflexivity.
  - split; [exact Hrun|]. split; vm_compute; reflexivity.
Defined.

Lemma one_execution_at_a_time_witness :
  isExecuting (st edited_world) = true /\
  step javascript [python] ClickRun edited_world = None.
Proof.
  destruct (one_execution_at_a_time javascript [python] edited_world)
    as (_ & [_ Hex] & Hdead).
  - exists editing. vm_compute; reflexivity.
  - assert (Hp : executions edited_world !! 0 =
                 Some (mkExecution "python" "  x = 1" true))
      by (vm_compute; reflexivity).
    split; [apply Hex; eauto | eapply Hdead; [exact Hp | reflexivity]].
Defined.

End EditorSpec.
